(** * Configuration auto-update (configUpdater): model and properties

    A shallow embedding of the service's [configUpdater] module: the template
    expander, the conditional downloader, the commit procedure
    ([applyUpdate] / [moveFile]), the journal store and the orchestrator
    ([updateFile] / [updateAll]).

    Promise chains are written in a state-and-error monad over a [World]
    (file map, pending environment outcomes, trace of external calls).
    Node's [path], [os], [crypto], [JSON]/[JSON5] and the host service are
    taken as a [Platform] of parameters. *)

From Stdlib Require Import ZArith Ascii String.
From stdpp Require Import base option list strings gmap fin_maps pretty.

Local Open Scope string_scope.
Local Open Scope list_scope.

Set Warnings "-register-all".

(** ** JavaScript values (the secrets object handed to [expand]) *)

Module JS.

(** How an evaluation ends: abruptly, with a TypeError, or with a value. *)
Inductive completion (A : Type) :=
| Throws
| Returns (a : A).
Arguments Throws {A}.
Arguments Returns {A} a.

(** Go on with [k] unless [c] threw. *)
Definition and_so {A B} (c : completion A) (k : A -> completion B)
    : completion B :=
  match c with
  | Throws => Throws
  | Returns a => k a
  end.

(** Plain data as it comes out of a JSON/JSON5 document, with the standard
    prototypes. A number is kept as what this program can tell of it:
    whether it is falsy (0, -0 or NaN) and the text its conversion to a
    string gives. A string has one character per code unit, all below 256.
    Objects are key/value lists read by first match. *)
Inductive value :=
| VUndefined
| VNull
| VBool (b : bool)
| VNum (falsy : bool) (text : string)
| VStr (s : string)
| VObj (fields : list (string * value))
| VArr (items : list value).

(** The number of an array or string length, or of an index. *)
Definition of_nat (n : nat) : value := VNum (Nat.eqb n 0) (pretty n).

(** [typeof(v) === "object"] *)
Definition typeof_object (v : value) : bool :=
  match v with
  | VNull | VObj _ | VArr _ => true
  | _ => false
  end.

(** [v === undefined] *)
Definition is_undefined (v : value) : bool :=
  match v with
  | VUndefined => true
  | _ => false
  end.

(** [v === null] *)
Definition is_null (v : value) : bool :=
  match v with
  | VNull => true
  | _ => false
  end.

(** ToBoolean on a string: only the empty string is falsy. *)
Definition truthy_string (s : string) : bool :=
  match s with
  | EmptyString => false
  | String _ _ => true
  end.

(** ToBoolean *)
Definition truthy (v : value) : bool :=
  match v with
  | VUndefined | VNull => false
  | VBool b => b
  | VNum falsy _ => negb falsy
  | VStr s => truthy_string s
  | VObj _ | VArr _ => true
  end.

Definition join_with (sep : string) (parts : list string) : string :=
  match parts with
  | [] => ""
  | p :: ps => fold_left (fun acc q => acc +:+ sep +:+ q) ps p
  end.

Fixpoint assoc (k : string) (fields : list (string * value)) : option value :=
  match fields with
  | [] => None
  | (k', v) :: rest => if String.eqb k k' then Some v else assoc k rest
  end.

(** The object has an own property of that name. In plain data its value
    is never a function, so it hides the method of that name that
    [Object.prototype] provides. *)
Definition shadows (name : string) (v : value) : bool :=
  match v with
  | VObj fields => bool_decide (is_Some (assoc name fields))
  | _ => false
  end.

(** All of the evaluations, in order, unless one throws. *)
Fixpoint all_of {A} (cs : list (completion A)) : completion (list A) :=
  match cs with
  | [] => Returns []
  | c :: rest =>
      and_so c (fun a => and_so (all_of rest) (fun tl => Returns (a :: tl)))
  end.

(** ToString, as [String.prototype.replace] applies it to what the replacer
    function returns. An object is converted by its [toString] method: the
    one of [Object.prototype], unless an own property hides it, and then
    the conversion throws (an own [valueOf] is no way out: the inherited
    one returns the object). An array joins the conversions of its
    elements. *)
Fixpoint ToString (v : value) : completion string :=
  match v with
  | VUndefined => Returns "undefined"
  | VNull => Returns "null"
  | VBool true => Returns "true"
  | VBool false => Returns "false"
  | VNum _ text => Returns text
  | VStr s => Returns s
  | VObj fields =>
      if bool_decide (is_Some (assoc "toString" fields)) then Throws
      else Returns "[object Object]"
  | VArr items =>
      and_so
        (all_of (List.map (fun x => match x with
                                    | VUndefined | VNull => Returns ""
                                    | _ => ToString x
                                    end) items))
        (fun texts => Returns (join_with "," texts))
  end.

(** The array index a property name denotes: its canonical decimal form,
    below [len]. *)
Definition index_of (property : string) (len : nat) : option nat :=
  List.find (fun i => String.eqb (pretty i) property) (seq 0 len).

Definition char_at (s : string) (i : nat) : option value :=
  match String.get i s with
  | Some c => Some (VStr (String c EmptyString))
  | None => None
  end.

(** [parent.hasOwnProperty(property) ? Some parent[property] : None], when
    the method called is the one of [Object.prototype]. *)
Definition own_property (parent : value) (property : string) : option value :=
  match parent with
  | VObj fields => assoc property fields
  | VArr items =>
      if String.eqb property "length" then Some (of_nat (length items))
      else match index_of property (length items) with
           | Some i => items !! i
           | None => None
           end
  | VStr s =>
      if String.eqb property "length" then Some (of_nat (String.length s))
      else match index_of property (String.length s) with
           | Some i => char_at s i
           | None => None
           end
  | _ => None
  end.

(** [s.startsWith(p)] *)
Definition startsWith (p s : string) : bool := String.prefix p s.

(** [s.endsWith(p)] *)
Definition endsWith (p s : string) : bool :=
  let n := String.length s in
  let k := String.length p in
  (k <=? n)%nat && String.eqb (String.substring (n - k) k s) p.

(** [s.substring(a, b)]: indices clamped to the length, swapped when out of
    order. *)
Definition substring (a b : nat) (s : string) : string :=
  let n := String.length s in
  let a' := Nat.min a n in
  let b' := Nat.min b n in
  let lo := Nat.min a' b' in
  let hi := Nat.max a' b' in
  String.substring lo (hi - lo) s.

End JS.

(** ** Template expander *)

Module Expander.
Import JS.

(** [str.split(".")] *)
Fixpoint split_dot_aux (acc : string) (s : string) : list string :=
  match s with
  | EmptyString => [acc]
  | String c rest =>
      if Ascii.eqb c "."%char then acc :: split_dot_aux "" rest
      else split_dot_aux (acc +:+ String c "") rest
  end.

Definition split_dot (s : string) : list string := split_dot_aux "" s.

(** The reducer of line 248:
    [(parent && parent.hasOwnProperty(property)) ? parent[property] : undefined].
    The call [parent.hasOwnProperty(...)] throws a TypeError when the
    object has an own property of that name. *)
Definition descend (parent : value) (property : string) : completion value :=
  if truthy parent then
    if shadows "hasOwnProperty" parent then Throws
    else match own_property parent property with
         | Some v => Returns v
         | None => Returns VUndefined
         end
  else Returns VUndefined.

(** [properties.reduce(descend, parent)] *)
Fixpoint reduce (properties : list string) (parent : value) : completion value :=
  match properties with
  | [] => Returns parent
  | property :: rest => and_so (descend parent property) (reduce rest)
  end.

Definition resolve_path (expression : string) (sourceObject : value)
    : completion value :=
  reduce (split_dot expression) sourceObject.

(** *** The regular expression of line 246

    A dollar sign and an opening brace; group 1, the longest run of
    characters other than a question mark or a closing brace; optionally
    group 2, a question mark followed by group 3, the longest run of
    characters other than a closing brace; a closing brace. The flag g
    makes [replace] visit every match, left to right. *)

(** Longest prefix of characters for which [stop] is false, and the rest. *)
Fixpoint span_until (stop : ascii -> bool) (s : string) : string * string :=
  match s with
  | EmptyString => ("", "")
  | String c rest =>
      if stop c then ("", s)
      else let '(taken, remaining) := span_until stop rest in
           (String c taken, remaining)
  end.

Definition is_query_or_close (c : ascii) : bool :=
  Ascii.eqb c "?"%char || Ascii.eqb c "}"%char.

Definition is_close (c : ascii) : bool := Ascii.eqb c "}"%char.

(** One match of the expression: group 1, and group 3 when group 2 took part. *)
Record expander_match := {
  expression : string;
  defaultValue : option string
}.

(** Group 2 of the match, [?default], or undefined. *)
Definition defaultGroup (m : expander_match) : option string :=
  match defaultValue m with
  | Some d => Some ("?" +:+ d)
  | None => None
  end.

(** Match anchored at the start of [s]: [Some (m, rest)] when the expression
    matches a prefix of [s], with [rest] what follows the closing brace.
    Both starred classes are greedy and every shorter choice is followed by a
    character the next item rejects, so the greedy choice decides. *)
Definition match_here (s : string) : option (expander_match * string) :=
  match s with
  | String "$"%char (String "{"%char body) =>
      let '(e, after) := span_until is_query_or_close body in
      match after with
      | String "}"%char rest =>
          Some ({| expression := e; defaultValue := None |}, rest)
      | String "?"%char tail =>
          let '(d, after') := span_until is_close tail in
          match after' with
          | String "}"%char rest =>
              Some ({| expression := e; defaultValue := Some d |}, rest)
          | _ => None
          end
      | _ => None
      end
  | _ => None
  end.

(** What a global [replace] sees, left to right: characters outside any
    match, and the matches. *)
Inductive segment :=
| Lit (c : ascii)
| Hole (m : expander_match).

(** Scanning: at each position try the expression; after a match continue
    behind it, otherwise keep the character and move one position on. *)
Fixpoint scan (fuel : nat) (s : string) : option (list segment) :=
  match fuel with
  | O => None
  | S fuel' =>
      match s with
      | EmptyString => Some []
      | String c rest =>
          match match_here s with
          | Some (m, rest') => cons (Hole m) <$> scan fuel' rest'
          | None => cons (Lit c) <$> scan fuel' rest
          end
      end
  end.

Definition segments (s : string) : list segment :=
  default [] (scan (S (String.length s)) s).

(** What the replacer does with the value the path led to (lines
    252-263). *)
Definition substitute (alwaysExpand : bool) (unresolved : bool)
    (m : expander_match) (found : value) : value * bool :=
  let value := found in
  if is_undefined value || typeof_object value then
    let value :=
      match defaultGroup m with
      | Some g => if truthy_string g
                  then from_option VStr VUndefined (defaultValue m)
                  else value
      | None => value
      end in
    if is_undefined value || is_null value
    then (VStr "", if negb alwaysExpand then true else unresolved)
    else (value, unresolved)
  else (value, unresolved).

(** The replacer function of lines 246-264. It reads [sourceObject] and
    [alwaysExpand] and writes the captured variable [unresolved], threaded
    here as state. It throws when the lookup of line 248 does. *)
Definition replacer (sourceObject : value) (alwaysExpand : bool)
    (unresolved : bool) (m : expander_match) : completion (value * bool) :=
  and_so (resolve_path (expression m) sourceObject)
    (fun found => Returns (substitute alwaysExpand unresolved m found)).

(** [unexpanded.replace(re, replacer)] with the flag threaded through:
    match by match, the replacer is called and what it returns is
    converted to a string. *)
Fixpoint replace_all (sourceObject : value) (alwaysExpand : bool)
    (segs : list segment) (unresolved : bool) : completion (string * bool) :=
  match segs with
  | [] => Returns ("", unresolved)
  | Lit c :: rest =>
      and_so (replace_all sourceObject alwaysExpand rest unresolved)
        (fun '(out, u) => Returns (String c out, u))
  | Hole m :: rest =>
      and_so (replacer sourceObject alwaysExpand unresolved m)
        (fun '(v, u1) =>
           and_so (ToString v)
             (fun text =>
                and_so (replace_all sourceObject alwaysExpand rest u1)
                  (fun '(out, u2) => Returns (text +:+ out, u2))))
  end.

(** [configUpdater.expand]; [None] is JavaScript's [null]. It throws when
    [replace] does. *)
Definition expand (unexpanded : string) (sourceObject : value)
    (alwaysExpand : bool) : completion (option string) :=
  and_so (replace_all sourceObject alwaysExpand (segments unexpanded) false)
    (fun '(result, unresolved) =>
       Returns (if unresolved then None else Some result)).

End Expander.

(** ** The environment: file map, pending outcomes, trace *)

Module Env.

(** How the next fallible call to the operating system ends. A failing
    write may leave a partial file behind. *)
Inductive outcome :=
| Succeeds
| Fails
| FailsLeaving (partial : string).

Inductive level := Info | Warn | Important.

Record response := {
  statusCode : Z;
  statusMessage : string;
  header_etag : option string;            (* response.headers.etag *)
  header_last_modified : option string;   (* response.headers["last-modified"] *)
  body : string
}.

(** What [request.get] reports: an "error" event or a "response" event. *)
Inductive http_outcome :=
| NetError (message : string)
| NetResponse (r : response).

(** Calls that leave the module, in the order they are made. *)
Inductive event :=
| ELog (l : level) (message : string)
| EReadFile (path : string)
| EWriteFile (path content : string)
| ERename (source destination : string)
| ECopyFile (source destination : string)
| EUnlink (path : string)
| EMkdirp (dir : string)
| ECreateReadStream (path : string)
| ECreateWriteStream (path : string)
| EHttpGet (url : string) (headers : gmap string string).

Record World := {
  fs : gmap string string;        (* regular files: path to content *)
  pending : list outcome;         (* outcomes to come; none left: success *)
  rng : nat;                      (* how many times Math.random was called *)
  remote : string -> gmap string string -> http_outcome;
  trace : list event
}.

Definition set_fs (f : gmap string string) (w : World) : World :=
  {| fs := f; pending := pending w; rng := rng w; remote := remote w;
     trace := trace w |}.

Definition set_pending (p : list outcome) (w : World) : World :=
  {| fs := fs w; pending := p; rng := rng w; remote := remote w;
     trace := trace w |}.

Definition tick_rng (w : World) : World :=
  {| fs := fs w; pending := pending w; rng := S (rng w); remote := remote w;
     trace := trace w |}.

Definition record (e : event) (w : World) : World :=
  {| fs := fs w; pending := pending w; rng := rng w; remote := remote w;
     trace := trace w ++ [e] |}.

Definition next_outcome (w : World) : outcome * World :=
  match pending w with
  | [] => (Succeeds, w)
  | o :: rest => (o, set_pending rest w)
  end.

(** Error values the module rejects with. [Thrown cause] is no rejection:
    it marks a call that threw [cause] before it returned a promise, so
    that no handler attached to its promise runs. *)
Inductive error :=
| IOError (syscall path : string)
| MoveFileFailed (cause : error)
| DownloadFailed (url : string) (status : option Z)
| DownloadWriteFailed (url localPath : string)
| ValidateFailed (file : string)
| SaveFailed (path : string)
| TypeError
| Thrown (cause : error).

(** A settled promise. *)
Inductive settled (A : Type) :=
| Resolved (a : A)
| Rejected (e : error).
Arguments Resolved {A} a.
Arguments Rejected {A} e.

(** A promise-returning computation, run to completion. *)
Definition promise (A : Type) : Type := World -> settled A * World.

Definition resolve {A} (a : A) : promise A := fun w => (Resolved a, w).
Definition reject {A} (e : error) : promise A := fun w => (Rejected e, w).

(** The call throws [e]: it returns no promise. *)
Definition threw {A} (e : error) : promise A := reject (Thrown e).

(** The body of a [then] callback: what it throws rejects the promise that
    [then] returned. *)
Definition in_callback {A} (body : promise A) : promise A :=
  fun w =>
    match body w with
    | (Rejected (Thrown e), w') => (Rejected e, w')
    | settled => settled
    end.

(** [p.then(k)] *)
Definition and_then {A B} (p : promise A) (k : A -> promise B) : promise B :=
  fun w =>
    match p w with
    | (Resolved a, w') => k a w'
    | (Rejected e, w') => (Rejected e, w')
    end.

(** [p["catch"](h)] *)
Definition catch {A} (p : promise A) (h : error -> promise A) : promise A :=
  fun w =>
    match p w with
    | (Resolved a, w') => (Resolved a, w')
    | (Rejected e, w') => h e w'
    end.

(** [p.then(k, h)]: [h] does not see what [k] rejects with. *)
Definition then_else {A B} (p : promise A) (k : A -> promise B)
    (h : error -> promise B) : promise B :=
  fun w =>
    match p w with
    | (Resolved a, w') => k a w'
    | (Rejected e, w') => h e w'
    end.

Definition emit (e : event) : promise unit := fun w => (Resolved tt, record e w).

Definition log (l : level) (message : string) : promise unit :=
  emit (ELog l message).

End Env.

Import Env.

#[global] Instance promise_ret : MRet promise := @resolve.
#[global] Instance promise_bind : MBind promise :=
  fun A B k p => and_then p k.

(** *** File system calls *)

Module Fs.

(** [fs.existsSync(path)] *)
Definition existsSync (path : string) (w : World) : bool :=
  bool_decide (is_Some (fs w !! path)).

(** [fs.rename(source, destination, cb)] *)
Definition rename (source destination : string) : promise unit :=
  fun w =>
    let '(o, w) := next_outcome (record (ERename source destination) w) in
    match fs w !! source, o with
    | Some content, Succeeds =>
        (Resolved tt, set_fs (<[destination := content]> (delete source (fs w))) w)
    | _, _ => (Rejected (IOError "rename" source), w)
    end.

(** [fs.copyFile(source, destination, cb)] *)
Definition copyFile (source destination : string) : promise unit :=
  fun w =>
    let '(o, w) := next_outcome (record (ECopyFile source destination) w) in
    match fs w !! source, o with
    | Some content, Succeeds =>
        (Resolved tt, set_fs (<[destination := content]> (fs w)) w)
    | Some _, FailsLeaving partial =>
        (Rejected (IOError "copyfile" source),
         set_fs (<[destination := partial]> (fs w)) w)
    | _, _ => (Rejected (IOError "copyfile" source), w)
    end.

(** [fs.unlinkSync(path)]; a throw inside a [then] callback rejects. *)
Definition unlinkSync (path : string) : promise unit :=
  fun w =>
    let '(o, w) := next_outcome (record (EUnlink path) w) in
    match fs w !! path, o with
    | Some _, Succeeds => (Resolved tt, set_fs (delete path (fs w)) w)
    | _, _ => (Rejected (IOError "unlink" path), w)
    end.

(** Lines 314-317: [if (!fs.existsSync(destDir)) mkdirp.sync(destDir)].
    Directories are not part of the file map: the step either leaves the
    directory in place or throws, as the environment decides. *)
Definition ensure_directory (destDir : string) : promise unit :=
  fun w =>
    let '(o, w) := next_outcome (record (EMkdirp destDir) w) in
    match o with
    | Succeeds => (Resolved tt, w)
    | _ => (Rejected (IOError "mkdir" destDir), w)
    end.

(** [fs.readFile(path, "utf8", cb)] *)
Definition readFile (path : string) : promise string :=
  fun w =>
    let '(o, w) := next_outcome (record (EReadFile path) w) in
    match fs w !! path, o with
    | Some content, Succeeds => (Resolved content, w)
    | _, _ => (Rejected (IOError "open" path), w)
    end.

(** [fs.writeFile(path, content, cb)] *)
Definition writeFile (path content : string) : promise unit :=
  fun w =>
    let '(o, w) := next_outcome (record (EWriteFile path content) w) in
    match o with
    | Succeeds => (Resolved tt, set_fs (<[path := content]> (fs w)) w)
    | FailsLeaving partial =>
        (Rejected (IOError "write" path), set_fs (<[path := partial]> (fs w)) w)
    | Fails => (Rejected (IOError "open" path), w)
    end.

(** [response.pipe(fs.createWriteStream(path))] up to "finish" or "error". *)
Definition writeStream (path content : string) : promise unit :=
  fun w =>
    let '(o, w) := next_outcome (record (ECreateWriteStream path) w) in
    match o with
    | Succeeds => (Resolved tt, set_fs (<[path := content]> (fs w)) w)
    | FailsLeaving partial =>
        (Rejected (IOError "write" path), set_fs (<[path := partial]> (fs w)) w)
    | Fails => (Rejected (IOError "open" path), w)
    end.

(** [fs.createReadStream(path)] read to its end. *)
Definition readStream (path : string) : promise string :=
  fun w =>
    let '(o, w) := next_outcome (record (ECreateReadStream path) w) in
    match fs w !! path, o with
    | Some content, Succeeds => (Resolved content, w)
    | _, _ => (Rejected (IOError "open" path), w)
    end.

End Fs.

(** ** Data model (the typedefs of lines 35-62) *)

Record AutoUpdateFile := {
  url : string;        (* address the file is downloaded from *)
  path : string;       (* local file to update *)
  always : bool;       (* always fetch the file *)
  isJSON : bool        (* JSON or JSON5 content *)
}.

Record AutoUpdateConfig := {
  enabled : bool;
  lastUpdatesFile : string;
  cfg_files : list AutoUpdateFile
}.

Record LastUpdate := {
  etag : option string;
  date : option string;
  previous : option string
}.

(** The object literal [{}]. *)
Definition no_update : LastUpdate :=
  {| etag := None; date := None; previous := None |}.

(** The [files] property of the journal, as far as the code can tell the
    cases apart. *)
Inductive files_field :=
| FilesMissing                       (* undefined, or another falsy value *)
| FilesMap (entries : gmap string LastUpdate)
| FilesPrimitive (v : JS.value).     (* a truthy number, string or boolean *)

Record LastUpdatesFile := {
  lastCheck : option string;
  files : files_field
}.

(** What [JSON5.parse] does on the journal's text. An object is read
    through its [lastCheck] and [files] properties, and the entries of a
    [files] object through [etag], [date] and [previous]. *)
Inductive parsed :=
| ParseThrows
| ParsedFalsy                        (* null, false, 0 or the empty string *)
| ParsedObject (j : LastUpdatesFile)
| ParsedPrimitive (v : JS.value).    (* a truthy number, string or boolean *)

(** What [loadLastUpdates] resolves with: whatever truthy value the parse
    gave. *)
Inductive loaded :=
| LoadedObject (j : LastUpdatesFile)
| LoadedPrimitive (v : JS.value).

(** Options of [downloadFile]. *)
Record DownloadOptions := {
  opt_date : option string;
  opt_etag : option string;
  opt_hashAlgorithm : option string
}.

(** What [downloadFile] resolves with: [{notModified: true}] or
    [{hash, etag, date}]. *)
Inductive DownloadResult :=
| NotModified
| Downloaded (hash : string) (etag date : option string).

(** Node, its libraries and the host service. *)
Class Platform := {
  path_join : list string -> string;
  path_basename : string -> string;
  path_dirname : string -> string;
  os_tmpdir : string;
  env_ProgramData : string;
  (** the text of the n-th value [Math.random] returns *)
  random_text : nat -> string;
  (** [crypto.createHash(algorithm)] over a whole content, in hex *)
  digest : string -> string -> string;
  (** [JSON.parse] / [JSON5.parse] return without throwing *)
  JSON_parses : string -> bool;
  JSON5_parses : string -> bool;
  JSON5_parse : string -> parsed;
  JSON_stringify : LastUpdatesFile -> string;
  (** [new Date().toISOString()] *)
  now_ISOString : string;
  (** [service.getSecrets()] *)
  getSecrets : JS.value;
  (** [service.config.autoUpdate] *)
  autoUpdate : AutoUpdateConfig
}.

(** The one-character string holding a double quote. *)
Definition dquote : string := String "034"%char EmptyString.

(** An optional string as a condition: undefined, null and the empty string
    are falsy. *)
Definition present (o : option string) : bool :=
  match o with
  | Some s => JS.truthy_string s
  | None => false
  end.

(** ** The updater *)

Module configUpdater.
Section WithPlatform.
Context `{Platform}.

(** [configUpdater.loadLastUpdates] (lines 70-94) *)
Definition loadLastUpdates (path : option string) : promise loaded :=
  let path := if present path then default "" path
              else lastUpdatesFile autoUpdate in
  then_else (Fs.readFile path)
    (fun content =>
       match JSON5_parse content with
       | ParseThrows =>
           log Info "Error parsing last updates file " ;;
           resolve (LoadedObject {| lastCheck := None; files := FilesMap ∅ |})
       | ParsedFalsy =>
           resolve (LoadedObject {| lastCheck := None; files := FilesMap ∅ |})
       | ParsedObject result => resolve (LoadedObject result)
       | ParsedPrimitive result => resolve (LoadedPrimitive result)
       end)
    (fun err =>
       log Info "Error loading last updates file " ;;
       resolve (LoadedObject {| lastCheck := None; files := FilesMap ∅ |})).

(** [configUpdater.saveLastUpdates] (lines 103-126) *)
Definition saveLastUpdates (lastUpdates : LastUpdatesFile) (path : option string)
    : promise unit :=
  let path := if present path then default "" path
              else lastUpdatesFile autoUpdate in
  let saveData := {| lastCheck := Some now_ISOString;
                     files := files lastUpdates |} in
  let content :=
    "// This file is automatically generated, and will be over-written."
    +:+ String "010"%char "" +:+ JSON_stringify saveData in
  then_else (Fs.writeFile path content)
    (fun _ => resolve tt)
    (fun err =>
       log Warn "Error saving last updates file " ;;
       reject (SaveFailed path)).

(** [configUpdater.hashFile] (lines 460-488). [digest] stands for the
    algorithms [crypto.createHash] knows; every call in the module asks for
    sha512. *)
Definition hashFile (file : string) (algorithm : option string) : promise string :=
  let algorithm := if present algorithm then default "" algorithm else "sha512" in
  content ← Fs.readStream file ;
  resolve (digest algorithm content).

(** [configUpdater.validateJSON] (lines 495-523) *)
Definition validateJSON (file : string) : promise bool :=
  then_else (Fs.readFile file)
    (fun content =>
       resolve (if JSON_parses content then true
                else if JSON5_parses content then true
                else false))
    (fun err => reject (ValidateFailed file)).

(** The copying half of [moveFile]: what the call with [copy = true] does. *)
Definition moveFile_copy (source destination : string) : promise bool :=
  Fs.ensure_directory (path_dirname destination) ;;
  then_else (Fs.copyFile source destination)
    (fun _ => resolve true)
    (fun err => reject (MoveFileFailed err)).

(** [configUpdater.moveFile] (lines 310-337). The only recursive call passes
    [copy = true], which does not recurse again; it is [moveFile_copy]. *)
Definition moveFile (source destination : string) (copy : bool) : promise bool :=
  if copy then moveFile_copy source destination
  else
    Fs.ensure_directory (path_dirname destination) ;;
    then_else (Fs.rename source destination)
      (fun _ => resolve false)
      (fun err => moveFile_copy source destination).

(** The secondary backup location of line 284. *)
Definition fallback_backup (backupPath : string) : string :=
  path_join [env_ProgramData; "Morphic"; path_basename backupPath].

(** Lines 277-289 of [applyUpdate]: back up the current file. The variable
    [backupPath], assigned again in the [catch] handler, is what the
    promise hands on. *)
Definition backupPromise (destination : string) (existing : bool)
    : promise (option string) :=
  if existing then
    let backupPath := destination +:+ ".previous" in
    catch (moveFile destination backupPath false ;; resolve (Some backupPath))
      (fun _ =>
         let backupPath := fallback_backup backupPath in
         moveFile destination backupPath false ;; resolve (Some backupPath))
  else resolve None.

(** [configUpdater.applyUpdate] (lines 276-300) *)
Definition applyUpdate (source destination : string) : promise (option string) :=
  fun w =>
    (backupPath ← backupPromise destination (Fs.existsSync destination w) ;
     moveFile source destination true ;;
     Fs.unlinkSync source ;;
     resolve backupPath) w.

(** Lines 366-369: defaults merged under the caller's options. *)
Definition with_defaults (options : option DownloadOptions) : DownloadOptions :=
  match options with
  | Some o =>
      {| opt_date := opt_date o;
         opt_etag := opt_etag o;
         opt_hashAlgorithm := match opt_hashAlgorithm o with
                              | Some a => Some a
                              | None => Some "sha512"
                              end |}
  | None =>
      {| opt_date := None; opt_etag := None; opt_hashAlgorithm := Some "sha512" |}
  end.

(** Lines 375-384: the request headers. *)
Definition request_headers (options : DownloadOptions) : gmap string string :=
  let headers : gmap string string := ∅ in
  let headers :=
    if present (opt_etag options)
    then <["If-None-Match" := dquote +:+ default "" (opt_etag options) +:+ dquote]> headers
    else headers in
  let headers :=
    if present (opt_date options)
    then <["If-Modified-Since" := default "" (opt_date options)]> headers
    else headers in
  headers.

(** Lines 415-423: the ETag handed back, but not weak ones. *)
Definition result_etag (etag : option string) : option string :=
  match etag with
  | Some etag =>
      if JS.truthy_string etag && negb (JS.startsWith "W/" etag) then
        if JS.startsWith dquote etag && JS.endsWith dquote etag
        then Some (JS.substring 1 (String.length etag - 1) etag)
        else Some etag
      else None
  | None => None
  end.

(** Line 425: [response.headers["last-modified"] || undefined] *)
Definition result_date (lastModified : option string) : option string :=
  if present lastModified then lastModified else None.

(** The handler of the request's "response" event (lines 400-449);
    [options] are the merged ones. *)
Definition on_response (url localPath : string) (options : DownloadOptions)
    (response : response) : promise DownloadResult :=
  log Info "Download response" ;;
  if Z.eqb (statusCode response) 200 then
    then_else (Fs.writeStream localPath (body response))
      (fun _ =>
         log Info "Download complete" ;;
         hash ← hashFile localPath (opt_hashAlgorithm options) ;
         resolve (Downloaded hash
                    (result_etag (header_etag response))
                    (result_date (header_last_modified response))))
      (fun err => reject (DownloadWriteFailed url localPath))
  else if Z.eqb (statusCode response) 304 then resolve NotModified
  else reject (DownloadFailed url (Some (statusCode response))).

(** [configUpdater.downloadFile] (lines 365-451) *)
Definition downloadFile (url localPath : string) (options : option DownloadOptions)
    : promise DownloadResult :=
  let options := with_defaults options in
  log Info "Downloading" ;;
  let headers := request_headers options in
  emit (EHttpGet url headers) ;;
  ((fun w =>
      match remote w url headers with
      | NetError message => reject (DownloadFailed url None) w
      | NetResponse response => on_response url localPath options response w
      end) : promise DownloadResult).

(** Line 192: [path.join(os.tmpdir(), "morphic-update." + Math.random())] *)
Definition temp_name (n : nat) : string :=
  path_join [os_tmpdir; "morphic-update." +:+ random_text n].

(** Line 214: [downloadHash && downloadHash !== localHash] *)
Definition should_update (downloadHash localHash : option string) : bool :=
  present downloadHash && negb (bool_decide (downloadHash = localHash)).

(** Lines 174-180: the hash of the existing file; undefined when there is
    no file or hashing fails. *)
Definition hashPromise (update : AutoUpdateFile) (existing : bool)
    : promise (option string) :=
  if existing then
    catch (hash ← hashFile (path update) (Some "sha512") ;
           resolve (Some hash))
      (fun err => log Info "updateFile: hash failed" ;; resolve None)
  else resolve None.

(** Lines 172, 182-188: the options handed to [downloadFile]. *)
Definition downloadOptions (update : AutoUpdateFile) (lastUpdate : LastUpdate)
    (existing : bool) : option DownloadOptions :=
  if existing && negb (always update)
  then Some {| opt_date := date lastUpdate;
               opt_etag := etag lastUpdate;
               opt_hashAlgorithm := None |}
  else None.

(** Lines 193-209: download and validate; hands on [downloadHash] and
    [togo]. *)
Definition downloadPromise (update : AutoUpdateFile) (togo : LastUpdate)
    (url tempFile : string) (options : option DownloadOptions)
    : promise (option string * LastUpdate) :=
  then_else (downloadFile url tempFile options)
    (fun result =>
       match result with
       | NotModified => resolve (None, togo)
       | Downloaded hash etag date =>
           isValid ← ((if isJSON update then validateJSON tempFile
                       else resolve true) : promise bool) ;
           if isValid : bool
           then resolve (Some hash,
                         {| etag := etag; date := date;
                            previous := previous togo |})
           else resolve (None, togo)
       end)
    (fun err =>
       log Warn "updateFile: download failed" ;; resolve (None, togo)).

(** Lines 211-222: apply the update only if the file is different. *)
Definition commit_if_changed (update : AutoUpdateFile) (tempFile : string)
    (localHash downloadHash : option string) (togo : LastUpdate)
    : promise LastUpdate :=
  if should_update downloadHash localHash then
    backupPath ← applyUpdate tempFile (path update) ;
    resolve {| etag := etag togo; date := date togo; previous := backupPath |}
  else resolve togo.

(** [configUpdater.updateFile] (lines 166-227). The local hash and the
    download are started together and awaited together; they are run here
    one after the other, hash first. When [expand] throws (line 170) the
    call throws, before anything was started. *)
Definition updateFile (update : AutoUpdateFile) (lastUpdate : LastUpdate)
    : promise LastUpdate :=
  let togo := lastUpdate in
  match Expander.expand (url update) getSecrets false with
  | JS.Throws => threw TypeError
  | JS.Returns url =>
      if present url then
        fun w =>
          let existing := Fs.existsSync (path update) w in
          let tempFile := temp_name (rng w) in
          (localHash ← hashPromise update existing ;
           '(downloadHash, togo) ←
             downloadPromise update togo (default "" url) tempFile
               (downloadOptions update lastUpdate existing) ;
           commit_if_changed update tempFile localHash downloadHash togo)
            (tick_rng w)
      else
        log Info "Not updating: no url" ;; resolve togo
  end.

(** Lines 139-149, one tracked file: the entry is read from the journal as
    loaded, the result is stored in the journal being built. A rejection
    of [updateFile] is caught and logged; a call of [updateFile] that
    throws leaves the [map] of line 139. *)
Definition update_entry (loaded : gmap string LastUpdate)
    (journal : gmap string LastUpdate) (file : AutoUpdateFile)
    : promise (gmap string LastUpdate) :=
  let lastUpdate := default no_update (loaded !! path file) in
  fun w =>
    match updateFile file lastUpdate w with
    | (Resolved newLastUpdate, w') =>
        (Resolved (<[path file := newLastUpdate]> journal), w')
    | (Rejected (Thrown e), w') => (Rejected (Thrown e), w')
    | (Rejected _, w') => (log Warn "updateFile error" ;; resolve journal) w'
    end.

(** The tasks of [Promise.all(promises)], run to completion in the order of
    the configuration. *)
Fixpoint update_entries (loaded : gmap string LastUpdate)
    (fileList : list AutoUpdateFile) (journal : gmap string LastUpdate)
    : promise (gmap string LastUpdate) :=
  match fileList with
  | [] => resolve journal
  | file :: rest =>
      journal' ← update_entry loaded journal file ;
      update_entries loaded rest journal'
  end.

(** Lines 139-149 when [lastUpdates.files] is a primitive: no entry can be
    read from it, and storing a result in it (line 146) throws, which
    rejects the task. [failed] tells whether a task has been rejected. *)
Definition try_entry (failed : bool) (file : AutoUpdateFile) : promise bool :=
  fun w =>
    match updateFile file no_update w with
    | (Resolved newLastUpdate, w') => (Resolved true, w')
    | (Rejected (Thrown e), w') => (Rejected (Thrown e), w')
    | (Rejected _, w') => (log Warn "updateFile error" ;; resolve failed) w'
    end.

Fixpoint try_entries (fileList : list AutoUpdateFile) (failed : bool)
    : promise bool :=
  match fileList with
  | [] => resolve failed
  | file :: rest =>
      failed' ← try_entry failed file ;
      try_entries rest failed'
  end.

(** Lines 151-153: the promise of [saveLastUpdates] is not returned from
    the callback, so its outcome does not reach the caller. *)
Definition save_unawaited (lastUpdates : LastUpdatesFile) : promise unit :=
  fun w =>
    let '(_, w') := saveLastUpdates lastUpdates None w in
    (Resolved tt, w').

(** [configUpdater.updateAll] (lines 132-155). Line 136 assigns to a
    property of [lastUpdates], which throws in strict mode when that is a
    primitive; a rejected task makes [Promise.all] reject, and then nothing
    is saved. *)
Definition updateAll : promise unit :=
  log Important "Checking for configuration updates" ;;
  lastUpdates ← loadLastUpdates None ;
  in_callback
    match lastUpdates with
    | LoadedPrimitive _ => threw TypeError
    | LoadedObject lastUpdates =>
        match files lastUpdates with
        | FilesPrimitive v =>
            failed ← try_entries (cfg_files autoUpdate) false ;
            if failed : bool then reject TypeError
            else save_unawaited {| lastCheck := lastCheck lastUpdates;
                                   files := FilesPrimitive v |}
        | FilesMap loaded =>
            journal ← update_entries loaded (cfg_files autoUpdate) loaded ;
            save_unawaited {| lastCheck := lastCheck lastUpdates;
                              files := FilesMap journal |}
        | FilesMissing =>
            journal ← update_entries ∅ (cfg_files autoUpdate) ∅ ;
            save_unawaited {| lastCheck := lastCheck lastUpdates;
                              files := FilesMap journal |}
        end
    end.

End WithPlatform.
End configUpdater.

(** ** What a run can be observed to do *)

Module Observe.

(** [within touch allowed w w']: going from [w] to [w'], only files at
    paths in [touch] changed, the trace grew by events in [allowed], and
    the server is the same. *)
Record within (touch : string -> Prop) (allowed : event -> Prop)
    (w w' : World) : Prop := {
  within_fs : forall p, ~ touch p -> fs w' !! p = fs w !! p;
  within_trace : exists d, trace w' = trace w ++ d /\ Forall allowed d;
  within_remote : remote w' = remote w
}.

(** The events recorded on the way from [w] to [w']. *)
Definition since (w w' : World) : list event :=
  drop (length (trace w)) (trace w').

(** Every run of [p] stays within [touch] and [allowed]. *)
Definition keeps {A} (touch : string -> Prop) (allowed : event -> Prop)
    (p : promise A) : Prop :=
  forall w, within touch allowed w (snd (p w)).

(** Events of the commit procedure: relocating, copying, deleting. *)
Definition commit_event (e : event) : bool :=
  match e with
  | ERename _ _ | ECopyFile _ _ | EUnlink _ | EMkdirp _ => true
  | _ => false
  end.

(** Calls to [fs.writeFile]. *)
Definition writeFile_event (e : event) : bool :=
  match e with
  | EWriteFile _ _ => true
  | _ => false
  end.

(** Calls to [request.get]. *)
Definition request_event (e : event) : bool :=
  match e with
  | EHttpGet _ _ => true
  | _ => false
  end.

(** Log lines and the streams of downloads and hashes. *)
Definition stream_event (e : event) : bool :=
  match e with
  | ELog _ _ | ECreateReadStream _ | ECreateWriteStream _ => true
  | _ => false
  end.

End Observe.

(** ** Names for what the statements below speak of *)

Module Reading.

(** The option a caller passed, if any. *)
Definition passed_etag (options : option DownloadOptions) : option string :=
  match options with
  | Some o => opt_etag o
  | None => None
  end.

Definition passed_date (options : option DownloadOptions) : option string :=
  match options with
  | Some o => opt_date o
  | None => None
  end.

(** The journal substituted when loading fails: [{files: {}}]. *)
Definition empty_journal : LastUpdatesFile :=
  {| lastCheck := None; files := FilesMap ∅ |}.

Section WithPlatform.
Context `{Platform}.

(** The path [loadLastUpdates] and [saveLastUpdates] work on. *)
Definition journal_path (path : option string) : string :=
  if present path then default "" path else lastUpdatesFile autoUpdate.

(** The text [saveLastUpdates] writes for a files map. *)
Definition saved_text (journal : files_field) : string :=
  "// This file is automatically generated, and will be over-written."
  +:+ String "010"%char ""
  +:+ JSON_stringify {| lastCheck := Some now_ISOString; files := journal |}.

End WithPlatform.

End Reading.

(** ** The expander's rule, as the specification words it *)

Module ExpanderSpec.
Import JS Expander.

(** A defined scalar: a boolean, a number or a string. *)
Definition defined_scalar (v : value) : bool :=
  match v with
  | VBool _ | VNum _ _ | VStr _ => true
  | _ => false
  end.

(** The text of a scalar. *)
Definition scalar_text (v : value) : string :=
  match v with
  | VBool true => "true"
  | VBool false => "false"
  | VNum _ text => text
  | VStr s => s
  | _ => ""
  end.

(** The looked-up value: property by property along the dotted path,
    undefined from the first step that leads nowhere. *)
Definition lookup (expression : string) (context : value) : value :=
  fold_left
    (fun parent property =>
       if truthy parent then default VUndefined (own_property parent property)
       else VUndefined)
    (split_dot expression) context.

(** The per-placeholder rule: the looked-up value if it is a defined scalar;
    else the default if the [?default] form was given; else the empty
    string. *)
Definition placeholder_text (context : value) (m : expander_match) : string :=
  let v := lookup (expression m) context in
  if defined_scalar v then scalar_text v
  else match defaultValue m with
       | Some d => d
       | None => ""
       end.

Definition holes (segs : list segment) : list expander_match :=
  omap (fun s => match s with Hole m => Some m | Lit _ => None end) segs.

(** Every placeholder replaced, independently, by its text. *)
Fixpoint render (context : value) (segs : list segment) : string :=
  match segs with
  | [] => ""
  | Lit c :: rest => String c (render context rest)
  | Hole m :: rest => placeholder_text context m +:+ render context rest
  end.

(** "Ends up empty": the text put in place of the placeholder is empty. *)
Definition ends_up_empty (context : value) (m : expander_match) : bool :=
  negb (truthy_string (placeholder_text context m)).

(** The expansion as stated: null whenever a placeholder ends up empty and
    [alwaysExpand] is false. *)
Definition expand_as_stated (template : string) (context : value)
    (alwaysExpand : bool) : option string :=
  let segs := segments template in
  if negb alwaysExpand && existsb (ends_up_empty context) (holes segs)
  then None
  else Some (render context segs).

(** The third alternative of the rule: neither a defined scalar nor a
    default. *)
Definition falls_through (context : value) (m : expander_match) : bool :=
  negb (defined_scalar (lookup (expression m) context))
  && bool_decide (defaultValue m = None).

(** A placeholder without default whose path leads to an object or an
    array. *)
Definition bare_composite (context : value) (m : expander_match) : bool :=
  match lookup (expression m) context with
  | VObj _ | VArr _ => bool_decide (defaultValue m = None)
  | _ => false
  end.

(** The expansion with null tied to the third alternative. *)
Definition expand_by_rule (template : string) (context : value)
    (alwaysExpand : bool) : option string :=
  let segs := segments template in
  if negb alwaysExpand && existsb (falls_through context) (holes segs)
  then None
  else Some (render context segs).

(** The lookup of the placeholder meets an object with an own property
    named [hasOwnProperty]: the code throws there. *)
Definition lookup_throws (context : value) (m : expander_match) : bool :=
  match resolve_path (expression m) context with
  | Throws => true
  | Returns _ => false
  end.

(** No object of the data has an own property named [hasOwnProperty]. *)
Fixpoint unshadowed (v : value) : bool :=
  match v with
  | VObj fields =>
      negb (bool_decide (is_Some (assoc "hasOwnProperty" fields)))
      && forallb (fun kv => match kv with (_, x) => unshadowed x end) fields
  | VArr items => forallb unshadowed items
  | _ => true
  end.

(** The text a segment was read from. *)
Definition segment_text (s : segment) : string :=
  match s with
  | Lit c => String c ""
  | Hole m =>
      "${" +:+ expression m
      +:+ match defaultValue m with
          | Some d => "?" +:+ d
          | None => ""
          end
      +:+ "}"
  end.

Definition unparse (segs : list segment) : string :=
  fold_right (fun s acc => segment_text s +:+ acc) "" segs.

(** The context of the documented examples: [{a:{b:{c:"result"}}}]. *)
Definition example_context : value :=
  VObj [("a", VObj [("b", VObj [("c", VStr "result")])])].

(** A context whose own [hasOwnProperty] hides the method. *)
Definition shadowing_context : value :=
  VObj [("hasOwnProperty", VNum false "1"); ("a", VStr "v")].

End ExpanderSpec.

(** ** Further names: characters of a template, kinds of answers *)

Module Notions.
Import JS Expander.

(** The character occurs in the string. *)
Fixpoint contains (c : ascii) (s : string) : bool :=
  match s with
  | EmptyString => false
  | String c' rest => Ascii.eqb c' c || contains c rest
  end.

(** The characters of a string, each as a literal segment. *)
Fixpoint literals (s : string) : list segment :=
  match s with
  | EmptyString => []
  | String c rest => Lit c :: literals rest
  end.

(** The text [${expression}]. *)
Definition bare_placeholder (expression : string) : string :=
  "${" +:+ expression +:+ "}".

(** The text [${expression?default}]. *)
Definition placeholder_with_default (expression default_text : string) : string :=
  "${" +:+ expression +:+ "?" +:+ default_text +:+ "}".

(** An expression a placeholder can hold: no question mark, no closing
    brace. *)
Definition plain_expression (e : string) : Prop :=
  contains "?" e = false /\ contains "}" e = false.

(** Anything but a 200 response: a transport error or another status. *)
Definition not_ok (o : http_outcome) : Prop :=
  match o with
  | NetError _ => True
  | NetResponse r => statusCode r <> 200%Z
  end.

(** From [w] to [w'] no failure is pending afterwards and the server is the
    same. *)
Definition calmly (w w' : World) : Prop :=
  pending w' = [] /\ remote w' = remote w.

(** A placeholder without default whose path leads to undefined or null. *)
Definition missing_secret (context : value) (m : expander_match) : bool :=
  bool_decide (defaultValue m = None)
  && match resolve_path (expression m) context with
     | Returns v => is_undefined v || is_null v
     | Throws => false
     end.

(** What [downloadFile] settles with when the answer is not a 200 response. *)
Definition refusal (url : string) (o : http_outcome) : settled DownloadResult :=
  match o with
  | NetError _ => Rejected (DownloadFailed url None)
  | NetResponse r =>
      if Z.eqb (statusCode r) 304 then Resolved NotModified
      else Rejected (DownloadFailed url (Some (statusCode r)))
  end.

(** The calls [downloadFile] makes when the answer is not a 200 response. *)
Definition refusal_calls (url : string) (headers : gmap string string)
    (o : http_outcome) : list event :=
  ELog Info "Downloading" :: EHttpGet url headers
    :: match o with
       | NetError _ => []
       | NetResponse _ => [ELog Info "Download response"]
       end.

(** The call returns a promise: it does not throw. *)
Definition returns_promise {A} (p : promise A) : Prop :=
  forall w e w', p w <> (Rejected (Thrown e), w').

(** A parse result of the documented type [LastUpdatesFile], when there is
    one: not a primitive, and with a [files] property that is absent or an
    object. *)
Definition documented (p : parsed) : Prop :=
  match p with
  | ParsedPrimitive _ => False
  | ParsedObject j =>
      match files j with
      | FilesPrimitive _ => False
      | _ => True
      end
  | _ => True
  end.


(** With no failure pending before a run of [p], none is pending after. *)
Definition quiet {A} (p : promise A) : Prop :=
  forall w, pending w = [] -> pending (snd (p w)) = [].

Section WithPlatform.
Context `{Platform}.



(** The paths the updater works on: the journal, the temp files it names,
    the tracked files and their two backup locations. *)
Definition managed (p : string) : Prop :=
  p = lastUpdatesFile autoUpdate
  \/ (exists n, p = configUpdater.temp_name n)
  \/ exists f, f ∈ cfg_files autoUpdate
       /\ (p = path f
           \/ p = path f +:+ ".previous"
           \/ p = configUpdater.fallback_backup (path f +:+ ".previous")).

End WithPlatform.

End Notions.

(** ** A concrete platform, for running the model *)

Module Demo.
Import JS.

Fixpoint last_segment (acc s : string) : string :=
  match s with
  | EmptyString => acc
  | String c rest =>
      if Ascii.eqb c "/"%char then last_segment "" rest
      else last_segment (acc +:+ String c "") rest
  end.

Definition basename (p : string) : string := last_segment "" p.

Definition dirname (p : string) : string :=
  String.substring 0 (String.length p - String.length (basename p) - 1) p.

Definition tracked : AutoUpdateFile :=
  {| url := "https://${site}/f.json"; path := "/cfg/f.json";
     always := false; isJSON := true |}.

(** A stand-in for [JSON.stringify] on journals: the entries are counted,
    not printed. *)
Definition stringify (j : LastUpdatesFile) : string :=
  "{" +:+ dquote +:+ "lastCheck" +:+ dquote +:+ ":"
  +:+ match lastCheck j with
      | Some t => dquote +:+ t +:+ dquote
      | None => "null"
      end
  +:+ "," +:+ dquote +:+ "files" +:+ dquote +:+ ":"
  +:+ match files j with
      | FilesMissing => "null"
      | FilesMap m => "{" +:+ pretty (size m) +:+ "}"
      | FilesPrimitive v => "5"
      end
  +:+ "}".

Definition header : string :=
  "// This file is automatically generated, and will be over-written."
  +:+ String "010"%char "".

Definition now : string := "2019-01-01T00:00:00.000Z".

(** A stand-in for [JSON5.parse]: it knows a few texts, among them what
    is saved for a journal without entries, and throws on the rest. *)
Definition parse (s : string) : parsed :=
  if String.eqb s "5" then ParsedPrimitive (VNum false "5")
  else if String.eqb s "null" then ParsedFalsy
  else if String.eqb s "{}"
  then ParsedObject {| lastCheck := None; files := FilesMissing |}
  else if String.eqb s "{files:5}"
  then ParsedObject {| lastCheck := None;
                       files := FilesPrimitive (VNum false "5") |}
  else if String.eqb s
            (header +:+ stringify {| lastCheck := Some now;
                                     files := FilesMap ∅ |})
  then ParsedObject {| lastCheck := Some now; files := FilesMap ∅ |}
  else ParseThrows.

Definition platform : Platform :=
  {| path_join := join_with "/";
     path_basename := basename;
     path_dirname := dirname;
     os_tmpdir := "/tmp";
     env_ProgramData := "/ProgramData";
     random_text := fun n => "0." +:+ pretty n;
     digest := fun algorithm content => algorithm +:+ ":" +:+ content;
     JSON_parses := String.prefix "{";
     JSON5_parses := String.prefix "//";
     JSON5_parse := parse;
     JSON_stringify := stringify;
     now_ISOString := now;
     getSecrets := VObj [("site", VStr "example.org")];
     autoUpdate := {| enabled := true;
                      lastUpdatesFile := "/data/last-updates.json5";
                      cfg_files := [tracked] |} |}.

(** A server that answers every request with the same response. *)
Definition serve (r : response) : string -> gmap string string -> http_outcome :=
  fun _ _ => NetResponse r.

Definition ok_response (etag : option string) (content : string) : response :=
  {| statusCode := 200; statusMessage := "OK"; header_etag := etag;
     header_last_modified := Some "Thu, 01 Jan 1970 00:00:00 GMT";
     body := content |}.

Definition world (files : gmap string string) (faults : list outcome)
    (server : string -> gmap string string -> http_outcome) : World :=
  {| fs := files; pending := faults; rng := 0; remote := server; trace := [] |}.

Definition unreachable : string -> gmap string string -> http_outcome :=
  fun _ _ => NetError "ENOTFOUND".

(** An installed file and a freshly downloaded one. *)
Definition installed : gmap string string :=
  {[ "/cfg/f.json" := "{old}"; "/tmp/new" := "{new}" ]}.

(** The backup is renamed into place, then the copy of the new file breaks
    off half way. *)
Definition broken_copy : World :=
  world installed [Succeeds; Succeeds; Succeeds; FailsLeaving "{n"] unreachable.

(** The primary backup location cannot be written at all. *)
Definition readonly_directory : World :=
  world installed [Succeeds; Fails; Succeeds; Fails] unreachable.

(** A server whose resource carries the strong validator "abc", quoted. *)
Definition quoted_response : response :=
  ok_response (Some (dquote +:+ "abc" +:+ dquote)) "{}".

Definition online : World := world ∅ [] (serve quoted_response).

(** The tracked file is installed with the content the server has. *)
Definition unchanged_remote : World :=
  world {[ "/cfg/f.json" := "{}" ]} [] (serve quoted_response).

(** The journal entry of an earlier update. *)
Definition earlier : LastUpdate :=
  {| etag := Some "xyz"; date := Some "Wed, 31 Dec 1969 00:00:00 GMT";
     previous := None |}.

(** The tracked file was deleted, the journal still has its entry. *)
Definition deleted_locally : World := world ∅ [] (serve quoted_response).

(** The stages of updating [tracked] in [unchanged_remote]. *)
Definition after_hash : World :=
  snd (@configUpdater.hashPromise platform tracked true (tick_rng unchanged_remote)).

Definition conditional : option DownloadOptions :=
  Some {| opt_date := date earlier; opt_etag := etag earlier;
          opt_hashAlgorithm := None |}.

Definition after_download : World :=
  snd (@configUpdater.downloadPromise platform tracked earlier
         "https://example.org/f.json" "/tmp/morphic-update.0.0"
         conditional after_hash).

Definition refreshed : LastUpdate :=
  {| etag := Some "abc"; date := Some "Thu, 01 Jan 1970 00:00:00 GMT";
     previous := None |}.

(** The journal file holds text that does not parse. *)
Definition corrupt_journal : World :=
  world {[ "/data/last-updates.json5" := "{files:" ]} [] unreachable.


(** The world [applyUpdate] leaves when it installs [/tmp/new] over
    [/cfg/f.json]. *)
Definition after_applyUpdate (w : World) : World :=
  snd (@configUpdater.applyUpdate platform "/tmp/new" "/cfg/f.json" w).

(** A server that answers 304 to everything. *)
Definition not_modified : response :=
  {| statusCode := 304; statusMessage := "Not Modified"; header_etag := None;
     header_last_modified := None; body := "" |}.

Definition up_to_date : World :=
  world {[ "/cfg/f.json" := "{}" ]} [] (serve not_modified).

(** An installed file and a download, nothing failing. *)
Definition ready_to_install : World := world installed [] unreachable.

(** A tracked file whose url needs a secret that is not there. *)
Definition without_secret : AutoUpdateFile :=
  {| url := "https://${host}/g.json"; path := "/cfg/g.json";
     always := false; isJSON := false |}.

(** A server that answers with a page instead of the file. *)
Definition captive_portal : World :=
  world {[ "/cfg/f.json" := "{}" ]} [] (serve (ok_response None "<html>")).

(** A server that has a newer version of the tracked file. *)
Definition new_version : response :=
  ok_response (Some (dquote +:+ "v2" +:+ dquote)) "{new}".

Definition outdated : World :=
  world {[ "/cfg/f.json" := "{old}" ]} [] (serve new_version).

(** The installed file is what the server has, but hashing it fails. *)
Definition unreadable : World :=
  world {[ "/cfg/f.json" := "{}" ]} [Fails] (serve quoted_response).

(** Nothing is installed and the temp directory cannot be written. *)
Definition full_disk : World := world ∅ [Fails] (serve quoted_response).

(** A journal saved by an earlier run. *)
Definition saved_journal : World :=
  world {[ "/data/last-updates.json5"
           := header +:+ stringify {| lastCheck := Some now;
                                      files := FilesMap ∅ |} ]}
    [] unreachable.

(** What that journal reads as. *)
Definition without_entries : LastUpdatesFile :=
  {| lastCheck := Some now; files := FilesMap ∅ |}.


(** Secrets in which an own [hasOwnProperty] hides the method. *)
Definition shadowing_secrets : value :=
  VObj [("hasOwnProperty", VNum false "1"); ("site", VStr "example.org")].

End Demo.

(** * Properties *)

(** ** Template expander *)

Module ExpanderProofs.
Import JS Expander ExpanderSpec.

Lemma span_until_rest_length stop s :
  String.length (snd (span_until stop s)) <= String.length s.
Proof.
  induction s as [|c s IH]; simpl; [lia|].
  destruct (stop c); simpl; [lia|].
  destruct (span_until stop s) as [taken remaining]; simpl in *. lia.
Qed.

Lemma append_cons c s t : String c s +:+ t = String c (s +:+ t).
Proof. reflexivity. Qed.

Lemma append_nil s : "" +:+ s = s.
Proof. reflexivity. Qed.

Lemma append_assoc s t u : (s +:+ t) +:+ u = s +:+ (t +:+ u).
Proof.
  induction s as [|c s IH]; [done|].
  by rewrite !append_cons, IH.
Qed.

Lemma span_until_append stop s :
  fst (span_until stop s) +:+ snd (span_until stop s) = s.
Proof.
  induction s as [|c s IH]; simpl; [done|].
  destruct (stop c); simpl; [done|].
  destruct (span_until stop s) as [taken remaining]; simpl in *.
  by rewrite append_cons, IH.
Qed.

Lemma match_here_shorter s m rest :
  match_here s = Some (m, rest) -> String.length rest < String.length s.
Proof.
  unfold match_here.
  destruct s as [|c0 [|c1 body]]; try (repeat case_match; discriminate).
  pose proof (span_until_rest_length is_query_or_close body) as H1.
  destruct (span_until is_query_or_close body) as [e after] eqn:E1.
  simpl in H1. intros Hm.
  repeat case_match; try discriminate; simplify_eq; simpl in *; try lia.
  match goal with
  | E : span_until is_close ?t = (_, _) |- _ =>
      pose proof (span_until_rest_length is_close t) as H2; rewrite E in H2
  end.
  simpl in H2. lia.
Qed.

(** The scan never runs out of fuel: [segments] is total. *)
Lemma scan_total fuel s :
  String.length s < fuel -> is_Some (scan fuel s).
Proof.
  revert s. induction fuel as [|fuel IH]; intros s Hlt; [lia|].
  simpl. destruct s as [|c rest]; [by eexists|].
  destruct (match_here (String c rest)) as [[m rest']|] eqn:E.
  - apply match_here_shorter in E. simpl in E, Hlt.
    apply fmap_is_Some, IH. lia.
  - simpl in Hlt. apply fmap_is_Some, IH. lia.
Qed.

Lemma match_here_text s m rest :
  match_here s = Some (m, rest) -> segment_text (Hole m) +:+ rest = s.
Proof.
  unfold match_here.
  destruct s as [|c0 [|c1 body]]; try (repeat case_match; discriminate).
  pose proof (span_until_append is_query_or_close body) as H1.
  destruct (span_until is_query_or_close body) as [e after] eqn:E1.
  simpl in H1. intros Hm.
  repeat case_match; try discriminate; simplify_eq; simpl;
    repeat match goal with
    | E : span_until is_close ?t = (_, _) |- _ =>
        let H2 := fresh in
        pose proof (span_until_append is_close t) as H2;
        rewrite E in H2; simpl in H2; clear E; subst
    end;
    rewrite ?append_assoc; reflexivity.
Qed.

Lemma scan_unparse fuel s segs :
  scan fuel s = Some segs -> unparse segs = s.
Proof.
  revert s segs. induction fuel as [|fuel IH]; intros s segs; [done|].
  simpl. destruct s as [|c rest]; [by intros [= <-]|].
  destruct (match_here (String c rest)) as [[m rest']|] eqn:E.
  - destruct (scan fuel rest') as [tl|] eqn:Etl; [|done].
    intros [= <-]. simpl. fold (unparse tl).
    rewrite (IH _ _ Etl). change (segment_text (Hole m) +:+ rest' = String c rest).
    by apply match_here_text.
  - destruct (scan fuel rest) as [tl|] eqn:Etl; [|done].
    intros [= <-]. simpl. fold (unparse tl). by rewrite (IH _ _ Etl).
Qed.

(** The segments of a template spell the template: nothing is lost or
    invented by the scan. *)
Lemma segments_unparse s : unparse (segments s) = s.
Proof.
  unfold segments.
  destruct (scan_total (S (String.length s)) s) as [segs E]; [lia|].
  rewrite E. simpl. by apply scan_unparse in E.
Qed.

(** Where the lookup of the code returns, it returns the looked-up value. *)
Lemma reduce_returns properties parent v :
  reduce properties parent = Returns v ->
  fold_left
    (fun parent property =>
       if truthy parent then default VUndefined (own_property parent property)
       else VUndefined) properties parent = v.
Proof.
  revert parent. induction properties as [|p rest IH]; intros parent; simpl.
  - by intros [= ->].
  - unfold descend.
    destruct (truthy parent); [|apply IH].
    destruct (shadows "hasOwnProperty" parent); [done|].
    destruct (own_property parent p); apply IH.
Qed.

Lemma resolve_path_lookup expression context v :
  resolve_path expression context = Returns v -> lookup expression context = v.
Proof. apply reduce_returns. Qed.

Lemma assoc_unshadowed property fields v :
  forallb (fun kv => match kv with (_, x) => unshadowed x end) fields = true ->
  assoc property fields = Some v -> unshadowed v = true.
Proof.
  induction fields as [|[k x] fields IH]; [done|]. simpl.
  intros [Hx Hall]%andb_true_iff.
  destruct (String.eqb property k); [by intros [= <-]|by apply IH].
Qed.

Lemma descend_unshadowed parent property :
  unshadowed parent = true ->
  exists v, descend parent property = Returns v /\ unshadowed v = true.
Proof.
  intros Hu. unfold descend.
  destruct (truthy parent); [|by exists VUndefined].
  destruct parent as [| |b|falsy text|str|fields|items]; simpl;
    try (by exists VUndefined).
  - destruct (String.eqb property "length"); [by eexists|].
    destruct (index_of property (String.length str)) as [i|];
      [|by exists VUndefined].
    unfold char_at. destruct (String.get i str); by eexists.
  - simpl in Hu. apply andb_true_iff in Hu as [Hs Hall].
    apply negb_true_iff in Hs. rewrite Hs.
    destruct (assoc property fields) as [v|] eqn:Hv; [|by exists VUndefined].
    exists v. split; [done|]. by apply (assoc_unshadowed property fields).
  - simpl in Hu.
    destruct (String.eqb property "length"); [by eexists|].
    destruct (index_of property (length items)) as [i|];
      [|by exists VUndefined].
    destruct (items !! i) as [v|] eqn:Hv; [|by exists VUndefined].
    exists v. split; [done|].
    apply list_elem_of_lookup_2 in Hv.
    by apply (proj1 (forallb_forall unshadowed items) Hu), list_elem_of_In.
Qed.

Lemma reduce_unshadowed properties parent :
  unshadowed parent = true -> exists v, reduce properties parent = Returns v.
Proof.
  revert parent. induction properties as [|p rest IH]; intros parent Hu; simpl.
  - by exists parent.
  - destruct (descend_unshadowed parent p Hu) as (v & -> & Hv). simpl.
    by apply IH.
Qed.

(** Without an own [hasOwnProperty] anywhere in the context, no lookup
    throws. *)
Lemma unshadowed_lookups context segs :
  unshadowed context = true ->
  Forall (fun m => lookup_throws context m = false) (holes segs).
Proof.
  intros Hu. apply Forall_forall. intros m _.
  unfold lookup_throws, resolve_path.
  by destruct (reduce_unshadowed (split_dot (expression m)) context Hu)
    as [v ->].
Qed.

(** One placeholder: the replacer follows the rule unless the path leads to
    an object or array and no default was given. *)
Lemma substitute_by_rule context alwaysExpand unresolved m v :
  lookup (expression m) context = v ->
  bare_composite context m = false ->
  ToString (fst (substitute alwaysExpand unresolved m v))
  = Returns (placeholder_text context m)
  /\ snd (substitute alwaysExpand unresolved m v)
     = unresolved || (negb alwaysExpand && falls_through context m).
Proof.
  unfold bare_composite, substitute, placeholder_text, falls_through,
    defaultGroup.
  intros <-.
  destruct (lookup (expression m) context) as [| |[]|falsy text|str|fields|items]
    eqn:Ev;
    destruct (defaultValue m) as [d|] eqn:Ed; simpl; intros Hb;
    try discriminate;
    destruct alwaysExpand, unresolved; simpl; auto.
Qed.

Lemma replace_all_by_rule context alwaysExpand segs unresolved :
  Forall (fun m => bare_composite context m = false) (holes segs) ->
  Forall (fun m => lookup_throws context m = false) (holes segs) ->
  replace_all context alwaysExpand segs unresolved
  = Returns
      (render context segs,
       unresolved
       || (negb alwaysExpand && existsb (falls_through context) (holes segs))).
Proof.
  revert unresolved. induction segs as [|[c|m] segs IH]; intros u Hall Hno.
  - simpl. by rewrite andb_false_r, orb_false_r.
  - simpl in *. by rewrite (IH u Hall Hno).
  - simpl in *. apply Forall_cons in Hall as [Hm Hall].
    apply Forall_cons in Hno as [Hq Hno].
    unfold replacer. unfold lookup_throws in Hq.
    destruct (resolve_path (expression m) context) as [|v] eqn:Hv; [done|].
    apply resolve_path_lookup in Hv. simpl.
    destruct (substitute_by_rule context alwaysExpand u m v Hv Hm) as [Ht Hu].
    destruct (substitute alwaysExpand u m v) as [v' u1]. simpl in Ht, Hu.
    rewrite Ht. simpl. rewrite (IH _ Hall Hno). simpl. subst u1. f_equal.
    f_equal. destruct u, alwaysExpand, (falls_through context m); simpl; auto.
Qed.

(** A lookup that throws makes the whole replacement throw. *)
Lemma replace_all_throws context alwaysExpand segs unresolved :
  Exists (fun m => lookup_throws context m = true) (holes segs) ->
  replace_all context alwaysExpand segs unresolved = Throws.
Proof.
  revert unresolved. induction segs as [|[c|m] segs IH]; intros u; simpl.
  - by intros ?%Exists_nil.
  - intros Hex. by rewrite (IH u Hex).
  - intros [Hm|Hex]%Exists_cons.
    + unfold replacer. unfold lookup_throws in Hm.
      by destruct (resolve_path (expression m) context).
    + destruct (replacer context alwaysExpand u m) as [|[v u1]]; [done|].
      simpl. destruct (ToString v); [done|]. simpl. by rewrite (IH u1 Hex).
Qed.

(** C3 (as stated, refuted): with the template [${a?}] and an empty
    context the default form is given and its default is empty, so the
    placeholder ends up empty and the rule as stated yields null with
    [alwaysExpand] false; the code returns the empty string. *)
Lemma expand_empty_default_is_not_null :
  existsb (ends_up_empty (VObj [])) (holes (segments "${a?}")) = true
  /\ expand_as_stated "${a?}" (VObj []) false = None
  /\ expand "${a?}" (VObj []) false = Returns (Some "").
Proof. by vm_compute. Qed.

(** C3 (amended): for every template and context in which no placeholder
    without default leads to an object or array: when no placeholder's
    lookup meets an object with an own property named [hasOwnProperty]
    (in particular when the context has no such object), [expand] replaces
    each placeholder independently by the looked-up value if it is a
    defined scalar, else by the default if given, else by the empty
    string, and returns null exactly when [alwaysExpand] is false and some
    placeholder has neither a defined scalar value nor a default; when
    some lookup does meet such an object, [expand] throws. The four
    documented examples hold. *)
Theorem expand_follows_rule :
  (forall template context alwaysExpand,
      Forall (fun m => bare_composite context m = false)
             (holes (segments template)) ->
      (Forall (fun m => lookup_throws context m = false)
              (holes (segments template)) ->
       expand template context alwaysExpand
       = Returns (expand_by_rule template context alwaysExpand))
      /\ (unshadowed context = true ->
          expand template context alwaysExpand
          = Returns (expand_by_rule template context alwaysExpand)))
  /\ (forall template context alwaysExpand,
        Exists (fun m => lookup_throws context m = true)
               (holes (segments template)) ->
        expand template context alwaysExpand = Throws)
  /\ expand "${a.b.c}" example_context false = Returns (Some "result")
  /\ expand "${a.x?no}" example_context false = Returns (Some "no")
  /\ expand "${missing}" (VObj []) false = Returns None
  /\ expand "${missing}" (VObj []) true = Returns (Some "")
  /\ expand "${a}" shadowing_context false = Throws.
Proof.
  assert (Hrule : forall template context alwaysExpand,
             Forall (fun m => bare_composite context m = false)
                    (holes (segments template)) ->
             Forall (fun m => lookup_throws context m = false)
                    (holes (segments template)) ->
             expand template context alwaysExpand
             = Returns (expand_by_rule template context alwaysExpand)).
  { intros template context alwaysExpand Hall Hno.
    unfold expand, expand_by_rule.
    rewrite (replace_all_by_rule _ _ _ _ Hall Hno). simpl.
    by destruct (negb alwaysExpand && _). }
  split; [|split; [|by vm_compute]].
  - intros template context alwaysExpand Hall. split.
    + by apply Hrule.
    + intros Hu. apply Hrule; [done|]. by apply unshadowed_lookups.
  - intros template context alwaysExpand Hex. unfold expand.
    by rewrite (replace_all_throws _ _ _ _ Hex).
Qed.

Lemma expand_follows_rule_witness :
  Forall (fun m => bare_composite example_context m = false)
         (holes (segments "x=${a.b.c}&y=${a.x?no}"))
  /\ expand "x=${a.b.c}&y=${a.x?no}" example_context false
     = Returns (Some "x=result&y=no").
Proof.
  assert (Hall : Forall (fun m => bare_composite example_context m = false)
                        (holes (segments "x=${a.b.c}&y=${a.x?no}"))).
  { vm_compute. repeat constructor. }
  split; [exact Hall|].
  rewrite (proj2 (proj1 expand_follows_rule _ _ _ Hall) eq_refl).
  by vm_compute.
Defined.

End ExpanderProofs.

(** ** The environment: what a computation can touch *)

Module EnvProofs.
Import Fs.
Export Observe Reading.

Lemma within_refl touch allowed w : within touch allowed w w.
Proof.
  constructor; try done. exists []. by rewrite app_nil_r.
Qed.

Lemma within_trans touch allowed w1 w2 w3 :
  within touch allowed w1 w2 -> within touch allowed w2 w3 ->
  within touch allowed w1 w3.
Proof.
  intros [F1 [d1 [T1 A1]] R1] [F2 [d2 [T2 A2]] R2].
  constructor.
  - intros p Hp. by rewrite F2, F1.
  - exists (d1 ++ d2). split; [by rewrite T2, T1, app_assoc|].
    by apply Forall_app.
  - congruence.
Qed.

Lemma within_since touch allowed w w' :
  within touch allowed w w' ->
  trace w' = trace w ++ since w w' /\ Forall allowed (since w w').
Proof.
  intros [_ (d & Hd & Hall) _]. unfold since.
  by rewrite Hd, drop_app_length.
Qed.

Lemma within_nothing allowed w w' :
  within (fun _ => False) allowed w w' -> fs w' = fs w.
Proof. intros [F _ _]. apply map_eq. intros p. apply F. tauto. Qed.

Lemma within_mono (touch touch' : string -> Prop) (allowed allowed' : event -> Prop) w w' :
  (forall p, touch p -> touch' p) -> (forall e, allowed e -> allowed' e) ->
  within touch allowed w w' -> within touch' allowed' w w'.
Proof.
  intros Ht Ha [F [d [T A]] R]. constructor; try done.
  - intros p Hp. apply F. naive_solver.
  - exists d. split; [done|]. eapply Forall_impl; eauto.
Qed.

Lemma keeps_mono {A} (touch touch' : string -> Prop)
    (allowed allowed' : event -> Prop) (p : promise A) :
  (forall q, touch q -> touch' q) -> (forall e, allowed e -> allowed' e) ->
  keeps touch allowed p -> keeps touch' allowed' p.
Proof. intros Ht Ha Hp w. eapply within_mono; eauto. Qed.

Section Combinators.
Context (touch : string -> Prop) (allowed : event -> Prop).

Lemma keeps_resolve {A} (a : A) : keeps touch allowed (resolve a).
Proof. intros w. apply within_refl. Qed.

Lemma keeps_reject {A} e : keeps touch allowed (@reject A e).
Proof. intros w. apply within_refl. Qed.

Lemma keeps_and_then {A B} (p : promise A) (k : A -> promise B) :
  keeps touch allowed p -> (forall a, keeps touch allowed (k a)) ->
  keeps touch allowed (and_then p k).
Proof.
  intros Hp Hk w. unfold and_then. specialize (Hp w).
  destruct (p w) as [[a|e] w1]; simpl in *; [|done].
  eapply within_trans; [done|apply Hk].
Qed.

Lemma keeps_bind {A B} (p : promise A) (k : A -> promise B) :
  keeps touch allowed p -> (forall a, keeps touch allowed (k a)) ->
  keeps touch allowed (p ≫= k).
Proof. apply keeps_and_then. Qed.

Lemma keeps_catch {A} (p : promise A) (h : error -> promise A) :
  keeps touch allowed p -> (forall e, keeps touch allowed (h e)) ->
  keeps touch allowed (catch p h).
Proof.
  intros Hp Hh w. unfold catch. specialize (Hp w).
  destruct (p w) as [[a|e] w1]; simpl in *; [done|].
  eapply within_trans; [done|apply Hh].
Qed.

Lemma keeps_then_else {A B} (p : promise A) (k : A -> promise B)
    (h : error -> promise B) :
  keeps touch allowed p -> (forall a, keeps touch allowed (k a)) ->
  (forall e, keeps touch allowed (h e)) ->
  keeps touch allowed (then_else p k h).
Proof.
  intros Hp Hk Hh w. unfold then_else. specialize (Hp w).
  destruct (p w) as [[a|e] w1]; simpl in *;
    (eapply within_trans; [done|]); [apply Hk|apply Hh].
Qed.

Lemma keeps_emit e : allowed e -> keeps touch allowed (emit e).
Proof.
  intros He w. constructor; simpl; try done.
  exists [e]. split; [done|]. by constructor.
Qed.

Lemma keeps_log l message :
  allowed (ELog l message) -> keeps touch allowed (log l message).
Proof. apply keeps_emit. Qed.

End Combinators.

Lemma next_outcome_same w o w1 :
  next_outcome w = (o, w1) ->
  fs w1 = fs w /\ trace w1 = trace w /\ remote w1 = remote w /\ rng w1 = rng w.
Proof.
  unfold next_outcome. destruct (pending w); intros [= <- <-]; done.
Qed.

(** One call to the operating system: the event it records, the paths it
    may write. *)
Ltac system_call :=
  let w := fresh "w" in
  let w1 := fresh "w" in
  let o := fresh "o" in
  let E := fresh "E" in
  let F := fresh "F" in
  let T := fresh "T" in
  let R := fresh "R" in
  let N := fresh "N" in
  intros w;
  destruct (next_outcome _) as [o w1] eqn:E;
  apply next_outcome_same in E as (F & T & R & N); simpl in F, T, R, N;
  repeat case_match; simplify_eq;
  (constructor; simpl; rewrite ?F, ?T, ?R, ?N;
   [ let q := fresh "q" in
     let Hq := fresh "Hq" in
     intros q Hq;
     rewrite ?lookup_insert_ne, ?lookup_delete_ne by naive_solver; done
   | eexists; split; [reflexivity|]; repeat constructor
   | done ]).

Lemma keeps_rename source destination :
  keeps (fun p => p = source \/ p = destination)
        (fun e => e = ERename source destination)
        (rename source destination).
Proof. unfold rename. system_call. Qed.

Lemma keeps_copyFile source destination :
  keeps (fun p => p = destination)
        (fun e => e = ECopyFile source destination)
        (copyFile source destination).
Proof. unfold copyFile. system_call. Qed.

Lemma keeps_unlinkSync path :
  keeps (fun p => p = path) (fun e => e = EUnlink path) (unlinkSync path).
Proof. unfold unlinkSync. system_call. Qed.

Lemma keeps_ensure_directory destDir :
  keeps (fun _ => False) (fun e => e = EMkdirp destDir) (ensure_directory destDir).
Proof. unfold ensure_directory. system_call. Qed.

Lemma keeps_readFile path :
  keeps (fun _ => False) (fun e => e = EReadFile path) (readFile path).
Proof. unfold readFile. system_call. Qed.

Lemma keeps_writeFile path content :
  keeps (fun p => p = path) (fun e => e = EWriteFile path content)
        (writeFile path content).
Proof. unfold writeFile. system_call. Qed.

Lemma keeps_writeStream path content :
  keeps (fun p => p = path) (fun e => e = ECreateWriteStream path)
        (writeStream path content).
Proof. unfold writeStream. system_call. Qed.

Lemma keeps_readStream path :
  keeps (fun _ => False) (fun e => e = ECreateReadStream path) (readStream path).
Proof. unfold readStream. system_call. Qed.

(** The same, against any bound that admits the call. *)
Section Bounded.
Context (touch : string -> Prop) (allowed : event -> Prop).

Lemma rename_within source destination :
  touch source -> touch destination -> allowed (ERename source destination) ->
  keeps touch allowed (rename source destination).
Proof.
  intros. eapply keeps_mono; [| |apply keeps_rename]; simpl;
    intuition (subst; auto).
Qed.

Lemma copyFile_within source destination :
  touch destination -> allowed (ECopyFile source destination) ->
  keeps touch allowed (copyFile source destination).
Proof.
  intros. eapply keeps_mono; [| |apply keeps_copyFile]; simpl;
    intuition (subst; auto).
Qed.

Lemma unlinkSync_within path :
  touch path -> allowed (EUnlink path) ->
  keeps touch allowed (unlinkSync path).
Proof.
  intros. eapply keeps_mono; [| |apply keeps_unlinkSync]; simpl;
    intuition (subst; auto).
Qed.

Lemma ensure_directory_within destDir :
  allowed (EMkdirp destDir) -> keeps touch allowed (ensure_directory destDir).
Proof.
  intros. eapply keeps_mono; [| |apply keeps_ensure_directory]; simpl;
    intuition (subst; auto).
Qed.

Lemma readFile_within path :
  allowed (EReadFile path) -> keeps touch allowed (readFile path).
Proof.
  intros. eapply keeps_mono; [| |apply keeps_readFile]; simpl;
    intuition (subst; auto).
Qed.

Lemma writeFile_within path content :
  touch path -> allowed (EWriteFile path content) ->
  keeps touch allowed (writeFile path content).
Proof.
  intros. eapply keeps_mono; [| |apply keeps_writeFile]; simpl;
    intuition (subst; auto).
Qed.

Lemma writeStream_within path content :
  touch path -> allowed (ECreateWriteStream path) ->
  keeps touch allowed (writeStream path content).
Proof.
  intros. eapply keeps_mono; [| |apply keeps_writeStream]; simpl;
    intuition (subst; auto).
Qed.

Lemma readStream_within path :
  allowed (ECreateReadStream path) -> keeps touch allowed (readStream path).
Proof.
  intros. eapply keeps_mono; [| |apply keeps_readStream]; simpl;
    intuition (subst; auto).
Qed.

End Bounded.

Ltac keeps_step :=
  first
    [ apply keeps_resolve
    | apply keeps_reject
    | apply keeps_log
    | apply keeps_emit
    | apply rename_within
    | apply copyFile_within
    | apply unlinkSync_within
    | apply ensure_directory_within
    | apply readFile_within
    | apply writeFile_within
    | apply writeStream_within
    | apply readStream_within
    | apply keeps_bind; [|intros ?]
    | apply keeps_then_else; [|intros ?|intros ?]
    | apply keeps_catch; [|intros ?] ].

Ltac keeps_auto := repeat keeps_step; simpl; auto.

End EnvProofs.

(** ** Commit procedure *)

Module CommitProofs.
Import Fs EnvProofs configUpdater.

Lemma bind_run {A B} (p : promise A) (k : A -> promise B) w :
  (p ≫= k) w = match p w with
               | (Resolved a, w') => k a w'
               | (Rejected e, w') => (Rejected e, w')
               end.
Proof. reflexivity. Qed.

Lemma previous_is_another_path (destination : string) :
  destination +:+ ".previous" <> destination.
Proof.
  intros Heq. apply (f_equal String.length) in Heq.
  revert Heq. induction destination as [|c d IH]; simpl; [done|].
  intros [= Heq]. by apply IH.
Qed.

Lemma rename_resolved source destination w w' :
  rename source destination w = (Resolved tt, w') ->
  exists content, fs w !! source = Some content
    /\ fs w' = <[destination := content]> (delete source (fs w)).
Proof.
  unfold rename. destruct (next_outcome _) as [o w1] eqn:E.
  apply next_outcome_same in E as (F & _). simpl in F.
  repeat case_match; intros [= <-]; simpl. rewrite F in *. eauto.
Qed.

Lemma rename_rejected source destination w e w' :
  rename source destination w = (Rejected e, w') -> fs w' = fs w.
Proof.
  unfold rename. destruct (next_outcome _) as [o w1] eqn:E.
  apply next_outcome_same in E as (F & _). simpl in F.
  repeat case_match; intros [= <- <-]; done.
Qed.

Lemma copyFile_resolved source destination w w' :
  copyFile source destination w = (Resolved tt, w') ->
  exists content, fs w !! source = Some content
    /\ fs w' = <[destination := content]> (fs w).
Proof.
  unfold copyFile. destruct (next_outcome _) as [o w1] eqn:E.
  apply next_outcome_same in E as (F & _). simpl in F.
  repeat case_match; intros [= <-]; simpl. rewrite F in *. eauto.
Qed.

Lemma copyFile_rejected source destination w e w' :
  copyFile source destination w = (Rejected e, w') ->
  fs w' = fs w \/ exists partial, fs w' = <[destination := partial]> (fs w).
Proof.
  unfold copyFile. destruct (next_outcome _) as [o w1] eqn:E.
  apply next_outcome_same in E as (F & _). simpl in F.
  repeat case_match; intros [= <- <-]; simpl; rewrite ?F; eauto.
Qed.

Lemma ensure_directory_fs destDir w r w' :
  ensure_directory destDir w = (r, w') -> fs w' = fs w.
Proof.
  unfold ensure_directory. destruct (next_outcome _) as [o w1] eqn:E.
  apply next_outcome_same in E as (F & _). simpl in F.
  repeat case_match; intros [= <- <-]; done.
Qed.

Lemma unlinkSync_resolved path w w' :
  unlinkSync path w = (Resolved tt, w') -> fs w' = delete path (fs w).
Proof.
  unfold unlinkSync. destruct (next_outcome _) as [o w1] eqn:E.
  apply next_outcome_same in E as (F & _). simpl in F.
  repeat case_match; intros [= <-]; simpl. by rewrite F.
Qed.

Lemma unlinkSync_rejected path w e w' :
  unlinkSync path w = (Rejected e, w') -> fs w' = fs w.
Proof.
  unfold unlinkSync. destruct (next_outcome _) as [o w1] eqn:E.
  apply next_outcome_same in E as (F & _). simpl in F.
  repeat case_match; intros [= <- <-]; done.
Qed.

Section WithPlatform.
Context `{Platform}.

Lemma keeps_moveFile_copy (touch : string -> Prop) (allowed : event -> Prop)
    source destination :
  touch destination -> (forall e, commit_event e = true -> allowed e) ->
  keeps touch allowed (moveFile_copy source destination).
Proof. intros. unfold moveFile_copy. keeps_auto. Qed.

Lemma keeps_moveFile (touch : string -> Prop) (allowed : event -> Prop)
    source destination copy :
  touch source -> touch destination ->
  (forall e, commit_event e = true -> allowed e) ->
  keeps touch allowed (moveFile source destination copy).
Proof.
  intros. unfold moveFile. destruct copy; [by apply keeps_moveFile_copy|].
  keeps_auto; by apply keeps_moveFile_copy.
Qed.

(** [applyUpdate] writes at the destination, the temp file and the two
    backup paths, and nowhere else. *)
Lemma keeps_applyUpdate (touch : string -> Prop) (allowed : event -> Prop)
    source destination :
  touch source -> touch destination ->
  touch (destination +:+ ".previous") ->
  touch (fallback_backup (destination +:+ ".previous")) ->
  (forall e, commit_event e = true -> allowed e) ->
  keeps touch allowed (applyUpdate source destination).
Proof.
  intros ? ? ? ? ? w. unfold applyUpdate.
  assert (forall b, keeps touch allowed (backupPromise destination b)) as Hb.
  { intros [|]; unfold backupPromise; keeps_auto; by apply keeps_moveFile. }
  assert (keeps touch allowed (moveFile source destination true)) as Hm
    by (by apply keeps_moveFile).
  revert w. change (keeps touch allowed
    (fun w => (backupPromise destination (existsSync destination w) ≫=
       (fun backupPath => moveFile source destination true ;;
                          unlinkSync source ;; resolve backupPath)) w)).
  intros w.
  generalize (existsSync destination w). intros b. revert w.
  change (keeps touch allowed
    (backupPromise destination b ≫=
       (fun backupPath => moveFile source destination true ;;
                          unlinkSync source ;; resolve backupPath))).
  apply keeps_bind; [done|]. intros bp.
  apply keeps_bind; [done|]. intros _. keeps_auto.
Qed.

(** A copy that completes leaves the source where it was. *)
Lemma moveFile_copy_resolved source destination w b w' :
  moveFile_copy source destination w = (Resolved b, w') ->
  b = true /\ exists content, fs w !! source = Some content
    /\ fs w' = <[destination := content]> (fs w).
Proof.
  unfold moveFile_copy. rewrite bind_run.
  destruct (ensure_directory _ w) as [[[]|e] w1] eqn:E1; [|done].
  apply ensure_directory_fs in E1. unfold then_else.
  destruct (copyFile _ _ w1) as [[[]|e] w2] eqn:E2; [|done].
  apply copyFile_resolved in E2 as (c & Hc & Hfs).
  intros [= <- <-]. rewrite E1 in *. eauto.
Qed.

(** A copy that fails can only have written at the destination. *)
Lemma moveFile_copy_rejected source destination w e w' :
  moveFile_copy source destination w = (Rejected e, w') ->
  fs w' = fs w \/ exists partial, fs w' = <[destination := partial]> (fs w).
Proof.
  unfold moveFile_copy. rewrite bind_run.
  destruct (ensure_directory _ w) as [[[]|e1] w1] eqn:E1;
    apply ensure_directory_fs in E1.
  - unfold then_else.
    destruct (copyFile _ _ w1) as [[[]|e2] w2] eqn:E2; [done|].
    apply copyFile_rejected in E2. intros [= <- <-]. by rewrite <- E1.
  - intros [= <- <-]. by left.
Qed.

(** [moveFile] resolves with [false] after a rename and with [true] after a
    copy; either way the destination holds the source's content. *)
Lemma moveFile_resolved source destination copy w b w' :
  moveFile source destination copy w = (Resolved b, w') ->
  exists content, fs w !! source = Some content
    /\ ((b = false /\ fs w' = <[destination := content]> (delete source (fs w)))
        \/ (b = true /\ fs w' = <[destination := content]> (fs w))).
Proof.
  unfold moveFile. destruct copy.
  - intros Hc. apply moveFile_copy_resolved in Hc as (-> & c & ? & ?). eauto.
  - rewrite bind_run.
    destruct (ensure_directory _ w) as [[[]|e] w1] eqn:E1; [|done].
    apply ensure_directory_fs in E1. unfold then_else.
    destruct (rename _ _ w1) as [[[]|e] w2] eqn:E2.
    + apply rename_resolved in E2 as (c & Hc & Hfs).
      intros [= <- <-]. rewrite E1 in *. eauto.
    + apply rename_rejected in E2. intros Hc.
      apply moveFile_copy_resolved in Hc as (-> & c & ? & ?).
      rewrite E2, E1 in *. eauto.
Qed.

(** A failed [moveFile] leaves every path but its destination as it was:
    in particular the source. *)
Lemma moveFile_rejected source destination copy w e w' :
  moveFile source destination copy w = (Rejected e, w') ->
  forall p, p <> destination -> fs w' !! p = fs w !! p.
Proof.
  intros Hm p Hp.
  assert (fs w' = fs w \/ exists partial, fs w' = <[destination := partial]> (fs w))
    as [-> | [partial ->]]; [|done|by rewrite lookup_insert_ne].
  revert Hm. unfold moveFile. destruct copy.
  - apply moveFile_copy_rejected.
  - rewrite bind_run.
    destruct (ensure_directory _ w) as [[[]|e1] w1] eqn:E1;
      apply ensure_directory_fs in E1.
    + unfold then_else.
      destruct (rename _ _ w1) as [[[]|e2] w2] eqn:E2; [done|].
      apply rename_rejected in E2. intros Hc.
      apply moveFile_copy_rejected in Hc. by rewrite E2, E1 in Hc.
    + intros [= <- <-]. by left.
Qed.

(** The backup stage, when it completes: the old content sits at the
    backup path handed on, which is [destination + ".previous"] when the
    first relocation completed and the secondary location when it failed. *)
Lemma backup_resolved destination old w r w1 :
  fs w !! destination = Some old ->
  fallback_backup (destination +:+ ".previous") <> destination ->
  backupPromise destination true w = (Resolved r, w1) ->
  exists backupPath,
    r = Some backupPath
    /\ backupPath <> destination
    /\ fs w1 !! backupPath = Some old
    /\ ((backupPath = destination +:+ ".previous"
         /\ exists b wa, moveFile destination (destination +:+ ".previous") false w
                         = (Resolved b, wa))
        \/ (backupPath = fallback_backup (destination +:+ ".previous")
            /\ exists e wa, moveFile destination (destination +:+ ".previous") false w
                            = (Rejected e, wa)))
    /\ (forall p, p <> destination -> p <> destination +:+ ".previous" ->
                  p <> fallback_backup (destination +:+ ".previous") ->
                  fs w1 !! p = fs w !! p).
Proof.
  intros Hold Hfb. unfold backupPromise, catch. rewrite bind_run.
  pose proof (previous_is_another_path destination) as Hprev.
  destruct (moveFile destination _ false w) as [[b|e] wa] eqn:E1.
  - intros [= <- <-]. eexists. split; [done|]. split; [done|].
    apply moveFile_resolved in E1 as (c & Hc & Hfs).
    assert (c = old) as -> by congruence.
    split; [|split; [left; eauto|]].
    + destruct Hfs as [[_ ->]|[_ ->]]; by rewrite lookup_insert_eq.
    + intros p ? ? ?.
      destruct Hfs as [[_ ->]|[_ ->]];
        by rewrite lookup_insert_ne, ?lookup_delete_ne.
  - pose proof (moveFile_rejected _ _ _ _ _ _ E1) as Hframe.
    rewrite bind_run.
    destruct (moveFile destination _ false wa) as [[b|e2] wb] eqn:E2; [|done].
    intros [= <- <-]. eexists. split; [done|]. split; [done|].
    apply moveFile_resolved in E2 as (c & Hc & Hfs).
    rewrite Hframe in Hc by done.
    assert (c = old) as -> by congruence.
    split; [|split; [right; eauto|]].
    + destruct Hfs as [[_ ->]|[_ ->]]; by rewrite lookup_insert_eq.
    + intros p ? ? ?.
      destruct Hfs as [[_ ->]|[_ ->]];
        rewrite lookup_insert_ne, ?lookup_delete_ne by done; by apply Hframe.
Qed.

(** The backup stage, when both locations fail: the file is where it was. *)
Lemma backup_rejected destination w e w1 :
  fallback_backup (destination +:+ ".previous") <> destination ->
  backupPromise destination true w = (Rejected e, w1) ->
  fs w1 !! destination = fs w !! destination.
Proof.
  intros Hfb. unfold backupPromise, catch. rewrite bind_run.
  pose proof (previous_is_another_path destination) as Hprev.
  destruct (moveFile destination _ false w) as [[b|e1] wa] eqn:E1; [done|].
  pose proof (moveFile_rejected _ _ _ _ _ _ E1) as Hframe.
  rewrite bind_run.
  destruct (moveFile destination _ false wa) as [[b|e2] wb] eqn:E2; [done|].
  intros [= <- <-].
  rewrite (moveFile_rejected _ _ _ _ _ _ E2) by done. by apply Hframe.
Qed.

Lemma existsSync_true path w content :
  fs w !! path = Some content -> existsSync path w = true.
Proof. intros Hc. unfold existsSync. apply bool_decide_eq_true. eauto. Qed.

Lemma existsSync_false path w :
  fs w !! path = None -> existsSync path w = false.
Proof.
  intros Hc. unfold existsSync. apply bool_decide_eq_false.
  rewrite Hc. by intros [? ?].
Qed.

(** C2: whenever [applyUpdate] fails on a destination that existed, be it
    in the backup step, in the move into place or after it, the old file is
    still at the destination or at one of the two backup paths; it is never
    missing from all of them. The secondary backup location is taken to be
    a path other than the destination. *)
Theorem applyUpdate_failure_keeps_old_file source destination old w e w' :
  fs w !! destination = Some old ->
  fallback_backup (destination +:+ ".previous") <> destination ->
  applyUpdate source destination w = (Rejected e, w') ->
  fs w' !! destination = Some old
  \/ fs w' !! (destination +:+ ".previous") = Some old
  \/ fs w' !! fallback_backup (destination +:+ ".previous") = Some old.
Proof.
  intros Hold Hfb. unfold applyUpdate.
  rewrite (existsSync_true _ _ _ Hold), bind_run.
  destruct (backupPromise destination true w) as [[r|e1] w1] eqn:E1.
  - apply (backup_resolved _ _ _ _ _ Hold Hfb) in E1
      as (bp & -> & Hne & Hbp & Hwhich & _).
    assert (fs w' !! bp = Some old -> 
            fs w' !! destination = Some old
            \/ fs w' !! (destination +:+ ".previous") = Some old
            \/ fs w' !! fallback_backup (destination +:+ ".previous") = Some old)
      as Hfin.
    { destruct Hwhich as [[-> _]|[-> _]]; auto. }
    rewrite bind_run.
    destruct (moveFile source destination true w1) as [[b|e2] w2] eqn:E2.
    + rewrite bind_run.
      destruct (unlinkSync source w2) as [[[]|e3] w3] eqn:E3; [done|].
      intros [= <- <-]. apply Hfin.
      apply unlinkSync_rejected in E3. rewrite E3.
      apply moveFile_copy_resolved in E2 as (_ & c & _ & ->).
      by rewrite lookup_insert_ne.
    + intros [= <- <-]. apply Hfin.
      by rewrite (moveFile_rejected _ _ _ _ _ _ E2).
  - intros [= <- <-]. left.
    by rewrite (backup_rejected _ _ _ _ Hfb E1).
Qed.

(** C8: when [applyUpdate] succeeds, the new content is at the
    destination and the temp file is gone; if a destination file existed,
    its content is at the backup path the promise resolves with, which is
    [destination + ".previous"] when relocating there completed and
    otherwise the secondary location, [ProgramData/Morphic/] followed by the
    base name only; if none existed the promise resolves with no path. The
    temp file is taken to be neither the destination nor a backup path. *)
Theorem applyUpdate_backs_up_and_installs source destination w r w' :
  source <> destination ->
  source <> destination +:+ ".previous" ->
  source <> fallback_backup (destination +:+ ".previous") ->
  fallback_backup (destination +:+ ".previous") <> destination ->
  applyUpdate source destination w = (Resolved r, w') ->
  fallback_backup (destination +:+ ".previous")
    = path_join [env_ProgramData; "Morphic";
                 path_basename (destination +:+ ".previous")]
  /\ exists new,
    fs w !! source = Some new
    /\ fs w' !! destination = Some new
    /\ fs w' !! source = None
    /\ match fs w !! destination with
       | None => r = None
       | Some old =>
           exists backupPath,
             r = Some backupPath
             /\ fs w' !! backupPath = Some old
             /\ ((backupPath = destination +:+ ".previous"
                  /\ exists b wa,
                       moveFile destination (destination +:+ ".previous") false w
                       = (Resolved b, wa))
                 \/ (backupPath = fallback_backup (destination +:+ ".previous")
                     /\ exists e wa,
                          moveFile destination (destination +:+ ".previous") false w
                          = (Rejected e, wa)))
       end.
Proof.
  intros Hsd Hs1 Hs2 Hfb Hrun. split; [done|]. revert Hrun. unfold applyUpdate.
  assert (forall w1 bp,
    (forall p, p <> destination -> p <> destination +:+ ".previous" ->
               p <> fallback_backup (destination +:+ ".previous") ->
               fs w1 !! p = fs w !! p) ->
    (moveFile source destination true ;; unlinkSync source ;; resolve bp) w1
      = (Resolved r, w') ->
    r = bp /\ exists new, fs w !! source = Some new
      /\ fs w' !! destination = Some new /\ fs w' !! source = None
      /\ forall p, p <> destination -> p <> source -> fs w' !! p = fs w1 !! p)
    as Hinstall.
  { intros w1 bp Hframe. rewrite bind_run.
    destruct (moveFile source destination true w1) as [[b|e2] w2] eqn:E2; [|done].
    apply moveFile_copy_resolved in E2 as (_ & new & Hnew & Hfs2).
    rewrite bind_run.
    destruct (unlinkSync source w2) as [[[]|e3] w3] eqn:E3; [|done].
    apply unlinkSync_resolved in E3. intros [= <- <-]. split; [done|].
    exists new. rewrite <- Hframe by done. split; [done|].
    rewrite E3, Hfs2. split; [|split].
    - by rewrite lookup_delete_ne, lookup_insert_eq.
    - by rewrite lookup_delete_eq.
    - intros p ? ?. by rewrite lookup_delete_ne, lookup_insert_ne. }
  destruct (fs w !! destination) as [old|] eqn:Hold.
  - rewrite (existsSync_true _ _ _ Hold), bind_run.
    destruct (backupPromise destination true w) as [[r1|e1] w1] eqn:E1; [|done].
    apply (backup_resolved _ _ _ _ _ Hold Hfb) in E1
      as (bp & -> & Hne & Hbp & Hwhich & Hframe).
    intros Hrest. apply (Hinstall _ _ Hframe) in Hrest
      as (-> & new & ? & ? & ? & Hlast).
    exists new. repeat (split; [done|]).
    exists bp. split; [done|]. split; [|done].
    rewrite Hlast; [done|done|].
    destruct Hwhich as [[-> _]|[-> _]]; done.
  - rewrite (existsSync_false _ _ Hold). simpl backupPromise.
    intros Hrest.
    change ((resolve (@None string) ≫= (fun backupPath : option string =>
      moveFile source destination true ;; unlinkSync source ;; resolve backupPath)) w)
      with ((moveFile source destination true ;; unlinkSync source ;;
             resolve (@None string)) w)
      in Hrest.
    apply (Hinstall w None) in Hrest as (-> & new & ? & ? & ? & _); [|done].
    exists new. done.
Qed.

End WithPlatform.

Lemma run_rejected {A} (x : settled A * World) e :
  fst x = Rejected e -> x = (Rejected e, snd x).
Proof. destruct x as [r w]. simpl. by intros ->. Qed.

Lemma run_resolved {A} (x : settled A * World) a :
  fst x = Resolved a -> x = (Resolved a, snd x).
Proof. destruct x as [r w]. simpl. by intros ->. Qed.

(** The copy into place breaks off after the backup was renamed: the old
    content is at [/cfg/f.json.previous]. *)
Lemma applyUpdate_failure_keeps_old_file_witness :
  fs Demo.broken_copy !! "/cfg/f.json" = Some "{old}"
  /\ (fs (Demo.after_applyUpdate Demo.broken_copy) !! "/cfg/f.json"
      = Some "{old}"
      \/ fs (Demo.after_applyUpdate Demo.broken_copy)
           !! ("/cfg/f.json" +:+ ".previous") = Some "{old}"
      \/ fs (Demo.after_applyUpdate Demo.broken_copy)
           !! @fallback_backup Demo.platform ("/cfg/f.json" +:+ ".previous")
         = Some "{old}").
Proof.
  unfold Demo.after_applyUpdate.
  split; [by vm_compute|].
  eapply (@applyUpdate_failure_keeps_old_file Demo.platform
            "/tmp/new" "/cfg/f.json" "{old}" Demo.broken_copy).
  - by vm_compute.
  - by vm_compute.
  - apply run_rejected. vm_compute. reflexivity.
Defined.

(** The primary location fails, the secondary one takes the backup. *)
Lemma applyUpdate_backs_up_and_installs_witness :
  fst (@applyUpdate Demo.platform "/tmp/new" "/cfg/f.json" Demo.readonly_directory)
  = Resolved (Some "/ProgramData/Morphic/f.json.previous")
  /\ fs (Demo.after_applyUpdate Demo.readonly_directory) !! "/cfg/f.json"
     = Some "{new}"
  /\ fs (Demo.after_applyUpdate Demo.readonly_directory)
       !! "/ProgramData/Morphic/f.json.previous" = Some "{old}".
Proof.
  unfold Demo.after_applyUpdate.
  pose proof (@applyUpdate_backs_up_and_installs Demo.platform
                "/tmp/new" "/cfg/f.json" Demo.readonly_directory
                (Some "/ProgramData/Morphic/f.json.previous")
                (snd (@applyUpdate Demo.platform "/tmp/new" "/cfg/f.json"
                        Demo.readonly_directory))) as Hthm.
  destruct Hthm as (_ & new & Hsrc & Hdst & _ & Hbackup).
  - by vm_compute.
  - by vm_compute.
  - by vm_compute.
  - by vm_compute.
  - apply run_resolved. vm_compute. reflexivity.
  - split; [by vm_compute|].
    assert (new = "{new}") as -> by (vm_compute in Hsrc; congruence).
    split; [exact Hdst|].
    change (fs Demo.readonly_directory !! "/cfg/f.json") with (Some "{old}")
      in Hbackup.
    destruct Hbackup as (bp & Hr & Hold & _).
    injection Hr as <-. exact Hold.
Defined.

End CommitProofs.

(** ** Conditional downloader *)

Module DownloadProofs.
Import Fs EnvProofs CommitProofs configUpdater.
Import ExpanderProofs.

Lemma length_append s t :
  String.length (s +:+ t) = String.length s + String.length t.
Proof.
  induction s as [|c s IH]; [done|]. rewrite append_cons. simpl. by rewrite IH.
Qed.

Lemma substring_prefix s t :
  String.substring 0 (String.length s) (s +:+ t) = s.
Proof.
  induction s as [|c s IH]; [by destruct t|].
  rewrite append_cons. simpl. by rewrite IH.
Qed.

Lemma substring_whole s : String.substring 0 (String.length s) s = s.
Proof. induction s as [|c s IH]; [done|]. simpl. by rewrite IH. Qed.

Lemma substring_suffix s t :
  String.substring (String.length s) (String.length t) (s +:+ t) = t.
Proof.
  induction s as [|c s IH]; [apply substring_whole|].
  rewrite append_cons. simpl. apply IH.
Qed.

Lemma endsWith_append s t : JS.endsWith t (s +:+ t) = true.
Proof.
  unfold JS.endsWith. rewrite length_append.
  apply andb_true_intro. split; [apply Nat.leb_le; lia|].
  replace (String.length s + String.length t - String.length t)
    with (String.length s) by lia.
  rewrite substring_suffix. apply String.eqb_refl.
Qed.

(** A string that is not empty ends in a character. *)
Lemma last_character s :
  s <> "" -> exists m c, s = m +:+ String c "".
Proof.
  induction s as [|c s IH]; [done|]. intros _.
  destruct s as [|c' s'].
  - by exists "", c.
  - destruct IH as (m & c0 & Heq); [done|].
    exists (String c m), c0. by rewrite append_cons, <- Heq.
Qed.

Lemma endsWith_last m c d :
  JS.endsWith (String d "") (m +:+ String c "") = true -> c = d.
Proof.
  unfold JS.endsWith. rewrite length_append. simpl String.length.
  intros [_ Heq]%andb_prop.
  replace (String.length m + 1 - 1) with (String.length m) in Heq by lia.
  change 1 with (String.length (String c "")) in Heq.
  rewrite substring_suffix in Heq.
  apply String.eqb_eq in Heq. by injection Heq.
Qed.

Lemma startsWith_first p c s :
  JS.startsWith (String p "") (String c s) = true -> c = p.
Proof.
  unfold JS.startsWith. simpl. destruct (ascii_dec p c); [done|discriminate].
Qed.

(** A string that starts and ends with a double quote is a lone quote or a
    quoted string. *)
Lemma quoted_shape e :
  JS.startsWith dquote e = true -> JS.endsWith dquote e = true ->
  e = dquote \/ exists m, e = dquote +:+ m +:+ dquote.
Proof.
  intros Hs He. destruct e as [|c rest]; [done|].
  apply startsWith_first in Hs as ->.
  destruct rest as [|c' rest']; [by left|]. right.
  destruct (last_character (String c' rest')) as (m & c0 & Heq); [done|].
  rewrite Heq in *. exists m.
  change (String "034" (m +:+ String c0 "")) with
    ((String "034"%char m) +:+ String c0 "") in He.
  apply endsWith_last in He as ->. reflexivity.
Qed.

Lemma substring_unquotes m :
  JS.substring 1 (String.length (dquote +:+ m +:+ dquote) - 1)
    (dquote +:+ m +:+ dquote) = m.
Proof.
  unfold JS.substring. rewrite !length_append. simpl String.length.
  replace (Nat.min 1 (1 + (String.length m + 1))) with 1 by lia.
  replace (Nat.min (1 + (String.length m + 1) - 1) (1 + (String.length m + 1)))
    with (S (String.length m)) by lia.
  replace (Nat.min 1 (S (String.length m))) with 1 by lia.
  replace (Nat.max 1 (S (String.length m)) - 1) with (String.length m) by lia.
  change (dquote +:+ m +:+ dquote) with (String "034"%char (m +:+ dquote)).
  simpl. apply substring_prefix.
Qed.

Section WithPlatform.
Context `{Platform}.

(** The ETag of the result, case by case. *)
Lemma result_etag_missing : result_etag None = None /\ result_etag (Some "") = None.
Proof. done. Qed.

Lemma result_etag_weak e :
  JS.startsWith "W/" e = true -> result_etag (Some e) = None.
Proof.
  intros Hw. unfold result_etag. rewrite Hw. simpl.
  by rewrite andb_false_r.
Qed.

Lemma result_etag_quoted m :
  result_etag (Some (dquote +:+ m +:+ dquote)) = Some m.
Proof.
  assert (JS.startsWith "W/" (dquote +:+ m +:+ dquote) = false) as Hw.
  { change (dquote +:+ m +:+ dquote) with (String "034"%char (m +:+ dquote)).
    unfold JS.startsWith. simpl.
    done. }
  assert (JS.startsWith dquote (dquote +:+ m +:+ dquote) = true) as Hs.
  { change (dquote +:+ m +:+ dquote) with (String "034"%char (m +:+ dquote)).
    unfold JS.startsWith. simpl.
    by destruct (m +:+ dquote). }
  pose proof (endsWith_append (dquote +:+ m) dquote) as He.
  rewrite append_assoc in He.
  unfold result_etag. rewrite Hw, Hs, He, substring_unquotes. done.
Qed.

Lemma result_etag_unquoted e :
  e <> "" -> JS.startsWith "W/" e = false ->
  (forall m, e <> dquote +:+ m +:+ dquote) ->
  result_etag (Some e) = Some e.
Proof.
  intros Hne Hw Hshape. unfold result_etag. rewrite Hw.
  destruct e as [|c rest]; [done|]. cbn [JS.truthy_string negb andb].
  destruct (JS.startsWith dquote (String c rest)) eqn:Hs; [|done].
  destruct (JS.endsWith dquote (String c rest)) eqn:He; [|done].
  destruct (quoted_shape _ Hs He) as [->|[m Hm]]; [done|].
  by destruct (Hshape m).
Qed.

Lemma keeps_hashFile (touch : string -> Prop) (allowed : event -> Prop)
    file algorithm :
  (forall e, stream_event e = true -> allowed e) ->
  keeps touch allowed (hashFile file algorithm).
Proof. intros. unfold hashFile. keeps_auto. Qed.

Lemma keeps_validateJSON (touch : string -> Prop) (allowed : event -> Prop) file :
  allowed (EReadFile file) ->
  keeps touch allowed (validateJSON file).
Proof. intros. unfold validateJSON. keeps_auto. Qed.

Lemma keeps_on_response (touch : string -> Prop) (allowed : event -> Prop)
    url localPath options response :
  touch localPath ->
  (forall e, stream_event e = true -> allowed e) ->
  keeps touch allowed (on_response url localPath options response).
Proof.
  intros. unfold on_response.
  apply keeps_bind; [keeps_auto|]. intros _.
  repeat case_match; keeps_auto; by apply keeps_hashFile.
Qed.

(** The handler on a 200 response: write the body, hash what was
    written. *)
Lemma on_response_200 url localPath options response w :
  statusCode response = 200%Z ->
  on_response url localPath options response w
  = match writeStream localPath (body response)
            (record (ELog Info "Download response") w) with
    | (Resolved _, w1) =>
        match hashFile localPath (opt_hashAlgorithm options)
                (record (ELog Info "Download complete") w1) with
        | (Resolved hash, w2) =>
            (Resolved (Downloaded hash
                         (result_etag (header_etag response))
                         (result_date (header_last_modified response))), w2)
        | (Rejected e, w2) => (Rejected e, w2)
        end
    | (Rejected _, w1) => (Rejected (DownloadWriteFailed url localPath), w1)
    end.
Proof.
  intros Hs. unfold on_response. rewrite bind_run.
  unfold log at 1, emit at 1. cbv beta iota. rewrite Hs.
  reflexivity.
Qed.

(** What [downloadFile] does up to the response. *)
Lemma downloadFile_run url localPath options w :
  downloadFile url localPath options w
  = let headers := request_headers (with_defaults options) in
    let w2 := record (EHttpGet url headers) (record (ELog Info "Downloading") w) in
    match remote w url headers with
    | NetError message => (Rejected (DownloadFailed url None), w2)
    | NetResponse response =>
        on_response url localPath (with_defaults options) response w2
    end.
Proof. reflexivity. Qed.

(** [downloadFile] writes the temp file only, and does none of the commit
    procedure's calls. *)
Lemma keeps_downloadFile (touch : string -> Prop) (allowed : event -> Prop)
    url localPath options :
  touch localPath ->
  (forall e, stream_event e = true -> allowed e) ->
  (forall e, request_event e = true -> allowed e) ->
  keeps touch allowed (downloadFile url localPath options).
Proof.
  intros Ht Ha Hr w. rewrite downloadFile_run. cbv zeta.
  assert (within touch allowed w
            (record (EHttpGet url (request_headers (with_defaults options)))
               (record (ELog Info "Downloading") w))) as Hw2.
  { constructor; simpl; try done.
    eexists [_; _]. split; [by rewrite <- app_assoc|].
    repeat constructor; [by apply Ha|by apply Hr]. }
  destruct (remote w url _) as [message|response]; [done|].
  eapply within_trans; [done|].
  by apply keeps_on_response.
Qed.

(** The algorithm [hashFile] ends up using. *)
Lemma hashFile_resolved file algorithm w h w' :
  hashFile file algorithm w = (Resolved h, w') ->
  exists content,
    fs w !! file = Some content
    /\ h = digest (if present algorithm then default "" algorithm else "sha512")
                  content
    /\ fs w' = fs w.
Proof.
  unfold hashFile. rewrite bind_run. unfold readStream.
  destruct (next_outcome _) as [o w1] eqn:E.
  apply next_outcome_same in E as (F & _). simpl in F.
  repeat case_match; intros [= <- <-]; simplify_eq.
  all: rewrite F in *; eauto.
Qed.

Lemma writeStream_resolved path content w w' :
  writeStream path content w = (Resolved tt, w') ->
  fs w' = <[path := content]> (fs w).
Proof.
  unfold writeStream. destruct (next_outcome _) as [o w1] eqn:E.
  apply next_outcome_same in E as (F & _). simpl in F.
  repeat case_match; intros [= <-]; simpl. by rewrite F.
Qed.

(** When [downloadFile] resolves with a hash, the server answered 200, the
    body is in the temp file, and the result is read off that response. *)
Lemma downloadFile_downloaded url localPath options w h e d w' :
  downloadFile url localPath options w = (Resolved (Downloaded h e d), w') ->
  exists response,
    remote w url (request_headers (with_defaults options)) = NetResponse response
    /\ statusCode response = 200%Z
    /\ h = digest (if present (opt_hashAlgorithm (with_defaults options))
                   then default "" (opt_hashAlgorithm (with_defaults options))
                   else "sha512") (body response)
    /\ e = result_etag (header_etag response)
    /\ d = result_date (header_last_modified response)
    /\ fs w' = <[localPath := body response]> (fs w).
Proof.
  rewrite downloadFile_run. cbv zeta.
  destruct (remote w url _) as [message|response] eqn:Hremote; [done|].
  destruct (Z.eqb (statusCode response) 200) eqn:Hstatus.
  - apply Z.eqb_eq in Hstatus.
    rewrite (on_response_200 _ _ _ _ _ Hstatus).
    destruct (writeStream _ _ _) as [[[]|e1] w3] eqn:E3; [|done].
    apply writeStream_resolved in E3. simpl in E3.
    destruct (hashFile _ _ _) as [[hash|e2] w4] eqn:E4; [|done].
    apply hashFile_resolved in E4 as (c & Hc & -> & Hfs4). simpl in Hc, Hfs4.
    rewrite E3, lookup_insert_eq in Hc. injection Hc as <-.
    intros [= <- <- <- <-]. exists response.
    rewrite Hfs4, E3. done.
  - unfold on_response. rewrite bind_run.
    unfold log at 1, emit at 1. cbv beta iota. rewrite Hstatus.
    destruct (Z.eqb (statusCode response) 304); done.
Qed.

(** The request [downloadFile] makes, in the trace. *)
Lemma downloadFile_trace url localPath options w :
  exists rest,
    trace (snd (downloadFile url localPath options w))
    = trace w ++ ELog Info "Downloading"
        :: EHttpGet url (request_headers (with_defaults options)) :: rest
    /\ Forall (fun e => request_event e = false) rest.
Proof.
  rewrite downloadFile_run. cbv zeta.
  destruct (remote w url _) as [message|response].
  - exists []. simpl. by rewrite <- app_assoc.
  - pose proof (keeps_on_response (fun p => p = localPath)
                  (fun e => request_event e = false)
                  url localPath (with_defaults options) response
                  eq_refl ltac:(by intros [])
                  (record (EHttpGet url (request_headers (with_defaults options)))
                     (record (ELog Info "Downloading") w)))
      as [_ (d & Hd & Hall) _].
    exists d. rewrite Hd. simpl. by rewrite <- !app_assoc.
Qed.

(** C5: [downloadFile] makes one request. It carries [If-None-Match],
    holding the etag between double quotes, exactly when [options.etag] is
    present, and [If-Modified-Since], holding the date, exactly when
    [options.date] is present, and no other header; so with neither option
    there is no header at all. Present is what the guards [if (options.etag)]
    and [if (options.date)] test: defined and not the empty string. *)
Theorem downloadFile_conditional_headers url localPath options w :
  exists headers rest,
    trace (snd (downloadFile url localPath options w))
    = trace w ++ ELog Info "Downloading" :: EHttpGet url headers :: rest
    /\ Forall (fun e => request_event e = false) rest
    /\ headers !! "If-None-Match"
       = (if present (passed_etag options)
          then Some (dquote +:+ default "" (passed_etag options) +:+ dquote)
          else None)
    /\ headers !! "If-Modified-Since"
       = (if present (passed_date options) then passed_date options else None)
    /\ (forall name, name <> "If-None-Match" -> name <> "If-Modified-Since" ->
                     headers !! name = None)
    /\ (passed_etag options = Some "abc" ->
        headers !! "If-None-Match" = Some (dquote +:+ "abc" +:+ dquote))
    /\ (passed_etag options = None -> passed_date options = None -> headers = ∅).
Proof.
  exists (request_headers (with_defaults options)).
  destruct (downloadFile_trace url localPath options w) as (rest & Htrace & Hrest).
  exists rest. split; [done|]. split; [done|].
  assert (opt_etag (with_defaults options) = passed_etag options) as He
    by (by destruct options).
  assert (opt_date (with_defaults options) = passed_date options) as Hd
    by (by destruct options).
  unfold request_headers. rewrite He, Hd.
  destruct (passed_etag options) as [e|] eqn:Hpe;
    destruct (passed_date options) as [d|] eqn:Hpd; simpl;
    [ destruct (JS.truthy_string e) eqn:?, (JS.truthy_string d) eqn:?
    | destruct (JS.truthy_string e) eqn:?
    | destruct (JS.truthy_string d) eqn:?
    | ];
    repeat split; try done; intros; simplify_map_eq; done.
Qed.

(** C7: for a 200 response, what [downloadFile] resolves with has the
    response's ETag as its etag, without the surrounding double quotes
    when it has them, and no etag when the header is missing (or empty) or
    is a weak validator starting with [W/]; its date is the Last-Modified
    header. With no failure pending it does resolve. *)
Theorem downloadFile_result_validators url localPath options w response :
  remote w url (request_headers (with_defaults options)) = NetResponse response ->
  statusCode response = 200%Z ->
  (forall result w',
      downloadFile url localPath options w = (Resolved result, w') ->
      exists hash etag date,
        result = Downloaded hash etag date
        /\ (header_etag response = None -> etag = None)
        /\ (header_etag response = Some "" -> etag = None)
        /\ (forall e, header_etag response = Some e ->
                      JS.startsWith "W/" e = true -> etag = None)
        /\ (forall m, header_etag response = Some (dquote +:+ m +:+ dquote) ->
                      etag = Some m)
        /\ (forall e, header_etag response = Some e -> e <> "" ->
                      JS.startsWith "W/" e = false ->
                      (forall m, e <> dquote +:+ m +:+ dquote) ->
                      etag = Some e)
        /\ (header_last_modified response = None -> date = None)
        /\ (forall d, header_last_modified response = Some d -> d <> "" ->
                      date = Some d))
  /\ (pending w = [] ->
      exists result w', downloadFile url localPath options w = (Resolved result, w')).
Proof.
  intros Hremote Hstatus. split.
  - intros result w'. rewrite downloadFile_run. cbv zeta.
    rewrite Hremote, (on_response_200 _ _ _ _ _ Hstatus).
    destruct (writeStream _ _ _) as [[[]|e1] w3]; [|done].
    destruct (hashFile _ _ _) as [[hash|e2] w4]; [|done].
    intros [= <- <-]. eexists _, _, _. split; [done|].
    repeat split.
    + by intros ->.
    + by intros ->.
    + intros e -> Hw. by apply result_etag_weak.
    + intros m ->. apply result_etag_quoted.
    + intros e -> ? ? ?. by apply result_etag_unquoted.
    + by intros ->.
    + intros d -> Hd. unfold result_date. by destruct d.
  - intros Hpending. rewrite downloadFile_run. cbv zeta.
    rewrite Hremote, (on_response_200 _ _ _ _ _ Hstatus).
    unfold writeStream, next_outcome. simpl pending. rewrite Hpending.
    unfold hashFile. rewrite bind_run.
    unfold readStream, next_outcome. simpl pending. rewrite Hpending.
    simpl. rewrite lookup_insert_eq. eauto.
Qed.

End WithPlatform.

(** A 200 response whose ETag is the quoted [abc]: the result's etag is
    [abc]. *)
Lemma downloadFile_result_validators_witness :
  exists hash date w',
    @downloadFile Demo.platform "https://example.org/f.json" "/tmp/t" None
      Demo.online
    = (Resolved (Downloaded hash (Some "abc") date), w').
Proof.
  pose proof (@downloadFile_result_validators Demo.platform
                "https://example.org/f.json" "/tmp/t" None Demo.online
                Demo.quoted_response eq_refl eq_refl) as [Hfields Hruns].
  destruct (Hruns eq_refl) as (result & w' & Hrun).
  destruct (Hfields result w' Hrun)
    as (hash & etag & date & -> & _ & _ & _ & Hquoted & _).
  rewrite (Hquoted "abc" eq_refl) in Hrun. eauto.
Defined.

End DownloadProofs.

(** ** Update orchestrator: one tracked file *)

Module UpdateFileProofs.
Import Fs EnvProofs CommitProofs DownloadProofs configUpdater.

Section WithPlatform.
Context `{Platform}.

Lemma keeps_hashPromise (touch : string -> Prop) (allowed : event -> Prop)
    update existing :
  (forall e, stream_event e = true -> allowed e) ->
  keeps touch allowed (hashPromise update existing).
Proof.
  intros Ha. unfold hashPromise. destruct existing; keeps_auto;
    by apply keeps_hashFile.
Qed.

(** The hash of the existing file: undefined, or the digest of what is
    installed. The stage does not fail and changes no file. *)
Lemma hashPromise_resolves update existing w :
  exists localHash w1,
    hashPromise update existing w = (Resolved localHash, w1)
    /\ fs w1 = fs w
    /\ (forall h, localHash = Some h ->
          exists content, fs w !! path update = Some content
                          /\ h = digest "sha512" content).
Proof.
  pose proof (keeps_hashPromise (fun _ => False) (fun _ => True)
                update existing ltac:(done) w) as Hk.
  apply within_nothing in Hk.
  destruct (hashPromise update existing w) as [r w1] eqn:E. simpl in Hk.
  revert E. unfold hashPromise. destruct existing.
  - unfold catch. rewrite bind_run.
    destruct (hashFile _ _ w) as [[h|e] wa] eqn:Eh.
    + intros [= <- <-]. eexists _, _. split; [done|]. split; [done|].
      intros h' [= <-].
      apply hashFile_resolved in Eh as (c & Hc & -> & _). eauto.
    + rewrite bind_run. unfold log at 1, emit at 1. cbv beta iota.
      intros [= <- <-]. eexists _, _. split; [done|]. split; [done|]. done.
  - intros [= <- <-]. eexists _, _. split; [done|]. split; [done|]. done.
Qed.

Lemma keeps_downloadPromise (touch : string -> Prop) (allowed : event -> Prop)
    update togo url tempFile options :
  touch tempFile ->
  (forall e, stream_event e = true -> allowed e) ->
  (forall e, request_event e = true -> allowed e) ->
  allowed (EReadFile tempFile) ->
  keeps touch allowed (downloadPromise update togo url tempFile options).
Proof.
  intros Ht Ha Hr Hv. unfold downloadPromise.
  apply keeps_then_else.
  - by apply keeps_downloadFile.
  - intros [|hash etag date]; [keeps_auto|].
    apply keeps_bind.
    + destruct (isJSON update); [|keeps_auto].
      by apply keeps_validateJSON.
    + intros [|]; keeps_auto.
  - intros e. keeps_auto.
Qed.

(** What the download stage hands on: either no hash and the entry as it
    was, or the hash of a 200 response's body together with the entry
    carrying that response's validators. *)
Lemma downloadPromise_resolved update togo url tempFile options w
    downloadHash togo' w' :
  downloadPromise update togo url tempFile options w
  = (Resolved (downloadHash, togo'), w') ->
  match downloadHash with
  | None => togo' = togo
  | Some h =>
      exists response,
        remote w url (request_headers (with_defaults options))
        = NetResponse response
        /\ statusCode response = 200%Z
        /\ h = digest (if present (opt_hashAlgorithm (with_defaults options))
                      then default "" (opt_hashAlgorithm (with_defaults options))
                      else "sha512") (body response)
        /\ togo' = {| etag := result_etag (header_etag response);
                      date := result_date (header_last_modified response);
                      previous := previous togo |}
        /\ fs w' = <[tempFile := body response]> (fs w)
  end.
Proof.
  unfold downloadPromise, then_else.
  destruct (downloadFile url tempFile options w) as [[[|h e d]|err] w1] eqn:Ed.
  - by intros [= <- <- <-].
  - apply downloadFile_downloaded in Ed
      as (response & Hremote & Hstatus & -> & -> & -> & Hfs).
    rewrite bind_run.
    destruct (isJSON update).
    + pose proof (keeps_validateJSON (fun _ => False) (fun _ => True)
                    tempFile ltac:(done) w1) as Hk.
      apply within_nothing in Hk.
      destruct (validateJSON tempFile w1) as [[[|]|e] w2]; simpl in Hk.
      * intros [= <- <- <-]. exists response. by rewrite Hk.
      * by intros [= <- <- <-].
      * done.
    + intros [= <- <- <-]. by exists response.
  - rewrite bind_run. unfold log at 1, emit at 1. cbv beta iota.
    by intros [= <- <- <-].
Qed.

Lemma keeps_commit_if_changed (touch : string -> Prop) (allowed : event -> Prop)
    update tempFile localHash downloadHash togo :
  touch tempFile -> touch (path update) ->
  touch (path update +:+ ".previous") ->
  touch (fallback_backup (path update +:+ ".previous")) ->
  (forall e, commit_event e = true -> allowed e) ->
  keeps touch allowed
    (commit_if_changed update tempFile localHash downloadHash togo).
Proof.
  intros. unfold commit_if_changed.
  destruct (should_update downloadHash localHash); [|keeps_auto].
  apply keeps_bind; [by apply keeps_applyUpdate|]. intros bp. keeps_auto.
Qed.

(** [updateFile] with a resolved address, stage by stage. *)
Lemma updateFile_run update lastUpdate w u :
  Expander.expand (url update) getSecrets false = JS.Returns (Some u) -> u <> "" ->
  updateFile update lastUpdate w
  = match hashPromise update (existsSync (path update) w) (tick_rng w) with
    | (Resolved localHash, w1) =>
        match downloadPromise update lastUpdate u (temp_name (rng w))
                (downloadOptions update lastUpdate (existsSync (path update) w))
                w1 with
        | (Resolved (downloadHash, togo), w2) =>
            commit_if_changed update (temp_name (rng w)) localHash downloadHash
              togo w2
        | (Rejected e, w2) => (Rejected e, w2)
        end
    | (Rejected e, w1) => (Rejected e, w1)
    end.
Proof.
  intros Hu Hne. unfold updateFile. rewrite Hu.
  destruct u as [|c u']; [done|].
  change (present (Some (String c u'))) with true.
  change (default "" (Some (String c u'))) with (String c u').
  cbv beta iota. rewrite bind_run.
  destruct (hashPromise _ _ _) as [[localHash|e] w1]; [|done].
  rewrite bind_run.
  destruct (downloadPromise _ _ _ _ _ _) as [[[downloadHash togo]|e] w2]; done.
Qed.

Lemma within_tick_rng touch allowed w : within touch allowed w (tick_rng w).
Proof.
  constructor; simpl; try done. exists []. by rewrite app_nil_r.
Qed.

(** The options of the download name no algorithm: sha512 is used. *)
Lemma download_algorithm update lastUpdate existing :
  (if present (opt_hashAlgorithm
                 (with_defaults (downloadOptions update lastUpdate existing)))
   then default "" (opt_hashAlgorithm
                      (with_defaults (downloadOptions update lastUpdate existing)))
   else "sha512") = "sha512".
Proof. unfold downloadOptions. by destruct (existing && negb (always update)). Qed.

(** The request of the download stage, in the trace. *)
Lemma downloadPromise_trace update togo u tempFile options w :
  exists rest,
    trace (snd (downloadPromise update togo u tempFile options w))
    = trace w ++ ELog Info "Downloading"
        :: EHttpGet u (request_headers (with_defaults options)) :: rest
    /\ Forall (fun e => request_event e = false) rest.
Proof.
  destruct (downloadFile_trace u tempFile options w) as (rest & Ht & Hrest).
  unfold downloadPromise, then_else.
  destruct (downloadFile u tempFile options w) as [[result|err] w1].
  - assert (keeps (fun _ => True) (fun e => request_event e = false)
              (match result with
               | NotModified => resolve (None, togo)
               | Downloaded hash etag date =>
                   isValid ← ((if isJSON update then validateJSON tempFile
                               else resolve true) : promise bool) ;
                   if isValid : bool
                   then resolve (Some hash,
                                 {| etag := etag; date := date;
                                    previous := previous togo |})
                   else resolve (None, togo)
               end)) as Hk.
    { destruct result as [|hash etag date]; [keeps_auto|].
      apply keeps_bind.
      - destruct (isJSON update); [|keeps_auto].
        by apply keeps_validateJSON.
      - intros [|]; keeps_auto. }
    destruct (Hk w1) as [_ (d & Hd & Hall) _].
    exists (rest ++ d). simpl in Ht. rewrite Hd, Ht, <- app_assoc. simpl.
    split; [done|]. by apply Forall_app.
  - rewrite bind_run. unfold log at 1, emit at 1. cbv beta iota. simpl.
    exists (rest ++ [ELog Warn "updateFile: download failed"]).
    simpl in Ht. rewrite Ht, <- app_assoc. simpl.
    split; [done|]. apply Forall_app. split; [done|]. by repeat constructor.
Qed.

Lemma commit_events_are_no_requests e :
  commit_event e = true -> request_event e = false.
Proof. by destruct e. Qed.

(** What [validateJSON] resolving with [true] tells. *)
Lemma validateJSON_accepts file w w' :
  validateJSON file w = (Resolved true, w') ->
  exists content,
    fs w !! file = Some content
    /\ JSON_parses content || JSON5_parses content = true.
Proof.
  unfold validateJSON, then_else, readFile.
  destruct (next_outcome _) as [o w1] eqn:E.
  apply next_outcome_same in E as (F & _). simpl in F.
  destruct (fs w1 !! file) as [content|] eqn:Hc; [|by destruct o].
  rewrite F in Hc.
  destruct o; intros Hrun; try discriminate Hrun.
  exists content. split; [done|]. unfold resolve in Hrun.
  destruct (JSON_parses content); [done|].
  by destruct (JSON5_parses content).
Qed.

(** A hash handed on by the download stage of a JSON file is the hash of a
    body that parses. *)
Lemma downloadPromise_validated update togo u tempFile options w h togo' w'
    response :
  downloadPromise update togo u tempFile options w
  = (Resolved (Some h, togo'), w') ->
  remote w u (request_headers (with_defaults options)) = NetResponse response ->
  isJSON update = true ->
  JSON_parses (body response) || JSON5_parses (body response) = true.
Proof.
  unfold downloadPromise, then_else. intros Hrun Hremote Hjson. revert Hrun.
  destruct (downloadFile u tempFile options w) as [[[|h' e d]|err] w1] eqn:Ed.
  - done.
  - apply downloadFile_downloaded in Ed
      as (response' & Hremote' & _ & _ & _ & _ & Hfs).
    rewrite Hremote in Hremote'. injection Hremote' as <-.
    rewrite bind_run, Hjson.
    destruct (validateJSON tempFile w1) as [[[|]|e'] w2] eqn:Ev; try done.
    apply validateJSON_accepts in Ev as (content & Hc & Hvalid).
    rewrite Hfs, lookup_insert_eq in Hc. by injection Hc as <-.
  - rewrite bind_run. unfold log at 1, emit at 1. cbv beta iota. done.
Qed.

(** When the hash stage hands on no hash, there is no installed file or
    hashing it failed. *)
Lemma hashPromise_undefined update w w1 :
  hashPromise update (existsSync (path update) w) w = (Resolved None, w1) ->
  fs w !! path update = None
  \/ exists e, fst (hashFile (path update) (Some "sha512") w) = Rejected e.
Proof.
  unfold hashPromise. destruct (existsSync (path update) w) eqn:Hex.
  - unfold catch. rewrite bind_run.
    destruct (hashFile _ _ w) as [[h|e] wa]; [done|]. intros _. right. by exists e.
  - intros _. left. unfold existsSync in Hex.
    apply bool_decide_eq_false in Hex.
    destruct (fs w !! path update) eqn:E; [|done]. by destruct Hex.
Qed.

(** A run of [updateFile] that calls the commit procedure, or changes some
    file other than its temp file, went through the comparison of line
    214 with a download hash that is defined, not empty and different from
    the local one. *)
Lemma updateFile_committing update lastUpdate w :
  Exists (fun e => commit_event e = true)
    (since w (snd (updateFile update lastUpdate w)))
  \/ (exists p, p <> temp_name (rng w)
                /\ fs (snd (updateFile update lastUpdate w)) !! p <> fs w !! p) ->
  exists u localHash w1 h togo w2,
    Expander.expand (url update) getSecrets false = JS.Returns (Some u)
    /\ u <> ""
    /\ hashPromise update (existsSync (path update) w) (tick_rng w)
       = (Resolved localHash, w1)
    /\ downloadPromise update lastUpdate u (temp_name (rng w))
         (downloadOptions update lastUpdate (existsSync (path update) w)) w1
       = (Resolved (Some h, togo), w2)
    /\ h <> "" /\ localHash <> Some h
    /\ remote w1 = remote w.
Proof.
  intros Hdone.
  assert (forall w', within (fun p => p = temp_name (rng w))
                       (fun e => commit_event e = false) w w' ->
                     snd (updateFile update lastUpdate w) = w' -> False)
    as Habsurd.
  { intros w' Hk Hw'. rewrite Hw' in Hdone. destruct Hdone as [Hex|(p & Hp & Hfs)].
    - apply within_since in Hk as [_ Hall].
      apply Exists_exists in Hex as (e & Hin & He).
      rewrite Forall_forall in Hall. specialize (Hall e Hin). congruence.
    - apply Hfs. by apply (within_fs _ _ _ _ Hk). }
  destruct (Expander.expand (url update) getSecrets false) as [|url] eqn:Hu.
  { exfalso. apply (Habsurd w); [apply within_refl|].
    unfold updateFile. by rewrite Hu. }
  destruct (present url) eqn:Hp.
  2:{ exfalso. apply (Habsurd (record (ELog Info "Not updating: no url") w)).
      - refine ((_ : keeps _ _ (log Info "Not updating: no url")) w).
        by apply keeps_log.
      - unfold updateFile. by rewrite Hu, Hp. }
  destruct url as [u|]; [|done].
  assert (u <> "") as Hne by (by destruct u).
  pose proof (keeps_hashPromise (fun p => p = temp_name (rng w))
                (fun e => commit_event e = false) update
                (existsSync (path update) w) ltac:(by intros [])
                (tick_rng w)) as Hk1.
  destruct (hashPromise_resolves update (existsSync (path update) w) (tick_rng w))
    as (localHash & w1 & Hhash & _ & _).
  rewrite Hhash in Hk1. simpl in Hk1.
  pose proof (keeps_downloadPromise (fun p => p = temp_name (rng w))
                (fun e => commit_event e = false) update lastUpdate u
                (temp_name (rng w))
                (downloadOptions update lastUpdate (existsSync (path update) w))
                eq_refl ltac:(by intros []) ltac:(by intros []) eq_refl w1)
    as Hk2.
  pose proof (within_trans _ _ _ _ _ (within_tick_rng _ _ w) Hk1) as Hk01.
  pose proof (updateFile_run update lastUpdate w u Hu Hne) as Hrun.
  rewrite Hhash in Hrun.
  destruct (downloadPromise update lastUpdate u _ _ w1)
    as [[[downloadHash togo]|e] w2] eqn:Hdl; simpl in Hk2.
  2:{ exfalso. apply (Habsurd w2); [by eapply within_trans|by rewrite Hrun]. }
  destruct (should_update downloadHash localHash) eqn:Hs.
  - unfold should_update in Hs. apply andb_prop in Hs as [Hpr Hd].
    destruct downloadHash as [h|]; [|done].
    exists u, localHash, w1, h, togo, w2.
    repeat split; try done.
    + by destruct h.
    + apply negb_true_iff, bool_decide_eq_false in Hd. congruence.
    + apply (within_remote _ _ _ _ Hk01).
  - exfalso. apply (Habsurd w2); [by eapply within_trans|].
    rewrite Hrun. unfold commit_if_changed. by rewrite Hs.
Qed.

(** C1 (as stated, refuted): the installed file has the content the server
    answers with, so the two hashes are equal, but hashing the installed
    file fails. The commit procedure is called: the installed file is
    moved to the backup path, which held nothing, and the download is
    installed. *)
Lemma updateFile_replaces_equal_content :
  fs Demo.unreadable !! "/cfg/f.json" = Some "{}"
  /\ (forall headers,
         remote Demo.unreadable "https://example.org/f.json" headers
         = NetResponse Demo.quoted_response)
  /\ statusCode Demo.quoted_response = 200%Z
  /\ body Demo.quoted_response = "{}"
  /\ Exists (fun e => commit_event e = true)
       (since Demo.unreadable
          (snd (@updateFile Demo.platform Demo.tracked Demo.earlier
                  Demo.unreadable)))
  /\ fs Demo.unreadable !! "/cfg/f.json.previous" = None
  /\ fs (snd (@updateFile Demo.platform Demo.tracked Demo.earlier
                Demo.unreadable)) !! "/cfg/f.json.previous" = Some "{}"
  /\ fst (@updateFile Demo.platform Demo.tracked Demo.earlier Demo.unreadable)
     = Resolved {| etag := Some "abc";
                   date := Some "Thu, 01 Jan 1970 00:00:00 GMT";
                   previous := Some "/cfg/f.json.previous" |}.
Proof.
  split; [vm_compute; reflexivity|].
  split; [intros headers; reflexivity|].
  split; [reflexivity|].
  split; [reflexivity|].
  split.
  { apply Exists_exists. exists (EMkdirp "/cfg").
    split; [|reflexivity]. vm_compute. repeat constructor. }
  split; [vm_compute; reflexivity|].
  split; vm_compute; reflexivity.
Qed.

(** C1 (amended): [updateFile] calls the commit procedure, or changes any
    file other than the temp file of its download, only when the url
    expands, the server answers 200 with a body that passed validation,
    and the hash of that body is not empty and differs from the hash
    computed for the installed file, which is undefined when no file is
    installed or when hashing the installed file fails. When hashing the
    installed file does not fail and the body of the 200 response has the
    hash of the installed content, no call of the commit procedure is made
    and every path other than the temp file, so the target and its backup
    paths, holds what it held before. *)
Theorem updateFile_commits_only_new_content update lastUpdate w :
  (Exists (fun e => commit_event e = true)
     (since w (snd (updateFile update lastUpdate w)))
   \/ (exists p, p <> temp_name (rng w)
                 /\ fs (snd (updateFile update lastUpdate w)) !! p
                    <> fs w !! p) ->
   exists u response localHash,
     Expander.expand (url update) getSecrets false = JS.Returns (Some u)
     /\ u <> ""
     /\ remote w u (request_headers
                      (with_defaults
                         (downloadOptions update lastUpdate
                            (existsSync (path update) w))))
        = NetResponse response
     /\ statusCode response = 200%Z
     /\ (isJSON update = true ->
         JSON_parses (body response) || JSON5_parses (body response) = true)
     /\ digest "sha512" (body response) <> ""
     /\ fst (hashPromise update (existsSync (path update) w) (tick_rng w))
        = Resolved localHash
     /\ localHash <> Some (digest "sha512" (body response))
     /\ (forall h, localHash = Some h ->
           exists content, fs w !! path update = Some content
                           /\ h = digest "sha512" content)
     /\ (localHash = None ->
         fs w !! path update = None
         \/ exists e, fst (hashFile (path update) (Some "sha512") (tick_rng w))
                      = Rejected e))
  /\ (forall u response content,
        Expander.expand (url update) getSecrets false = JS.Returns (Some u) ->
        remote w u (request_headers
                      (with_defaults
                         (downloadOptions update lastUpdate
                            (existsSync (path update) w))))
        = NetResponse response ->
        statusCode response = 200%Z ->
        fs w !! path update = Some content ->
        (forall e, fst (hashFile (path update) (Some "sha512") (tick_rng w))
                   <> Rejected e) ->
        digest "sha512" (body response) = digest "sha512" content ->
        Forall (fun e => commit_event e = false)
          (since w (snd (updateFile update lastUpdate w)))
        /\ forall p, p <> temp_name (rng w) ->
             fs (snd (updateFile update lastUpdate w)) !! p = fs w !! p).
Proof.
  assert (Exists (fun e => commit_event e = true)
            (since w (snd (updateFile update lastUpdate w)))
          \/ (exists p, p <> temp_name (rng w)
                        /\ fs (snd (updateFile update lastUpdate w)) !! p
                           <> fs w !! p) ->
          exists u response localHash,
            Expander.expand (url update) getSecrets false = JS.Returns (Some u)
            /\ u <> ""
            /\ remote w u (request_headers
                             (with_defaults
                                (downloadOptions update lastUpdate
                                   (existsSync (path update) w))))
               = NetResponse response
            /\ statusCode response = 200%Z
            /\ (isJSON update = true ->
                JSON_parses (body response) || JSON5_parses (body response)
                = true)
            /\ digest "sha512" (body response) <> ""
            /\ fst (hashPromise update (existsSync (path update) w) (tick_rng w))
               = Resolved localHash
            /\ localHash <> Some (digest "sha512" (body response))
            /\ (forall h, localHash = Some h ->
                  exists content, fs w !! path update = Some content
                                  /\ h = digest "sha512" content)
            /\ (localHash = None ->
                fs w !! path update = None
                \/ exists e,
                     fst (hashFile (path update) (Some "sha512") (tick_rng w))
                     = Rejected e)) as Honly.
  { intros Hdone.
    destruct (updateFile_committing update lastUpdate w Hdone)
      as (u & localHash & w1 & h & togo & w2 & Hu & Hne & Hhash & Hdl & Hh
          & Hdiff & Hr1).
    pose proof Hdl as Hres. apply downloadPromise_resolved in Hres
      as (response & Hremote & Hstatus & Hdigest & _).
    rewrite download_algorithm in Hdigest. subst h.
    exists u, response, localHash.
    split; [done|]. split; [done|].
    split; [by rewrite <- Hr1|]. split; [done|].
    split; [by apply (downloadPromise_validated _ _ _ _ _ _ _ _ _ _ Hdl)|].
    split; [done|]. split; [by rewrite Hhash|]. split; [done|].
    destruct (hashPromise_resolves update (existsSync (path update) w)
                (tick_rng w)) as (lh & w1' & E & _ & Hmean).
    rewrite Hhash in E. injection E as <- <-.
    split; [exact Hmean|].
    intros ->. by apply (hashPromise_undefined update (tick_rng w) w1). }
  split; [exact Honly|].
  intros u response content Hu Hremote Hstatus Hc Hhashing Hsame.
  assert (~ (Exists (fun e => commit_event e = true)
               (since w (snd (updateFile update lastUpdate w)))
             \/ (exists p, p <> temp_name (rng w)
                           /\ fs (snd (updateFile update lastUpdate w)) !! p
                              <> fs w !! p))) as Hnot.
  { intros Hdone.
    destruct (Honly Hdone) as (u' & response' & localHash & Hu' & _ & Hremote'
                               & _ & _ & _ & _ & Hdiff & Hmean & Hnone).
    rewrite Hu in Hu'. injection Hu' as <-.
    rewrite Hremote in Hremote'. injection Hremote' as <-.
    destruct localHash as [h|].
    - destruct (Hmean h eq_refl) as (content' & Hc' & ->).
      rewrite Hc in Hc'. injection Hc' as <-. by rewrite Hsame in Hdiff.
    - destruct (Hnone eq_refl) as [Hmissing|[e He]]; [congruence|].
      by apply (Hhashing e). }
  split.
  - apply Forall_forall. intros e Hin.
    destruct (commit_event e) eqn:He; [|done].
    exfalso. apply Hnot. left. apply Exists_exists. by exists e.
  - intros p Hp.
    destruct (decide (fs (snd (updateFile update lastUpdate w)) !! p
                      = fs w !! p)) as [|Hneq]; [done|].
    exfalso. apply Hnot. right. by exists p.
Qed.

(** C6 (as stated, refuted): the installed file has the content the server
    answers with, the hashes are equal and [updateFile] resolves, yet the
    file map is not what it was: the body is in a new file in the temp
    directory, which stays there. *)
Lemma updateFile_unchanged_leaves_temp_file :
  fst (@hashPromise Demo.platform Demo.tracked true (tick_rng Demo.unchanged_remote))
  = Resolved (Some "sha512:{}")
  /\ fst (@downloadFile Demo.platform "https://example.org/f.json"
            "/tmp/morphic-update.0.0"
            (@downloadOptions Demo.tracked Demo.earlier true)
            (tick_rng Demo.unchanged_remote))
     = Resolved (Downloaded "sha512:{}" (Some "abc")
                   (Some "Thu, 01 Jan 1970 00:00:00 GMT"))
  /\ fst (@updateFile Demo.platform Demo.tracked Demo.earlier Demo.unchanged_remote)
     = Resolved {| etag := Some "abc";
                   date := Some "Thu, 01 Jan 1970 00:00:00 GMT";
                   previous := None |}
  /\ fs Demo.unchanged_remote !! "/tmp/morphic-update.0.0" = None
  /\ fs (snd (@updateFile Demo.platform Demo.tracked Demo.earlier
                Demo.unchanged_remote)) !! "/tmp/morphic-update.0.0"
     = Some "{}"
  /\ fs (snd (@updateFile Demo.platform Demo.tracked Demo.earlier
                Demo.unchanged_remote)) <> fs Demo.unchanged_remote.
Proof.
  split; [vm_compute; reflexivity|].
  split; [vm_compute; reflexivity|].
  split; [vm_compute; reflexivity|].
  split; [vm_compute; reflexivity|].
  split; [vm_compute; reflexivity|].
  intros Heq. apply (f_equal (fun m => m !! "/tmp/morphic-update.0.0")) in Heq.
  vm_compute in Heq. discriminate.
Qed.

(** C6 (amended): when the download stage hands on the hash of a valid
    200 response and it equals the hash of the installed file,
    [updateFile] writes nothing but the temp file the body was downloaded
    to, which it leaves behind, and makes no call of the commit procedure;
    the entry it resolves with carries the response's ETag and date, and
    its [previous] field is the one it had. *)
Theorem updateFile_unchanged_refreshes_validators update lastUpdate w u
    h w1 togo w2 :
  Expander.expand (url update) getSecrets false = JS.Returns (Some u) -> u <> "" ->
  hashPromise update (existsSync (path update) w) (tick_rng w)
  = (Resolved (Some h), w1) ->
  downloadPromise update lastUpdate u (temp_name (rng w))
    (downloadOptions update lastUpdate (existsSync (path update) w)) w1
  = (Resolved (Some h, togo), w2) ->
  exists response,
    remote w u (request_headers
                  (with_defaults
                     (downloadOptions update lastUpdate
                        (existsSync (path update) w))))
    = NetResponse response
    /\ statusCode response = 200%Z
    /\ h = digest "sha512" (body response)
    /\ updateFile update lastUpdate w = (Resolved togo, w2)
    /\ fs w2 = <[temp_name (rng w) := body response]> (fs w)
    /\ Forall (fun e => commit_event e = false) (since w w2)
    /\ etag togo = result_etag (header_etag response)
    /\ date togo = result_date (header_last_modified response)
    /\ previous togo = previous lastUpdate.
Proof.
  intros Hu Hne Hhash Hdl.
  pose proof (keeps_hashPromise (fun _ => False)
                (fun e => commit_event e = false) update
                (existsSync (path update) w) ltac:(by intros [])
                (tick_rng w)) as Hk1.
  pose proof (keeps_downloadPromise (fun p => p = temp_name (rng w))
                (fun e => commit_event e = false) update lastUpdate u
                (temp_name (rng w))
                (downloadOptions update lastUpdate (existsSync (path update) w))
                eq_refl ltac:(by intros []) ltac:(by intros []) eq_refl w1)
    as Hk2.
  rewrite Hhash in Hk1. rewrite Hdl in Hk2. simpl in Hk1, Hk2.
  pose proof (within_nothing _ _ _ Hk1) as Hfs1. simpl in Hfs1.
  assert (within (fun p => p = temp_name (rng w))
            (fun e => commit_event e = false) (tick_rng w) w1) as Hk1'
    by (eapply within_mono; [| |exact Hk1]; simpl; tauto).
  pose proof (within_trans _ _ _ _ _
                (within_trans _ _ _ _ _ (within_tick_rng _ _ w) Hk1') Hk2)
    as Hk.
  pose proof Hdl as Hres. apply downloadPromise_resolved in Hres
    as (response & Hremote & Hstatus & Hh & -> & Hfs2).
  rewrite download_algorithm in Hh.
  exists response. destruct Hk1 as [_ _ R1]. simpl in R1.
  rewrite <- R1. split; [done|]. split; [done|]. split; [done|].
  split.
  { rewrite (updateFile_run _ _ _ _ Hu Hne), Hhash, Hdl.
    unfold commit_if_changed, should_update.
    by rewrite (bool_decide_eq_true_2 _ eq_refl), andb_false_r. }
  split; [by rewrite Hfs2, Hfs1|].
  split; [by apply within_since in Hk as [_ ?]|]. done.
Qed.

(** C10: [updateFile] makes one request. Its conditional headers are built
    from the stored ETag and date when the target file exists and [always]
    is false; when the target is missing, or [always] is set, the request
    has no header at all, whatever the journal entry holds. *)
Theorem updateFile_conditional_only_when_installed update lastUpdate w u :
  Expander.expand (url update) getSecrets false = JS.Returns (Some u) -> u <> "" ->
  exists before headers rest,
    since w (snd (updateFile update lastUpdate w))
    = before ++ EHttpGet u headers :: rest
    /\ Forall (fun e => request_event e = false) before
    /\ Forall (fun e => request_event e = false) rest
    /\ (fs w !! path update = None -> headers = ∅)
    /\ (always update = true -> headers = ∅)
    /\ (headers <> ∅ -> is_Some (fs w !! path update) /\ always update = false)
    /\ (is_Some (fs w !! path update) -> always update = false ->
        headers !! "If-None-Match"
        = (if present (etag lastUpdate)
           then Some (dquote +:+ default "" (etag lastUpdate) +:+ dquote)
           else None)
        /\ headers !! "If-Modified-Since"
           = (if present (date lastUpdate) then date lastUpdate else None)).
Proof.
  intros Hu Hne.
  destruct (hashPromise_resolves update (existsSync (path update) w) (tick_rng w))
    as (localHash & w1 & Hhash & _ & _).
  pose proof (keeps_hashPromise (fun _ => True)
                (fun e => request_event e = false) update
                (existsSync (path update) w) ltac:(by intros [])
                (tick_rng w)) as Hk1.
  rewrite Hhash in Hk1. simpl in Hk1.
  destruct Hk1 as [_ (d1 & Hd1 & Hall1) _]. simpl in Hd1.
  destruct (downloadPromise_trace update lastUpdate u (temp_name (rng w))
              (downloadOptions update lastUpdate (existsSync (path update) w)) w1)
    as (rest & Ht & Hrest).
  assert (exists d3, trace (snd (updateFile update lastUpdate w))
                     = trace (snd (downloadPromise update lastUpdate u
                                     (temp_name (rng w))
                                     (downloadOptions update lastUpdate
                                        (existsSync (path update) w)) w1)) ++ d3
                     /\ Forall (fun e => request_event e = false) d3)
    as (d3 & Hd3 & Hall3).
  { rewrite (updateFile_run _ _ _ _ Hu Hne), Hhash.
    destruct (downloadPromise _ _ _ _ _ w1) as [[[downloadHash togo]|e] w2].
    - pose proof (keeps_commit_if_changed (fun _ => True)
                    (fun e => request_event e = false) update
                    (temp_name (rng w)) localHash downloadHash togo
                    I I I I commit_events_are_no_requests w2)
        as [_ (d & Hd & Hall) _].
      by exists d.
    - exists []. by rewrite app_nil_r. }
  exists (d1 ++ [ELog Info "Downloading"]),
    (request_headers
       (with_defaults (downloadOptions update lastUpdate
                         (existsSync (path update) w)))),
    (rest ++ d3).
  split.
  { unfold since. rewrite Hd3, Ht, Hd1, <- !List.app_assoc.
    rewrite drop_app_length. simpl. by rewrite <- ?List.app_assoc. }
  split; [apply Forall_app; split; [done|by repeat constructor]|].
  split; [by apply Forall_app|].
  unfold downloadOptions.
  split; [intros Hnone; by rewrite (existsSync_false _ _ Hnone)|].
  split; [intros ->; by rewrite andb_false_r|].
  split.
  - intros Hhs. destruct (existsSync (path update) w) eqn:Hex;
      destruct (always update); try done.
    apply bool_decide_eq_true in Hex. done.
  - intros [c Hc] ->. rewrite (existsSync_true _ _ _ Hc).
    simpl andb. cbv iota. unfold request_headers, with_defaults.
    simpl opt_etag. simpl opt_date.
    destruct (etag lastUpdate) as [e|], (date lastUpdate) as [d|]; simpl;
      repeat case_match; split; simplify_map_eq; done.
Qed.

End WithPlatform.

Lemma demo_hash_stage :
  @hashPromise Demo.platform Demo.tracked
    (existsSync (path Demo.tracked) Demo.unchanged_remote)
    (tick_rng Demo.unchanged_remote)
  = (Resolved (Some "sha512:{}"), Demo.after_hash).
Proof. unfold Demo.after_hash. apply run_resolved. vm_compute. reflexivity. Qed.

Lemma demo_download_stage :
  @downloadPromise Demo.platform Demo.tracked Demo.earlier
    "https://example.org/f.json"
    (@temp_name Demo.platform (rng Demo.unchanged_remote))
    (downloadOptions Demo.tracked Demo.earlier
       (existsSync (path Demo.tracked) Demo.unchanged_remote))
    Demo.after_hash
  = (Resolved (Some "sha512:{}", Demo.refreshed), Demo.after_download).
Proof.
  unfold Demo.after_download. apply run_resolved. vm_compute. reflexivity.
Qed.

(** A newer version is installed over an older one, whose hash differs;
    with the content the server answers with installed, the target is what
    it was. *)
Lemma updateFile_commits_only_new_content_witness :
  (exists localHash,
      fst (@hashPromise Demo.platform Demo.tracked true (tick_rng Demo.outdated))
      = Resolved localHash
      /\ localHash <> Some (@digest Demo.platform "sha512" "{new}"))
  /\ fs (snd (@updateFile Demo.platform Demo.tracked Demo.earlier
                Demo.unchanged_remote)) !! "/cfg/f.json"
     = fs Demo.unchanged_remote !! "/cfg/f.json".
Proof.
  split.
  - destruct (proj1 (@updateFile_commits_only_new_content Demo.platform
                       Demo.tracked Demo.earlier Demo.outdated))
      as (u & response & localHash & Hu & _ & Hremote & _ & _ & _ & Hhash
          & Hdiff & _).
    + right. exists "/cfg/f.json".
      split; [vm_compute; discriminate|]. vm_compute. discriminate.
    + injection Hremote as <-. exists localHash. split; [exact Hhash|exact Hdiff].
  - destruct (proj2 (@updateFile_commits_only_new_content Demo.platform
                       Demo.tracked Demo.earlier Demo.unchanged_remote)
                "https://example.org/f.json" Demo.quoted_response "{}")
      as [_ Hfs].
    + vm_compute. reflexivity.
    + reflexivity.
    + reflexivity.
    + vm_compute. reflexivity.
    + intros e He. vm_compute in He. discriminate.
    + reflexivity.
    + apply Hfs. vm_compute. discriminate.
Defined.

(** The same run: the entry handed back has the validators of the
    response. *)
Lemma updateFile_unchanged_refreshes_validators_witness :
  @updateFile Demo.platform Demo.tracked Demo.earlier Demo.unchanged_remote
  = (Resolved Demo.refreshed, Demo.after_download).
Proof.
  pose proof (@updateFile_unchanged_refreshes_validators Demo.platform
                Demo.tracked Demo.earlier Demo.unchanged_remote
                "https://example.org/f.json"
                "sha512:{}" Demo.after_hash Demo.refreshed Demo.after_download)
    as Hthm.
  destruct Hthm as (response & _ & _ & _ & Hrun & _).
  - vm_compute. reflexivity.
  - discriminate.
  - exact demo_hash_stage.
  - exact demo_download_stage.
  - exact Hrun.
Defined.

(** The target was deleted, the journal entry still holds an etag and a
    date: the request has no header. *)
Lemma updateFile_conditional_only_when_installed_witness :
  exists before rest,
    since Demo.deleted_locally
      (snd (@updateFile Demo.platform Demo.tracked Demo.earlier
              Demo.deleted_locally))
    = before ++ EHttpGet "https://example.org/f.json" ∅ :: rest.
Proof.
  pose proof (@updateFile_conditional_only_when_installed Demo.platform
                Demo.tracked Demo.earlier Demo.deleted_locally
                "https://example.org/f.json") as Hthm.
  destruct Hthm as (before & headers & rest & Hs & _ & _ & Hmissing & _).
  - vm_compute. reflexivity.
  - discriminate.
  - exists before, rest. rewrite Hs. rewrite Hmissing; [done|].
    vm_compute. reflexivity.
Defined.

End UpdateFileProofs.

(** ** Journal store and the update cycle *)

Module JournalProofs.
Import Fs EnvProofs CommitProofs DownloadProofs UpdateFileProofs configUpdater.
Import Notions.

Section WithPlatform.
Context `{Platform}.

(** A read resolves with the content of the file, and only when nothing
    failing is pending. *)
Lemma readFile_run path w :
  exists r w1,
    readFile path w = (r, w1)
    /\ fs w1 = fs w
    /\ trace w1 = trace w ++ [EReadFile path]
    /\ match r with
       | Resolved content =>
           fs w !! path = Some content
           /\ ~ (exists o rest, pending w = o :: rest /\ o <> Succeeds)
       | Rejected _ => True
       end.
Proof.
  unfold readFile, next_outcome. simpl.
  destruct (pending w) as [|o rest] eqn:Hp; simpl.
  - destruct (fs w !! path) as [content|] eqn:Hc.
    + eexists _, _. repeat split; try done. by intros (o & rest & ? & _).
    + eexists _, _. repeat split; done.
  - destruct (fs w !! path) as [content|] eqn:Hc; [destruct o|].
    + eexists _, _. repeat split; try done.
      intros (o & rest' & [= <- <-] & Ho). done.
    + eexists _, _. repeat split; done.
    + eexists _, _. repeat split; done.
    + eexists (Rejected _), _. repeat split; done.
Qed.

(** [loadLastUpdates], whatever the state of the journal file. *)
Lemma loadLastUpdates_run path w :
  exists journal w' logs,
    loadLastUpdates path w = (Resolved journal, w')
    /\ fs w' = fs w
    /\ trace w' = trace w ++ EReadFile (journal_path path) :: logs
    /\ Forall (fun e => stream_event e = true) logs
    /\ (fs w !! journal_path path = None
        \/ (exists o rest, pending w = o :: rest /\ o <> Succeeds)
        \/ (exists content, fs w !! journal_path path = Some content
                            /\ JSON5_parse content = ParseThrows) ->
        journal = LoadedObject empty_journal
        /\ exists message, logs = [ELog Info message])
    /\ ((forall content, fs w !! journal_path path = Some content ->
                         documented (JSON5_parse content)) ->
        exists lastUpdates,
          journal = LoadedObject lastUpdates
          /\ forall v, files lastUpdates <> FilesPrimitive v).
Proof.
  unfold loadLastUpdates, then_else. fold (journal_path path).
  destruct (readFile_run (journal_path path) w) as (r & w1 & -> & F & T & Hr).
  destruct r as [content|e].
  - destruct Hr as [Hc Hok].
    destruct (JSON5_parse content) as [| |j|v] eqn:Hp.
    + rewrite bind_run. unfold log at 1, emit at 1. cbv beta iota.
      eexists _, _, [_]. split; [done|]. split; [done|].
      split; [simpl; by rewrite T, <- List.app_assoc|].
      split; [by repeat constructor|]. split; [eauto|].
      intros _. by eexists.
    + eexists _, _, []. split; [done|]. split; [done|].
      split; [done|]. split; [done|]. split.
      * intros [Hn|[Hbad|(c & Hc' & Hp')]]; [congruence|done|congruence].
      * intros _. by eexists.
    + eexists _, _, []. split; [done|]. split; [done|].
      split; [done|]. split; [done|]. split.
      * intros [Hn|[Hbad|(c & Hc' & Hp')]]; [congruence|done|congruence].
      * intros Hdoc. specialize (Hdoc content Hc). rewrite Hp in Hdoc.
        exists j. split; [done|]. intros v Hv. simpl in Hdoc.
        by rewrite Hv in Hdoc.
    + eexists _, _, []. split; [done|]. split; [done|].
      split; [done|]. split; [done|]. split.
      * intros [Hn|[Hbad|(c & Hc' & Hp')]]; [congruence|done|congruence].
      * intros Hdoc. specialize (Hdoc content Hc). by rewrite Hp in Hdoc.
  - rewrite bind_run. unfold log at 1, emit at 1. cbv beta iota.
    eexists _, _, [_]. split; [done|]. split; [done|].
    split; [simpl; by rewrite T, <- List.app_assoc|].
    split; [by repeat constructor|]. split; [eauto|].
    intros _. by eexists.
Qed.

(** C9: [loadLastUpdates] always resolves and changes no file. When the
    journal file is missing, cannot be read, or holds text that does not
    parse, it resolves with [{files: {}}], and all that is left of the
    error is a log line after the read. *)
Theorem loadLastUpdates_never_fails path w :
  exists journal w',
    loadLastUpdates path w = (Resolved journal, w')
    /\ fs w' = fs w
    /\ (fs w !! journal_path path = None
        \/ (exists o rest, pending w = o :: rest /\ o <> Succeeds)
        \/ (exists content, fs w !! journal_path path = Some content
                            /\ JSON5_parse content = ParseThrows) ->
        journal = LoadedObject empty_journal
        /\ exists message,
             since w w' = [EReadFile (journal_path path); ELog Info message]).
Proof.
  destruct (loadLastUpdates_run path w)
    as (journal & w' & logs & Hrun & Hfs & Ht & _ & Hbad & _).
  exists journal, w'. split; [done|]. split; [done|].
  intros Hcase. destruct (Hbad Hcase) as (-> & message & ->).
  split; [done|]. exists message. unfold since.
  by rewrite Ht, drop_app_length.
Qed.


Lemma keeps_saveLastUpdates (touch : string -> Prop) (allowed : event -> Prop)
    lastUpdates path :
  touch (journal_path path) ->
  (forall e, stream_event e = true -> allowed e) ->
  (forall e, writeFile_event e = true -> allowed e) ->
  keeps touch allowed (saveLastUpdates lastUpdates path).
Proof.
  intros Ht Hs Hw. unfold saveLastUpdates. fold (journal_path path).
  keeps_auto.
Qed.



(** *** Which calls return a promise *)

Section ReturnsPromise.

Lemma rp_resolve {A} (a : A) : returns_promise (resolve a).
Proof. by intros w e w'. Qed.

Lemma rp_reject {A} e : (forall c, e <> Thrown c) -> returns_promise (@reject A e).
Proof. intros He w c w' [= Heq _]. by apply (He c). Qed.

Lemma rp_emit e : returns_promise (emit e).
Proof. by intros w c w'. Qed.

Lemma rp_log l message : returns_promise (log l message).
Proof. by intros w c w'. Qed.

Lemma rp_bind {A B} (p : promise A) (k : A -> promise B) :
  returns_promise p -> (forall a, returns_promise (k a)) ->
  returns_promise (p ≫= k).
Proof.
  intros Hp Hk w c w'. rewrite bind_run. specialize (Hp w c).
  destruct (p w) as [[a|e] w1]; [apply Hk|].
  intros [= -> ->]. by apply (Hp w').
Qed.

Lemma rp_then_else {A B} (p : promise A) (k : A -> promise B)
    (h : error -> promise B) :
  (forall a, returns_promise (k a)) -> (forall e, returns_promise (h e)) ->
  returns_promise (then_else p k h).
Proof.
  intros Hk Hh w c w'. unfold then_else.
  destruct (p w) as [[a|e] w1]; [apply Hk|apply Hh].
Qed.


Ltac rp_call :=
  let w := fresh "w" in
  let c := fresh "c" in
  let w' := fresh "w" in
  intros w c w'; destruct (next_outcome _) as [? ?];
  repeat case_match; done.

Lemma rp_rename source destination : returns_promise (rename source destination).
Proof. unfold rename. rp_call. Qed.

Lemma rp_copyFile source destination :
  returns_promise (copyFile source destination).
Proof. unfold copyFile. rp_call. Qed.



Lemma rp_readFile path : returns_promise (readFile path).
Proof. unfold readFile. rp_call. Qed.

Lemma rp_writeStream path content : returns_promise (writeStream path content).
Proof. unfold writeStream. rp_call. Qed.

Lemma rp_readStream path : returns_promise (readStream path).
Proof. unfold readStream. rp_call. Qed.

End ReturnsPromise.




Lemma rp_hashFile file algorithm : returns_promise (hashFile file algorithm).
Proof.
  unfold hashFile. apply rp_bind; [apply rp_readStream|].
  intros ?. apply rp_resolve.
Qed.


Lemma rp_downloadFile u localPath options :
  returns_promise (downloadFile u localPath options).
Proof.
  intros w c w'. rewrite downloadFile_run. cbv zeta.
  destruct (remote w u _) as [message|response]; [done|].
  refine ((_ : returns_promise
                 (on_response u localPath (with_defaults options) response))
            _ c w').
  unfold on_response. apply rp_bind; [apply rp_log|]. intros _.
  destruct (_ =? 200)%Z; [|destruct (_ =? 304)%Z].
  - apply rp_then_else; intros ?; [|by apply rp_reject].
    apply rp_bind; [apply rp_log|]. intros _.
    apply rp_bind; [apply rp_hashFile|intros ?; apply rp_resolve].
  - apply rp_resolve.
  - by apply rp_reject.
Qed.


(** One tracked file: what [update_entry] makes of the run of
    [updateFile]. *)
Lemma update_entry_run loaded journal file w :
  update_entry loaded journal file w
  = match updateFile file (default no_update (loaded !! path file)) w with
    | (Resolved newLastUpdate, w1) =>
        (Resolved (<[path file := newLastUpdate]> journal), w1)
    | (Rejected (Thrown e), w1) => (Rejected (Thrown e), w1)
    | (Rejected _, w1) =>
        (Resolved journal, record (ELog Warn "updateFile error") w1)
    end.
Proof.
  unfold update_entry.
  destruct (updateFile file _ w) as [[newLastUpdate|e] w1]; [done|].
  by destruct e.
Qed.










End WithPlatform.


(** The journal file holds [{files:], which does not parse. *)
Lemma loadLastUpdates_never_fails_witness :
  fst (@loadLastUpdates Demo.platform None Demo.corrupt_journal)
  = Resolved (LoadedObject empty_journal).
Proof.
  destruct (@loadLastUpdates_never_fails Demo.platform None Demo.corrupt_journal)
    as (journal & w' & Hrun & _ & Hempty).
  rewrite Hrun. simpl. f_equal. apply Hempty.
  right. right. exists "{files:". split; vm_compute; reflexivity.
Defined.

End JournalProofs.

(** * Further properties *)

(** ** Template expander *)

Module ExpanderMore.
Import JS Expander ExpanderSpec ExpanderProofs Notions.

Lemma contains_rest stop c s :
  contains c s = false -> contains c (snd (span_until stop s)) = false.
Proof.
  induction s as [|c' s IH]; [done|]. simpl.
  intros [Hc Hs]%orb_false_elim.
  destruct (stop c'); simpl; [by rewrite Hc, Hs|].
  specialize (IH Hs). by destruct (span_until stop s).
Qed.

Lemma contains_append c s t :
  contains c (s +:+ t) = contains c s || contains c t.
Proof.
  induction s as [|c' s IH]; [done|].
  rewrite append_cons. simpl. by rewrite IH, orb_assoc.
Qed.

Lemma match_here_needs_dollar s :
  contains "$" s = false -> match_here s = None.
Proof.
  destruct s as [|c s]; [done|]. simpl.
  intros [Hc _]%orb_false_elim. apply Ascii.eqb_neq in Hc.
  unfold match_here.
  destruct c as [[] [] [] [] [] [] [] []]; try done.
Qed.

Lemma match_here_needs_close s :
  contains "}" s = false -> match_here s = None.
Proof.
  intros Hs. destruct (match_here s) as [[m rest]|] eqn:E; [|done].
  exfalso. apply match_here_text in E. rewrite <- E in Hs. clear E.
  unfold segment_text in Hs. rewrite !contains_append in Hs.
  change (contains "}" "}") with true in Hs.
  by rewrite !orb_true_r in Hs.
Qed.

Lemma scan_literals fuel s :
  String.length s < fuel ->
  contains "$" s = false \/ contains "}" s = false ->
  scan fuel s = Some (literals s).
Proof.
  revert s. induction fuel as [|fuel IH]; intros s Hlt Hs; [lia|].
  destruct s as [|c rest]; [done|].
  assert (match_here (String c rest) = None) as Hm.
  { destruct Hs; [by apply match_here_needs_dollar
                 |by apply match_here_needs_close]. }
  cbn [scan]. rewrite Hm. simpl in Hlt.
  rewrite IH; [done|lia|].
  simpl in Hs. destruct Hs as [Hs|Hs]; apply orb_false_elim in Hs as [_ Hs];
    auto.
Qed.

Lemma replace_all_literals context alwaysExpand s unresolved :
  replace_all context alwaysExpand (literals s) unresolved
  = Returns (s, unresolved).
Proof. induction s as [|c s IH]; [done|]. simpl. by rewrite IH. Qed.

(** X1: a template without a dollar sign, or without a closing brace, has
    nothing to expand: [expand] hands it back as it is, never null,
    whatever the context and [alwaysExpand]. *)
Theorem expand_without_placeholder template context alwaysExpand :
  contains "$" template = false \/ contains "}" template = false ->
  expand template context alwaysExpand = Returns (Some template).
Proof.
  intros Hs. unfold expand, segments.
  rewrite (scan_literals (S (String.length template)) template
             ltac:(lia) Hs). simpl.
  by rewrite replace_all_literals.
Qed.

Lemma expand_without_placeholder_witness :
  expand "https://example.org/{a}?x=1" (VObj []) false
  = Returns (Some "https://example.org/{a}?x=1").
Proof.
  apply expand_without_placeholder. left. vm_compute. reflexivity.
Defined.

(** What is put in place of a match does not depend on [alwaysExpand] nor
    on the flag, and with [alwaysExpand] the flag is left alone. *)
Lemma substitute_text ae ae' u u' m v :
  fst (substitute ae u m v) = fst (substitute ae' u' m v).
Proof.
  unfold substitute. cbv zeta.
  destruct (is_undefined _ || typeof_object _); [|done].
  destruct (is_undefined _ || is_null _); done.
Qed.

Lemma substitute_always u m v : snd (substitute true u m v) = u.
Proof.
  unfold substitute. cbv zeta.
  destruct (is_undefined _ || typeof_object _); [|done].
  destruct (is_undefined _ || is_null _); done.
Qed.

(** With and without [alwaysExpand] the replacement throws alike and
    gives the same text; with it the flag is not set. *)
Lemma replace_all_agree context segs u u' :
  match replace_all context false segs u, replace_all context true segs u' with
  | Throws, Throws => True
  | Returns (r, _), Returns (r', f') => r = r' /\ f' = u'
  | _, _ => False
  end.
Proof.
  revert u u'. induction segs as [|[c|m] segs IH]; intros u u'; simpl.
  - done.
  - specialize (IH u u').
    destruct (replace_all context false segs u) as [|[r f]],
      (replace_all context true segs u') as [|[r' f']]; simpl; try done.
    by destruct IH as [-> ->].
  - unfold replacer.
    destruct (resolve_path (expression m) context) as [|v]; [done|]. simpl.
    pose proof (substitute_text false true u u' m v) as Ht.
    pose proof (substitute_always u' m v) as Hf.
    destruct (substitute false u m v) as [x u1],
      (substitute true u' m v) as [x' u1']. simpl in Ht, Hf. subst x' u1'.
    destruct (ToString x); [done|]. simpl.
    specialize (IH u1 u').
    destruct (replace_all context false segs u1) as [|[r f]],
      (replace_all context true segs u') as [|[r' f']]; simpl; try done.
    by destruct IH as [-> ->].
Qed.

(** X2: with [alwaysExpand] set, [expand] never returns null; and whenever
    it returns a string without [alwaysExpand], it returns the same string
    with it. It throws with [alwaysExpand] exactly when it throws
    without. *)
Theorem expand_always_expands template context :
  expand template context true <> Returns None
  /\ (forall result, expand template context false = Returns (Some result) ->
                     expand template context true = Returns (Some result))
  /\ (expand template context true = Throws
      <-> expand template context false = Throws).
Proof.
  unfold expand.
  pose proof (replace_all_agree context (segments template) false false) as Ha.
  destruct (replace_all context false (segments template) false) as [|[r f]],
    (replace_all context true (segments template) false) as [|[r' f']];
    simpl; try done.
  destruct Ha as [-> ->]. split; [done|]. split; [|done].
  intros result. by destruct f.
Qed.

Lemma expand_always_expands_witness :
  expand "${a.b.c}/${a.x?no}" example_context true
  = Returns (Some "result/no").
Proof.
  apply (proj1 (proj2 (expand_always_expands "${a.b.c}/${a.x?no}"
                         example_context))).
  vm_compute. reflexivity.
Defined.

Lemma replace_all_defaults context ae segs u r f :
  Forall (fun m => is_Some (defaultValue m)) (holes segs) ->
  replace_all context ae segs u = Returns (r, f) -> f = u.
Proof.
  revert u r. induction segs as [|[c|m] segs IH]; intros u r Hall; simpl.
  - by intros [= _ <-].
  - simpl in Hall.
    destruct (replace_all context ae segs u) as [|[r' f']] eqn:E; [done|].
    simpl. intros [= _ <-]. by apply (IH u r').
  - simpl in Hall. apply Forall_cons in Hall as [[d Hd] Hall].
    unfold replacer.
    destruct (resolve_path (expression m) context) as [|v]; [done|]. simpl.
    assert (snd (substitute ae u m v) = u) as Hs.
    { unfold substitute, defaultGroup. rewrite Hd. simpl.
      by destruct (is_undefined _ || typeof_object _). }
    destruct (substitute ae u m v) as [x u1]. simpl in Hs. subst u1.
    destruct (ToString x); [done|]. simpl.
    destruct (replace_all context ae segs u) as [|[r' f']] eqn:E; [done|].
    simpl. intros [= _ <-]. by apply (IH u r').
Qed.

(** X3: a template all of whose placeholders have the [?default] form
    always expands: [expand] does not return null, whatever the context
    lacks. *)
Theorem expand_with_defaults_is_not_null template context alwaysExpand :
  Forall (fun m => is_Some (defaultValue m)) (holes (segments template)) ->
  expand template context alwaysExpand <> Returns None.
Proof.
  intros Hall. unfold expand.
  destruct (replace_all context alwaysExpand (segments template) false)
    as [|[r f]] eqn:E; [done|].
  apply (replace_all_defaults _ _ _ _ _ _ Hall) in E as ->. done.
Qed.

Lemma expand_with_defaults_is_not_null_witness :
  expand "https://${host?localhost}/${dir?}" (VObj []) false <> Returns None.
Proof.
  apply expand_with_defaults_is_not_null.
  vm_compute. repeat constructor; eauto.
Defined.

Lemma span_until_expression e c rest :
  plain_expression e -> is_query_or_close c = true ->
  span_until is_query_or_close (e +:+ String c rest) = (e, String c rest).
Proof.
  intros [Hq Hc] Hstop. induction e as [|c' e IH].
  - simpl. change ("" +:+ String c rest) with (String c rest). simpl.
    by rewrite Hstop.
  - simpl in Hq, Hc.
    apply orb_false_elim in Hq as [Hq1 Hq2].
    apply orb_false_elim in Hc as [Hc1 Hc2].
    rewrite append_cons. simpl. unfold is_query_or_close at 1.
    rewrite Hq1, Hc1. simpl. by rewrite (IH Hq2 Hc2).
Qed.

Lemma span_until_default d rest :
  contains "}" d = false ->
  span_until is_close (d +:+ String "}"%char rest) = (d, String "}"%char rest).
Proof.
  intros Hc. induction d as [|c' d IH]; [done|].
  simpl in Hc. apply orb_false_elim in Hc as [Hc1 Hc2].
  rewrite append_cons. simpl. unfold is_close at 1. rewrite Hc1.
  by rewrite (IH Hc2).
Qed.

Lemma match_here_bare e rest :
  plain_expression e ->
  match_here (bare_placeholder e +:+ rest)
  = Some ({| expression := e; defaultValue := None |}, rest).
Proof.
  intros He. unfold bare_placeholder.
  change (("${" +:+ e +:+ "}") +:+ rest)
    with (String "$"%char (String "{"%char ((e +:+ "}") +:+ rest))).
  rewrite append_assoc. change ("}" +:+ rest) with (String "}"%char rest).
  unfold match_here.
  by rewrite (span_until_expression e "}"%char rest He eq_refl).
Qed.

Lemma match_here_with_default e d rest :
  plain_expression e -> contains "}" d = false ->
  match_here (placeholder_with_default e d +:+ rest)
  = Some ({| expression := e; defaultValue := Some d |}, rest).
Proof.
  intros He Hd. unfold placeholder_with_default.
  change (("${" +:+ e +:+ "?" +:+ d +:+ "}") +:+ rest)
    with (String "$"%char (String "{"%char ((e +:+ "?" +:+ d +:+ "}") +:+ rest))).
  rewrite append_assoc.
  change (("?" +:+ d +:+ "}") +:+ rest)
    with (String "?"%char ((d +:+ "}") +:+ rest)).
  rewrite append_assoc. change ("}" +:+ rest) with (String "}"%char rest).
  unfold match_here.
  rewrite (span_until_expression e "?"%char _ He eq_refl).
  by rewrite (span_until_default d rest Hd).
Qed.

(** A template that is one placeholder is read as that placeholder. *)
Lemma segments_single m s :
  match_here s = Some (m, "") -> segments s = [Hole m].
Proof.
  intros Hm. unfold segments.
  destruct s as [|c rest]; [done|]. cbn [String.length scan]. by rewrite Hm.
Qed.

Lemma append_empty s : s +:+ "" = s.
Proof. induction s as [|c s IH]; [done|]. rewrite append_cons. by f_equal. Qed.

Lemma expand_single m s context alwaysExpand :
  match_here s = Some (m, "") ->
  expand s context alwaysExpand
  = and_so (resolve_path (expression m) context)
      (fun found =>
         and_so (ToString (fst (substitute alwaysExpand false m found)))
           (fun text =>
              Returns (if snd (substitute alwaysExpand false m found)
                       then None else Some text))).
Proof.
  intros Hm. unfold expand. rewrite (segments_single _ _ Hm). simpl.
  unfold replacer.
  destruct (resolve_path (expression m) context) as [|found]; [done|]. simpl.
  destruct (substitute alwaysExpand false m found) as [v u]. simpl.
  destruct (ToString v) as [|text]; [done|]. simpl.
  by rewrite append_empty.
Qed.

(** X4: one placeholder, any expression and default. When the path leads
    to a boolean, number or string, both forms expand to that value's
    text; when it leads nowhere (undefined) or to null, the form with a
    default expands to the default, and the bare form to null, or to the
    empty string under [alwaysExpand]; when the lookup throws, both forms
    throw. *)
Theorem expand_single_placeholder e d context :
  plain_expression e -> contains "}" d = false ->
  (forall v, resolve_path e context = Returns v ->
     defined_scalar v = true ->
     forall alwaysExpand,
       expand (bare_placeholder e) context alwaysExpand
       = Returns (Some (scalar_text v))
       /\ expand (placeholder_with_default e d) context alwaysExpand
          = Returns (Some (scalar_text v)))
  /\ (resolve_path e context = Returns VUndefined
      \/ resolve_path e context = Returns VNull ->
      (forall alwaysExpand,
         expand (placeholder_with_default e d) context alwaysExpand
         = Returns (Some d))
      /\ expand (bare_placeholder e) context false = Returns None
      /\ expand (bare_placeholder e) context true = Returns (Some ""))
  /\ (resolve_path e context = Throws ->
      forall alwaysExpand,
        expand (bare_placeholder e) context alwaysExpand = Throws
        /\ expand (placeholder_with_default e d) context alwaysExpand = Throws).
Proof.
  intros He Hd.
  pose proof (match_here_bare e "" He) as Hb.
  pose proof (match_here_with_default e d "" He Hd) as Hw.
  rewrite append_empty in Hb, Hw.
  split; [|split].
  - intros v Hv Hs ae.
    rewrite (expand_single _ _ _ _ Hb), (expand_single _ _ _ _ Hw).
    simpl expression. rewrite Hv. simpl.
    by destruct v as [| |[]| | | |].
  - intros Hv. split; [intros ae|split].
    + rewrite (expand_single _ _ _ _ Hw). simpl expression.
      by destruct Hv as [-> | ->].
    + rewrite (expand_single _ _ _ _ Hb). simpl expression.
      by destruct Hv as [-> | ->].
    + rewrite (expand_single _ _ _ _ Hb). simpl expression.
      by destruct Hv as [-> | ->].
  - intros Hv ae.
    rewrite (expand_single _ _ _ _ Hb), (expand_single _ _ _ _ Hw).
    simpl expression. by rewrite Hv.
Qed.

Lemma expand_single_placeholder_witness :
  expand (placeholder_with_default "a.x" "no") example_context false
  = Returns (Some "no").
Proof.
  apply (expand_single_placeholder "a.x" "no" example_context).
  - split; vm_compute; reflexivity.
  - vm_compute. reflexivity.
  - left. vm_compute. reflexivity.
Defined.

(** X5: one placeholder whose path leads to an object or an array. With a
    default it expands to the default. Without one it does not count as
    unresolved: [expand] returns the value's string form, never null; for
    an object that is [[object Object]], unless the object has an own
    property named [toString], and then [expand] throws. *)
Theorem expand_composite_placeholder e d context v alwaysExpand :
  plain_expression e -> contains "}" d = false ->
  resolve_path e context = Returns v ->
  typeof_object v = true ->
  v <> VNull ->
  expand (placeholder_with_default e d) context alwaysExpand = Returns (Some d)
  /\ expand (bare_placeholder e) context alwaysExpand
     = and_so (ToString v) (fun text => Returns (Some text))
  /\ (forall fields, v = VObj fields ->
        expand (bare_placeholder e) context alwaysExpand
        = if shadows "toString" v then Throws
          else Returns (Some "[object Object]")).
Proof.
  intros He Hd Hv Hobj Hnull.
  pose proof (match_here_bare e "" He) as Hb.
  pose proof (match_here_with_default e d "" He Hd) as Hw.
  rewrite append_empty in Hb, Hw.
  rewrite (expand_single _ _ _ _ Hb), (expand_single _ _ _ _ Hw).
  simpl expression. rewrite Hv. simpl.
  destruct v as [| |b|falsy text|str|fields|items]; try done.
  split; [done|]. split.
  - simpl. by destruct (bool_decide _).
  - intros fields' _. simpl. by destruct (bool_decide _).
Qed.

Lemma expand_composite_placeholder_witness :
  expand (bare_placeholder "a.b") example_context false
  = Returns (Some "[object Object]").
Proof.
  destruct (expand_composite_placeholder "a.b" "" example_context
              (VObj [("c", VStr "result")]) false)
    as (_ & _ & Hobj).
  - split; vm_compute; reflexivity.
  - vm_compute. reflexivity.
  - vm_compute. reflexivity.
  - vm_compute. reflexivity.
  - discriminate.
  - rewrite (Hobj _ eq_refl). vm_compute. reflexivity.
Defined.

Lemma split_dot_aux_append acc a b :
  split_dot_aux acc (a +:+ String "."%char b)
  = split_dot_aux acc a ++ split_dot_aux "" b.
Proof.
  revert acc. induction a as [|c a IH]; intros acc; [done|].
  rewrite append_cons. simpl.
  destruct (Ascii.eqb c "."%char); [by rewrite IH|apply IH].
Qed.

Lemma split_dot_aux_not_nil acc s : split_dot_aux acc s <> [].
Proof.
  revert acc. induction s as [|c s IH]; intros acc; [done|]. simpl.
  destruct (Ascii.eqb c "."%char); [done|apply IH].
Qed.

Lemma split_dot_append a b :
  split_dot (a +:+ "." +:+ b) = split_dot a ++ split_dot b.
Proof.
  unfold split_dot. change ("." +:+ b) with (String "."%char b).
  apply split_dot_aux_append.
Qed.

Lemma reduce_app properties more parent :
  reduce (properties ++ more) parent
  = and_so (reduce properties parent) (reduce more).
Proof.
  revert parent. induction properties as [|p rest IH]; intros parent; [done|].
  simpl. destruct (descend parent p) as [|v]; [done|]. simpl. apply IH.
Qed.

Lemma reduce_falsy parent properties :
  truthy parent = false -> properties <> [] ->
  reduce properties parent = Returns VUndefined.
Proof.
  intros Hf Hne. destruct properties as [|p ps]; [done|]. simpl.
  unfold descend at 1. rewrite Hf. simpl. clear.
  induction ps as [|q ps IH]; [done|]. simpl. exact IH.
Qed.

(** X6: dotted paths compose: looking up [a.b] is looking up [b] in what
    [a] leads to. So when [a] leads to nothing, or to a falsy value (null,
    false, 0, the empty string), [a.b] is undefined rather than an
    error. *)
Theorem resolve_path_composes a b context :
  resolve_path (a +:+ "." +:+ b) context
  = and_so (resolve_path a context) (resolve_path b)
  /\ (forall v, resolve_path a context = Returns v -> truthy v = false ->
        resolve_path (a +:+ "." +:+ b) context = Returns VUndefined).
Proof.
  assert (resolve_path (a +:+ "." +:+ b) context
          = and_so (resolve_path a context) (resolve_path b)) as Hc.
  { unfold resolve_path. by rewrite split_dot_append, reduce_app. }
  split; [done|]. intros v Hv Hf. rewrite Hc, Hv. simpl. unfold resolve_path.
  apply reduce_falsy; [done|]. apply split_dot_aux_not_nil.
Qed.

Lemma resolve_path_composes_witness :
  resolve_path ("missing" +:+ "." +:+ "b.c") example_context
  = Returns VUndefined.
Proof.
  apply (proj2 (resolve_path_composes "missing" "b.c" example_context)
           VUndefined).
  - vm_compute. reflexivity.
  - reflexivity.
Defined.

End ExpanderMore.

(** ** When nothing fails *)

Module Calm.
Import Fs EnvProofs CommitProofs DownloadProofs configUpdater Notions.

Lemma calmly_trans w1 w2 w3 : calmly w1 w2 -> calmly w2 w3 -> calmly w1 w3.
Proof. intros [? ?] [? ?]. split; congruence. Qed.

Lemma next_outcome_calm w : pending w = [] -> next_outcome w = (Succeeds, w).
Proof. unfold next_outcome. by intros ->. Qed.

Ltac calm_call Hp :=
  eexists; split;
  [ rewrite next_outcome_calm by (simpl; exact Hp); simpl;
    repeat match goal with H : _ !! _ = _ |- _ => rewrite H end; reflexivity
  | repeat split; simpl; try done ].

Lemma rename_calm source destination content w :
  pending w = [] -> fs w !! source = Some content ->
  exists w', rename source destination w = (Resolved tt, w')
    /\ calmly w w'
    /\ fs w' = <[destination := content]> (delete source (fs w)).
Proof. intros Hp Hc. unfold rename. calm_call Hp. Qed.

Lemma copyFile_calm source destination content w :
  pending w = [] -> fs w !! source = Some content ->
  exists w', copyFile source destination w = (Resolved tt, w')
    /\ calmly w w'
    /\ fs w' = <[destination := content]> (fs w).
Proof. intros Hp Hc. unfold copyFile. calm_call Hp. Qed.

Lemma unlinkSync_calm path content w :
  pending w = [] -> fs w !! path = Some content ->
  exists w', unlinkSync path w = (Resolved tt, w')
    /\ calmly w w'
    /\ fs w' = delete path (fs w).
Proof. intros Hp Hc. unfold unlinkSync. calm_call Hp. Qed.

Lemma ensure_directory_calm destDir w :
  pending w = [] ->
  exists w', ensure_directory destDir w = (Resolved tt, w')
    /\ calmly w w'
    /\ fs w' = fs w.
Proof. intros Hp. unfold ensure_directory. calm_call Hp. Qed.

Lemma readFile_calm path content w :
  pending w = [] -> fs w !! path = Some content ->
  exists w', readFile path w = (Resolved content, w')
    /\ calmly w w'
    /\ fs w' = fs w.
Proof. intros Hp Hc. unfold readFile. calm_call Hp. Qed.

Lemma writeStream_calm path content w :
  pending w = [] ->
  exists w', writeStream path content w = (Resolved tt, w')
    /\ calmly w w'
    /\ fs w' = <[path := content]> (fs w).
Proof. intros Hp. unfold writeStream. calm_call Hp. Qed.

Lemma writeFile_calm path content w :
  pending w = [] ->
  exists w', writeFile path content w = (Resolved tt, w')
    /\ calmly w w'
    /\ fs w' = <[path := content]> (fs w).
Proof. intros Hp. unfold writeFile. calm_call Hp. Qed.

Lemma readStream_calm path content w :
  pending w = [] -> fs w !! path = Some content ->
  exists w', readStream path w = (Resolved content, w')
    /\ calmly w w'
    /\ fs w' = fs w.
Proof. intros Hp Hc. unfold readStream. calm_call Hp. Qed.

Section WithPlatform.
Context `{Platform}.

Lemma hashFile_calm file algorithm content w :
  pending w = [] -> fs w !! file = Some content ->
  exists w',
    hashFile file algorithm w
    = (Resolved (digest (if present algorithm then default "" algorithm
                         else "sha512") content), w')
    /\ calmly w w'
    /\ fs w' = fs w.
Proof.
  intros Hp Hc. unfold hashFile. rewrite bind_run.
  destruct (readStream_calm file content w Hp Hc) as (w' & -> & Hcalm & Hfs).
  by exists w'.
Qed.

Lemma validateJSON_calm file content w :
  pending w = [] -> fs w !! file = Some content ->
  exists w',
    validateJSON file w
    = (Resolved (JSON_parses content || JSON5_parses content), w')
    /\ calmly w w'
    /\ fs w' = fs w.
Proof.
  intros Hp Hc. unfold validateJSON, then_else.
  destruct (readFile_calm file content w Hp Hc) as (w' & -> & Hcalm & Hfs).
  exists w'. split; [|done]. unfold resolve.
  by destruct (JSON_parses content), (JSON5_parses content).
Qed.

Lemma moveFile_copy_calm source destination content w :
  pending w = [] -> fs w !! source = Some content ->
  exists w',
    moveFile_copy source destination w = (Resolved true, w')
    /\ calmly w w'
    /\ fs w' = <[destination := content]> (fs w).
Proof.
  intros Hp Hc. unfold moveFile_copy. rewrite bind_run.
  destruct (ensure_directory_calm (path_dirname destination) w Hp)
    as (w1 & -> & [Hp1 Hr1] & Hfs1).
  unfold then_else.
  destruct (copyFile_calm source destination content w1 Hp1)
    as (w2 & -> & [Hp2 Hr2] & Hfs2); [by rewrite Hfs1|].
  exists w2. split; [done|]. split; [split; congruence|]. by rewrite Hfs2, Hfs1.
Qed.

Lemma moveFile_rename_calm source destination content w :
  pending w = [] -> fs w !! source = Some content ->
  exists w',
    moveFile source destination false w = (Resolved false, w')
    /\ calmly w w'
    /\ fs w' = <[destination := content]> (delete source (fs w)).
Proof.
  intros Hp Hc. unfold moveFile. rewrite bind_run.
  destruct (ensure_directory_calm (path_dirname destination) w Hp)
    as (w1 & -> & [Hp1 Hr1] & Hfs1).
  unfold then_else.
  destruct (rename_calm source destination content w1 Hp1)
    as (w2 & -> & [Hp2 Hr2] & Hfs2); [by rewrite Hfs1|].
  exists w2. split; [done|]. split; [split; congruence|]. by rewrite Hfs2, Hfs1.
Qed.

Lemma downloadFile_calm url localPath options response w :
  pending w = [] ->
  remote w url (request_headers (with_defaults options)) = NetResponse response ->
  statusCode response = 200%Z ->
  exists w',
    downloadFile url localPath options w
    = (Resolved (Downloaded
                   (digest (if present (opt_hashAlgorithm (with_defaults options))
                            then default "" (opt_hashAlgorithm (with_defaults options))
                            else "sha512") (body response))
                   (result_etag (header_etag response))
                   (result_date (header_last_modified response))), w')
    /\ calmly w w'
    /\ fs w' = <[localPath := body response]> (fs w).
Proof.
  intros Hp Hremote Hstatus. rewrite downloadFile_run. cbv zeta.
  rewrite Hremote, (on_response_200 _ _ _ _ _ Hstatus).
  match goal with
  | |- context [writeStream ?a ?b ?c] =>
      destruct (writeStream_calm a b c ltac:(done))
        as (w1 & -> & [Hp1 Hr1] & Hfs1)
  end.
  match goal with
  | |- context [hashFile ?a ?b ?c] =>
      destruct (hashFile_calm a b (body response) c ltac:(done))
        as (w2 & -> & [Hp2 Hr2] & Hfs2)
  end.
  { simpl. by rewrite Hfs1, lookup_insert_eq. }
  exists w2. split; [done|]. split; [split; [done|]|].
  - rewrite Hr2. simpl. by rewrite Hr1.
  - by rewrite Hfs2.
Qed.

End WithPlatform.
End Calm.

(** ** Downloading, hashing, validating *)

Module DownloadMore.
Import Fs EnvProofs CommitProofs DownloadProofs configUpdater Notions Calm.

Lemma since_app w w' d : trace w' = trace w ++ d -> since w w' = d.
Proof. unfold since. intros ->. by rewrite drop_app_length. Qed.

Section WithPlatform.
Context `{Platform}.

Lemma downloadFile_refused url localPath options w :
  not_ok (remote w url (request_headers (with_defaults options))) ->
  exists w',
    downloadFile url localPath options w
    = (refusal url (remote w url (request_headers (with_defaults options))), w')
    /\ fs w' = fs w
    /\ pending w' = pending w
    /\ remote w' = remote w
    /\ rng w' = rng w
    /\ trace w' = trace w
         ++ refusal_calls url (request_headers (with_defaults options))
              (remote w url (request_headers (with_defaults options))).
Proof.
  intros Hno. rewrite downloadFile_run. cbv zeta.
  destruct (remote w url _) as [message|response] eqn:Hremote; simpl in *.
  - eexists. split; [reflexivity|]. simpl. by rewrite <- ?List.app_assoc.
  - unfold on_response. rewrite bind_run. simpl.
    apply Z.eqb_neq in Hno. rewrite Hno.
    destruct (statusCode response =? 304)%Z;
      (eexists; split; [reflexivity|]; simpl; by rewrite <- ?List.app_assoc).
Qed.

(** X7. When the server's answer is anything but a 200 response,
    [downloadFile] writes and opens no file and makes no call that can
    fail: it resolves with [{notModified: true}] on a 304 response and
    rejects on every other status and on a transport error, the only calls
    being the log lines and the one request. *)
Theorem downloadFile_without_200 url localPath options w :
  not_ok (remote w url (request_headers (with_defaults options))) ->
  fst (downloadFile url localPath options w)
  = refusal url (remote w url (request_headers (with_defaults options)))
  /\ fs (snd (downloadFile url localPath options w)) = fs w
  /\ pending (snd (downloadFile url localPath options w)) = pending w
  /\ since w (snd (downloadFile url localPath options w))
     = refusal_calls url (request_headers (with_defaults options))
         (remote w url (request_headers (with_defaults options)))
  /\ (forall r, remote w url (request_headers (with_defaults options))
                = NetResponse r ->
        (statusCode r = 304%Z ->
         fst (downloadFile url localPath options w) = Resolved NotModified)
        /\ (statusCode r <> 304%Z ->
            fst (downloadFile url localPath options w)
            = Rejected (DownloadFailed url (Some (statusCode r))))).
Proof.
  intros Hno.
  destruct (downloadFile_refused url localPath options w Hno)
    as (w' & -> & Hfs & Hp & _ & _ & Ht).
  simpl. repeat split; try done.
  - by apply since_app.
  - intros H304. rewrite H0. simpl. by rewrite H304.
  - intros H304. rewrite H0. simpl. apply Z.eqb_neq in H304. by rewrite H304.
Qed.

(** X8. Whenever [downloadFile] resolves with a hash, the answer was a 200
    response, the file at [localPath] holds the whole body and the hash is
    the digest of that body under the requested algorithm (sha512 when none
    or an empty one is given); whatever the outcome, no file other than
    [localPath] is changed, and the only file calls are streams. *)
Theorem downloadFile_stores_and_hashes_body url localPath options w :
  (forall h e d w',
      downloadFile url localPath options w = (Resolved (Downloaded h e d), w') ->
      exists response,
        remote w url (request_headers (with_defaults options))
        = NetResponse response
        /\ statusCode response = 200%Z
        /\ fs w' = <[localPath := body response]> (fs w)
        /\ h = digest (match options with
                       | Some {| opt_hashAlgorithm := Some a |} =>
                           if JS.truthy_string a then a else "sha512"
                       | _ => "sha512"
                       end) (body response))
  /\ (forall p, p <> localPath ->
        fs (snd (downloadFile url localPath options w)) !! p = fs w !! p)
  /\ Forall (fun e => stream_event e = true \/ request_event e = true)
       (since w (snd (downloadFile url localPath options w))).
Proof.
  split; [|split].
  - intros h e d w' Hrun.
    apply downloadFile_downloaded in Hrun
      as (response & Hremote & Hstatus & -> & _ & _ & Hfs).
    exists response. repeat split; try done. f_equal.
    destruct options as [[? ? [a|]]|]; simpl; try done.
  - intros p Hp.
    pose proof (keeps_downloadFile (fun q => q = localPath)
                  (fun e => stream_event e = true \/ request_event e = true)
                  url localPath options eq_refl
                  ltac:(by left) ltac:(by right) w) as Hk.
    by apply (within_fs _ _ _ _ Hk).
  - pose proof (keeps_downloadFile (fun q => q = localPath)
                  (fun e => stream_event e = true \/ request_event e = true)
                  url localPath options eq_refl
                  ltac:(by left) ltac:(by right) w) as Hk.
    by apply within_since in Hk as [_ ?].
Qed.

(** X9. [hashFile] without an algorithm, or with an empty one, is
    [hashFile] with sha512. It never changes a file; it rejects when the
    file does not exist; and whatever it resolves with is the digest of the
    file's whole content. With sha512, an existing file and no failure it
    resolves. *)
Theorem hashFile_digest file algorithm w :
  hashFile file None w = hashFile file (Some "sha512") w
  /\ hashFile file (Some "") w = hashFile file (Some "sha512") w
  /\ fs (snd (hashFile file algorithm w)) = fs w
  /\ (fs w !! file = None ->
      exists e, fst (hashFile file algorithm w) = Rejected e)
  /\ (forall h, fst (hashFile file algorithm w) = Resolved h ->
        exists content,
          fs w !! file = Some content
          /\ h = digest (match algorithm with
                         | Some a => if JS.truthy_string a then a else "sha512"
                         | None => "sha512"
                         end) content)
  /\ (forall content, fs w !! file = Some content -> pending w = [] ->
        fst (hashFile file None w) = Resolved (digest "sha512" content)).
Proof.
  split; [done|]. split; [done|]. split; [|split; [|split]].
  - pose proof (keeps_hashFile (fun _ => False) (fun e => stream_event e = true)
                  file algorithm ltac:(done) w) as Hk.
    by apply within_nothing in Hk.
  - intros Hnone.
    destruct (hashFile file algorithm w) as [[h|e] w'] eqn:Hrun; [|by exists e].
    apply hashFile_resolved in Hrun as (content & Hc & _). congruence.
  - intros h Hh. apply run_resolved in Hh.
    apply hashFile_resolved in Hh as (content & Hc & -> & _).
    exists content. split; [done|]. by destruct algorithm.
  - intros content Hc Hp.
    by destruct (hashFile_calm file None content w Hp Hc) as (w' & -> & _).
Qed.

(** X10. [validateJSON] never changes a file. It rejects when the file
    cannot be read, in particular when it is missing; when it resolves, the
    file was read and the answer is true exactly when [JSON.parse] or
    [JSON5.parse] accepts its content; with the file in place and no
    failure it resolves. *)
Theorem validateJSON_verdict file w :
  fs (snd (validateJSON file w)) = fs w
  /\ (fs w !! file = None ->
      fst (validateJSON file w) = Rejected (ValidateFailed file))
  /\ (forall e, fst (validateJSON file w) = Rejected e -> e = ValidateFailed file)
  /\ (forall valid, fst (validateJSON file w) = Resolved valid ->
        exists content,
          fs w !! file = Some content
          /\ valid = JSON_parses content || JSON5_parses content)
  /\ (forall content, fs w !! file = Some content -> pending w = [] ->
        fst (validateJSON file w)
        = Resolved (JSON_parses content || JSON5_parses content)).
Proof.
  assert (Hcalm : forall content, fs w !! file = Some content -> pending w = [] ->
            fst (validateJSON file w)
            = Resolved (JSON_parses content || JSON5_parses content)).
  { intros content Hc Hp.
    by destruct (validateJSON_calm file content w Hp Hc) as (w' & -> & _). }
  split; [|split; [|split; [|split]]]; [| | | |exact Hcalm].
  - pose proof (keeps_validateJSON (fun _ => False) (fun e => e = EReadFile file)
                  file eq_refl w) as Hk.
    by apply within_nothing in Hk.
  - intros Hnone. unfold validateJSON, then_else.
    destruct (JournalProofs.readFile_run file w) as (r & w1 & -> & _ & _ & Hr).
    destruct r as [content|e]; [|done]. destruct Hr as [Hc _]. congruence.
  - unfold validateJSON, then_else. intros e.
    destruct (readFile file w) as [[content|e'] w1]; simpl; congruence.
  - unfold validateJSON, then_else. intros valid.
    destruct (JournalProofs.readFile_run file w) as (r & w1 & -> & _ & _ & Hr).
    destruct r as [content|e]; [|done]. destruct Hr as [Hc _].
    simpl. intros [= <-]. exists content. split; [done|].
    by destruct (JSON_parses content), (JSON5_parses content).
Qed.

End WithPlatform.

Lemma downloadFile_without_200_witness :
  fst (@downloadFile Demo.platform "https://example.org/f.json" "/tmp/t" None
         Demo.up_to_date)
  = Resolved NotModified
  /\ fs (snd (@downloadFile Demo.platform "https://example.org/f.json" "/tmp/t"
                None Demo.up_to_date)) = fs Demo.up_to_date.
Proof.
  destruct (@downloadFile_without_200 Demo.platform
              "https://example.org/f.json" "/tmp/t" None Demo.up_to_date)
    as (Hfst & Hfs & _).
  - vm_compute. discriminate.
  - split; [|exact Hfs]. rewrite Hfst. reflexivity.
Defined.

End DownloadMore.

(** ** Moving files and installing an update *)

Module CommitMore.
Import Fs EnvProofs CommitProofs configUpdater Notions Calm.

Lemma rename_missing source destination w :
  fs w !! source = None ->
  exists e w', rename source destination w = (Rejected e, w') /\ fs w' = fs w.
Proof.
  intros Hnone. unfold rename.
  destruct (next_outcome _) as [o w1] eqn:E.
  apply next_outcome_same in E as (F & _). simpl in F.
  rewrite F, Hnone. eauto.
Qed.

Lemma copyFile_missing source destination w :
  fs w !! source = None ->
  exists e w', copyFile source destination w = (Rejected e, w') /\ fs w' = fs w.
Proof.
  intros Hnone. unfold copyFile.
  destruct (next_outcome _) as [o w1] eqn:E.
  apply next_outcome_same in E as (F & _). simpl in F.
  rewrite F, Hnone. eauto.
Qed.

Section WithPlatform.
Context `{Platform}.

Lemma moveFile_copy_missing source destination w :
  fs w !! source = None ->
  exists e w', moveFile_copy source destination w = (Rejected e, w')
               /\ fs w' = fs w.
Proof.
  intros Hnone. unfold moveFile_copy. rewrite bind_run.
  destruct (ensure_directory _ w) as [[[]|e1] w1] eqn:E1;
    apply ensure_directory_fs in E1; [|eauto].
  unfold then_else.
  destruct (copyFile_missing source destination w1) as (e & w2 & -> & Hfs);
    [by rewrite E1|].
  eexists _, _. split; [reflexivity|]. by rewrite Hfs.
Qed.

Lemma moveFile_missing source destination copy w :
  fs w !! source = None ->
  exists e w', moveFile source destination copy w = (Rejected e, w')
               /\ fs w' = fs w.
Proof.
  intros Hnone. unfold moveFile. destruct copy.
  { by apply moveFile_copy_missing. }
  rewrite bind_run.
  destruct (ensure_directory _ w) as [[[]|e1] w1] eqn:E1;
    apply ensure_directory_fs in E1; [|eauto].
  unfold then_else.
  destruct (rename_missing source destination w1) as (e & w2 & -> & Hfs);
    [by rewrite E1|].
  destruct (moveFile_copy_missing source destination w2) as (e' & w3 & -> & Hfs');
    [by rewrite Hfs, E1|].
  eexists _, _. split; [reflexivity|]. by rewrite Hfs', Hfs.
Qed.

Lemma moveFile_calm source destination copy content w :
  pending w = [] -> fs w !! source = Some content ->
  exists w',
    moveFile source destination copy w = (Resolved copy, w')
    /\ calmly w w'
    /\ fs w' = if copy then <[destination := content]> (fs w)
               else <[destination := content]> (delete source (fs w)).
Proof.
  intros Hp Hc. destruct copy.
  - by apply moveFile_copy_calm.
  - by apply moveFile_rename_calm.
Qed.

(** X11. [moveFile] never loses the content it moves. Resolving with
    [false] means the file was renamed: the content is at the destination
    and no longer at the source, and this happens only when no copy was
    asked for. Resolving with [true] means it was copied: the content is at
    both places. After a rejection the source still holds it. No third path
    is changed, and with no failure the promise resolves with the [copy]
    argument. *)
Theorem moveFile_never_loses_content source destination copy content w :
  fs w !! source = Some content ->
  source <> destination ->
  match fst (moveFile source destination copy w) with
  | Resolved false =>
      copy = false
      /\ fs (snd (moveFile source destination copy w)) !! source = None
      /\ fs (snd (moveFile source destination copy w)) !! destination
         = Some content
  | Resolved true =>
      fs (snd (moveFile source destination copy w)) !! source = Some content
      /\ fs (snd (moveFile source destination copy w)) !! destination
         = Some content
  | Rejected _ =>
      fs (snd (moveFile source destination copy w)) !! source = Some content
  end
  /\ (forall p, p <> source -> p <> destination ->
        fs (snd (moveFile source destination copy w)) !! p = fs w !! p)
  /\ (pending w = [] ->
      fst (moveFile source destination copy w) = Resolved copy).
Proof.
  intros Hc Hne. split; [|split].
  - destruct (moveFile source destination copy w) as [[b|e] w'] eqn:Hrun; simpl.
    + assert (Hcopy : b = false -> copy = false).
      { intros ->. destruct copy; [|done]. simpl in Hrun.
        by apply moveFile_copy_resolved in Hrun as [? _]. }
      apply moveFile_resolved in Hrun
        as (c & Hc' & [[-> Hfs]|[-> Hfs]]); rewrite Hfs;
        assert (c = content) as -> by congruence.
      * split; [by apply Hcopy|].
        by rewrite lookup_insert_ne, lookup_delete_eq, lookup_insert_eq.
      * by rewrite lookup_insert_ne, lookup_insert_eq.
    + by rewrite (moveFile_rejected _ _ _ _ _ _ Hrun source Hne).
  - intros p Hps Hpd.
    pose proof (keeps_moveFile (fun q => q = source \/ q = destination)
                  (fun e => commit_event e = true) source destination copy
                  ltac:(by left) ltac:(by right) ltac:(done) w) as Hk.
    apply (within_fs _ _ _ _ Hk). by intros [?|?].
  - intros Hp.
    by destruct (moveFile_calm source destination copy content w Hp Hc)
      as (w' & -> & _).
Qed.

(** X12. Moving a file that does not exist rejects, whether a copy was
    asked for or not, and changes no file. *)
Theorem moveFile_of_missing_file source destination copy w :
  fs w !! source = None ->
  (exists e, fst (moveFile source destination copy w) = Rejected e)
  /\ fs (snd (moveFile source destination copy w)) = fs w.
Proof.
  intros Hnone.
  destruct (moveFile_missing source destination copy w Hnone)
    as (e & w' & -> & Hfs).
  split; [by exists e|done].
Qed.

Lemma backupPromise_calm destination old w :
  pending w = [] -> fs w !! destination = Some old ->
  exists w',
    backupPromise destination true w
    = (Resolved (Some (destination +:+ ".previous")), w')
    /\ calmly w w'
    /\ fs w' = <[destination +:+ ".previous" := old]> (delete destination (fs w)).
Proof.
  intros Hp Hc. unfold backupPromise, catch. rewrite bind_run.
  destruct (moveFile_rename_calm destination (destination +:+ ".previous")
              old w Hp Hc) as (w' & -> & Hcalm & Hfs).
  by exists w'.
Qed.

Lemma install_calm source destination new (backupPath : option string) w :
  pending w = [] -> fs w !! source = Some new ->
  exists w',
    (moveFile source destination true ;; unlinkSync source ;;
     resolve backupPath) w
    = (Resolved backupPath, w')
    /\ calmly w w'
    /\ fs w' = delete source (<[destination := new]> (fs w)).
Proof.
  intros Hp Hc. rewrite bind_run.
  destruct (moveFile_copy_calm source destination new w Hp Hc)
    as (w1 & Hrun & [Hp1 Hr1] & Hfs1).
  change (moveFile source destination true) with (moveFile_copy source destination).
  rewrite Hrun, bind_run.
  assert (exists c, fs w1 !! source = Some c) as [c Hc1].
  { rewrite Hfs1. destruct (decide (source = destination)) as [->|Hne].
    - rewrite lookup_insert_eq. eauto.
    - rewrite lookup_insert_ne by done. eauto. }
  destruct (unlinkSync_calm source c w1 Hp1 Hc1) as (w2 & -> & [Hp2 Hr2] & Hfs2).
  exists w2. split; [done|]. split; [split; congruence|].
  by rewrite Hfs2, Hfs1.
Qed.

Lemma applyUpdate_calm source destination new w :
  pending w = [] -> fs w !! source = Some new ->
  source <> destination ->
  source <> destination +:+ ".previous" ->
  exists w',
    applyUpdate source destination w
    = (Resolved (match fs w !! destination with
                 | Some _ => Some (destination +:+ ".previous")
                 | None => None
                 end), w')
    /\ calmly w w'
    /\ fs w' = delete source
                 (<[destination := new]>
                    (match fs w !! destination with
                     | Some old =>
                         <[destination +:+ ".previous" := old]>
                           (delete destination (fs w))
                     | None => fs w
                     end)).
Proof.
  intros Hp Hc Hne Hs. unfold applyUpdate. rewrite bind_run.
  destruct (fs w !! destination) as [old|] eqn:Hd.
  - rewrite (existsSync_true _ _ _ Hd).
    destruct (backupPromise_calm destination old w Hp Hd)
      as (w1 & -> & [Hp1 Hr1] & Hfs1).
    destruct (install_calm source destination new
                (Some (destination +:+ ".previous")) w1 Hp1)
      as (w2 & Hrun & [Hp2 Hr2] & Hfs2).
    { by rewrite Hfs1, lookup_insert_ne, lookup_delete_ne. }
    rewrite Hrun. exists w2. split; [done|]. split; [split; congruence|].
    by rewrite Hfs2, Hfs1.
  - rewrite (existsSync_false _ _ Hd). unfold backupPromise. 
    change (resolve None w) with (@Resolved (option string) None, w).
    destruct (install_calm source destination new None w Hp Hc)
      as (w2 & Hrun & Hcalm & Hfs2).
    rewrite Hrun. by exists w2.
Qed.

(** X13. With no failure, [applyUpdate] of an existing download resolves
    with [destination + ".previous"] when the destination existed and with
    no path when it did not. Afterwards the destination holds the new
    content, the download is gone, the backup path holds the replaced
    content (an older backup is overwritten), and every other file is as
    before; the secondary backup location is not used. *)
Theorem applyUpdate_without_failure source destination new w :
  pending w = [] ->
  fs w !! source = Some new ->
  source <> destination ->
  source <> destination +:+ ".previous" ->
  fst (applyUpdate source destination w)
  = Resolved (match fs w !! destination with
              | Some _ => Some (destination +:+ ".previous")
              | None => None
              end)
  /\ fs (snd (applyUpdate source destination w)) !! destination = Some new
  /\ fs (snd (applyUpdate source destination w)) !! source = None
  /\ fs (snd (applyUpdate source destination w)) !! (destination +:+ ".previous")
     = match fs w !! destination with
       | Some old => Some old
       | None => fs w !! (destination +:+ ".previous")
       end
  /\ (forall p, p <> source -> p <> destination ->
                p <> destination +:+ ".previous" ->
        fs (snd (applyUpdate source destination w)) !! p = fs w !! p).
Proof.
  intros Hp Hc Hne Hs.
  pose proof (previous_is_another_path destination) as Hprev.
  destruct (applyUpdate_calm source destination new w Hp Hc Hne Hs)
    as (w' & -> & _ & Hfs).
  simpl. rewrite Hfs. split; [done|]. split; [|split; [|split]].
  - by rewrite lookup_delete_ne, lookup_insert_eq.
  - by rewrite lookup_delete_eq.
  - rewrite lookup_delete_ne, lookup_insert_ne by done.
    destruct (fs w !! destination); [by rewrite lookup_insert_eq|done].
  - intros p H1 H2 H3.
    rewrite lookup_delete_ne, lookup_insert_ne by done.
    destruct (fs w !! destination);
      [by rewrite lookup_insert_ne, lookup_delete_ne|done].
Qed.

(** X14. Whatever happens, [applyUpdate] changes no file other than the
    download, the destination and the two backup paths, and makes no call
    other than creating directories, renaming, copying and deleting: no
    request, no journal write. *)
Theorem applyUpdate_touches_four_paths source destination w :
  (forall p, p <> source -> p <> destination ->
             p <> destination +:+ ".previous" ->
             p <> fallback_backup (destination +:+ ".previous") ->
     fs (snd (applyUpdate source destination w)) !! p = fs w !! p)
  /\ Forall (fun e => commit_event e = true)
       (since w (snd (applyUpdate source destination w)))
  /\ remote (snd (applyUpdate source destination w)) = remote w.
Proof.
  pose proof (keeps_applyUpdate
                (fun q => q = source \/ q = destination
                          \/ q = destination +:+ ".previous"
                          \/ q = fallback_backup (destination +:+ ".previous"))
                (fun e => commit_event e = true) source destination
                ltac:(by left) ltac:(by right; left)
                ltac:(by right; right; left) ltac:(by right; right; right)
                ltac:(done) w) as Hk.
  split; [|split].
  - intros p H1 H2 H3 H4. apply (within_fs _ _ _ _ Hk).
    by intros [?|[?|[?|?]]].
  - by apply within_since in Hk as [_ ?].
  - apply (within_remote _ _ _ _ Hk).
Qed.

(** X15. [applyUpdate] does not undo its backup. When the destination
    exists but the download does not, and nothing else fails, the promise
    rejects after the destination was renamed to its backup: the
    destination is left without a file and its content is at
    [destination + ".previous"]. *)
Theorem applyUpdate_does_not_restore source destination old w :
  pending w = [] ->
  fs w !! destination = Some old ->
  fs w !! source = None ->
  source <> destination +:+ ".previous" ->
  (exists e, fst (applyUpdate source destination w) = Rejected e)
  /\ fs (snd (applyUpdate source destination w)) !! destination = None
  /\ fs (snd (applyUpdate source destination w)) !! (destination +:+ ".previous")
     = Some old.
Proof.
  intros Hp Hd Hnone Hs.
  pose proof (previous_is_another_path destination) as Hprev.
  unfold applyUpdate. rewrite bind_run, (existsSync_true _ _ _ Hd).
  destruct (backupPromise_calm destination old w Hp Hd)
    as (w1 & -> & _ & Hfs1).
  rewrite bind_run.
  destruct (moveFile_missing source destination true w1)
    as (e & w2 & -> & Hfs2).
  { rewrite Hfs1, lookup_insert_ne, lookup_delete_ne by congruence. done. }
  simpl. rewrite Hfs2, Hfs1. split; [by exists e|]. split.
  - by rewrite lookup_insert_ne, lookup_delete_eq.
  - by rewrite lookup_insert_eq.
Qed.

End WithPlatform.

Lemma moveFile_never_loses_content_witness :
  fst (@moveFile Demo.platform "/cfg/f.json" "/cfg/f.json.previous" false
         Demo.ready_to_install)
  = Resolved false.
Proof.
  apply (@moveFile_never_loses_content Demo.platform "/cfg/f.json"
           "/cfg/f.json.previous" false "{old}" Demo.ready_to_install).
  - vm_compute. reflexivity.
  - discriminate.
  - reflexivity.
Defined.

Lemma moveFile_of_missing_file_witness :
  fs (snd (@moveFile Demo.platform "/tmp/none" "/cfg/f.json" false
             Demo.ready_to_install))
  = fs Demo.ready_to_install.
Proof.
  apply (@moveFile_of_missing_file Demo.platform "/tmp/none" "/cfg/f.json"
           false Demo.ready_to_install).
  vm_compute. reflexivity.
Defined.

Lemma applyUpdate_without_failure_witness :
  fst (@applyUpdate Demo.platform "/tmp/new" "/cfg/f.json" Demo.ready_to_install)
  = Resolved (Some "/cfg/f.json.previous")
  /\ fs (snd (@applyUpdate Demo.platform "/tmp/new" "/cfg/f.json"
                Demo.ready_to_install)) !! "/cfg/f.json" = Some "{new}".
Proof.
  destruct (@applyUpdate_without_failure Demo.platform "/tmp/new" "/cfg/f.json"
              "{new}" Demo.ready_to_install) as (Hfst & Hnew & _).
  - reflexivity.
  - vm_compute. reflexivity.
  - discriminate.
  - discriminate.
  - split; [|exact Hnew]. rewrite Hfst. vm_compute. reflexivity.
Defined.

Lemma applyUpdate_does_not_restore_witness :
  fs (snd (@applyUpdate Demo.platform "/tmp/new" "/cfg/f.json"
             Demo.unchanged_remote)) !! "/cfg/f.json" = None.
Proof.
  apply (@applyUpdate_does_not_restore Demo.platform "/tmp/new" "/cfg/f.json"
           "{}" Demo.unchanged_remote).
  - reflexivity.
  - vm_compute. reflexivity.
  - vm_compute. reflexivity.
  - discriminate.
Defined.

End CommitMore.

(** ** Updating one file *)

Module UpdateFileMore.
Import JS Fs EnvProofs CommitProofs DownloadProofs UpdateFileProofs.
Import configUpdater Notions Calm DownloadMore CommitMore.
Import Expander ExpanderSpec.

Lemma substitute_stays_unresolved alwaysExpand m v :
  snd (substitute alwaysExpand true m v) = true.
Proof.
  unfold substitute. repeat case_match; simpl; done.
Qed.

Lemma replace_all_stays_unresolved context alwaysExpand segs r f :
  replace_all context alwaysExpand segs true = Returns (r, f) -> f = true.
Proof.
  revert r. induction segs as [|[c|m] segs IH]; intros r; simpl.
  - by intros [= _ <-].
  - destruct (replace_all _ _ segs true) as [|[r' f']] eqn:E; [done|].
    simpl. intros [= _ <-]. by apply (IH r').
  - unfold replacer.
    destruct (resolve_path (expression m) context) as [|v]; [done|]. simpl.
    pose proof (substitute_stays_unresolved alwaysExpand m v) as Hs.
    destruct (substitute alwaysExpand true m v) as [x u1]. simpl in Hs.
    subst u1. destruct (ToString x); [done|]. simpl.
    destruct (replace_all _ _ segs true) as [|[r' f']] eqn:E; [done|].
    simpl. intros [= _ <-]. by apply (IH r').
Qed.

Lemma substitute_missing_secret unresolved m v :
  defaultValue m = None -> is_undefined v || is_null v = true ->
  snd (substitute false unresolved m v) = true.
Proof.
  unfold substitute, defaultGroup. intros -> Hv.
  by destruct v.
Qed.

Lemma replace_all_missing_secret context segs unresolved r f :
  Exists (fun m => missing_secret context m = true) (holes segs) ->
  replace_all context false segs unresolved = Returns (r, f) -> f = true.
Proof.
  revert unresolved r. induction segs as [|[c|m] segs IH]; intros u r; simpl.
  - by intros ?%Exists_nil.
  - intros Hex.
    destruct (replace_all _ _ segs u) as [|[r' f']] eqn:E; [done|].
    simpl. intros [= _ <-]. by apply (IH u r').
  - unfold replacer, missing_secret.
    destruct (resolve_path (expression m) context) as [|v] eqn:Hv.
    { by intros _. }
    simpl. intros Hex.
    destruct (substitute false u m v) as [x u1] eqn:Hsub.
    destruct (ToString x); [done|]. simpl.
    destruct (replace_all _ _ segs u1) as [|[r' f']] eqn:E; [done|].
    simpl. intros [= _ <-].
    apply Exists_cons in Hex as [Hm|Hex].
    + rewrite Hv in Hm. apply andb_true_iff in Hm as [Hd Hu].
      apply bool_decide_eq_true in Hd.
      pose proof (substitute_missing_secret u m v Hd Hu) as Hs.
      rewrite Hsub in Hs. simpl in Hs. subst u1.
      by apply (replace_all_stays_unresolved _ _ _ _ _ E).
    + by apply (IH u1 r').
Qed.

(** A placeholder without default whose secret is missing makes the whole
    expansion null, unless it throws. *)
Lemma expand_missing_secret template context :
  Exists (fun m => missing_secret context m = true) (holes (segments template)) ->
  expand template context false <> Throws ->
  expand template context false = Returns None.
Proof.
  intros Hex. unfold expand.
  destruct (replace_all _ _ _ false) as [|[out u]] eqn:E; [done|].
  apply (replace_all_missing_secret _ _ _ _ _ Hex) in E as ->. done.
Qed.

Section WithPlatform.
Context `{Platform}.

Lemma updateFile_no_url update lastUpdate w u :
  expand (url update) getSecrets false = Returns u ->
  present u = false ->
  updateFile update lastUpdate w
  = (Resolved lastUpdate, record (ELog Info "Not updating: no url") w).
Proof. intros Hu Hp. unfold updateFile. by rewrite Hu, Hp. Qed.

(** X16. With an empty url, or a url holding a placeholder without
    default whose secret is undefined or null and whose expansion does not
    throw, [updateFile] makes no request and no file call at all: it
    writes one log line and resolves with the journal entry it was
    given. *)
Theorem updateFile_without_url update lastUpdate w :
  expand (url update) getSecrets false <> Throws ->
  url update = ""
  \/ Exists (fun m => missing_secret getSecrets m = true)
       (holes (segments (url update))) ->
  fst (updateFile update lastUpdate w) = Resolved lastUpdate
  /\ fs (snd (updateFile update lastUpdate w)) = fs w
  /\ pending (snd (updateFile update lastUpdate w)) = pending w
  /\ rng (snd (updateFile update lastUpdate w)) = rng w
  /\ since w (snd (updateFile update lastUpdate w))
     = [ELog Info "Not updating: no url"].
Proof.
  intros Hno Hurl.
  assert (exists u, expand (url update) getSecrets false = Returns u
                    /\ present u = false) as (u & Hu & Hp).
  { destruct Hurl as [Hempty | Hex].
    - exists (Some ""). by rewrite Hempty.
    - exists None. split; [|done]. by apply expand_missing_secret. }
  rewrite (updateFile_no_url _ _ _ _ Hu Hp).
  repeat split; try done. by apply since_app.
Qed.

Lemma hashPromise_world update existing w :
  within (fun _ => False) (fun e => stream_event e = true) w
    (snd (hashPromise update existing w)).
Proof. by apply keeps_hashPromise. Qed.

Lemma downloadPromise_refused update togo u tempFile options w :
  not_ok (remote w u (request_headers (with_defaults options))) ->
  exists w' logs,
    downloadPromise update togo u tempFile options w = (Resolved (None, togo), w')
    /\ fs w' = fs w
    /\ trace w' = trace w
         ++ refusal_calls u (request_headers (with_defaults options))
              (remote w u (request_headers (with_defaults options)))
         ++ logs
    /\ Forall (fun e => stream_event e = true) logs.
Proof.
  intros Hno. unfold downloadPromise, then_else.
  destruct (downloadFile_refused u tempFile options w Hno)
    as (w1 & -> & Hfs & _ & _ & _ & Ht).
  destruct (remote w u _) as [message|response]; simpl in *.
  - rewrite bind_run. unfold log at 1, emit at 1. cbv beta iota.
    eexists _, [_]. split; [reflexivity|]. simpl. split; [done|]. split.
    + rewrite Ht. by rewrite <- ?List.app_assoc.
    + by repeat constructor.
  - destruct (statusCode response =? 304)%Z.
    + exists w1, []. split; [done|]. split; [done|]. split; [|done].
      by rewrite Ht.
    + rewrite bind_run. unfold log at 1, emit at 1. cbv beta iota.
      eexists _, [_]. split; [reflexivity|]. simpl. split; [done|]. split.
      * rewrite Ht. by rewrite <- ?List.app_assoc.
      * by repeat constructor.
Qed.

Lemma refusal_calls_events u headers o :
  Forall (fun e => stream_event e = true \/ request_event e = true)
    (refusal_calls u headers o).
Proof.
  unfold refusal_calls. destruct o; repeat constructor; by (left + right).
Qed.

(** X17. When the server's answer is a transport error or any status other
    than 200 (a 304 among them), [updateFile] resolves with the journal
    entry it was given and leaves every file as it was: no temp file is
    created and nothing is installed, the only calls being log lines, the
    stream that hashes the installed file and the request. *)
Theorem updateFile_keeps_entry_without_200 update lastUpdate w u :
  expand (url update) getSecrets false = Returns (Some u) -> u <> "" ->
  not_ok (remote w u
            (request_headers
               (with_defaults
                  (downloadOptions update lastUpdate
                     (existsSync (path update) w))))) ->
  fst (updateFile update lastUpdate w) = Resolved lastUpdate
  /\ fs (snd (updateFile update lastUpdate w)) = fs w
  /\ Forall (fun e => stream_event e = true \/ request_event e = true)
       (since w (snd (updateFile update lastUpdate w))).
Proof.
  intros Hu Hne Hno. rewrite (updateFile_run _ _ _ _ Hu Hne).
  pose proof (hashPromise_world update (existsSync (path update) w) (tick_rng w))
    as Hk.
  destruct (hashPromise update _ (tick_rng w)) as [[localHash|e] w1] eqn:Eh.
  2:{ destruct (hashPromise_resolves update (existsSync (path update) w)
                  (tick_rng w)) as (? & ? & Heq & _). congruence. }
  simpl in Hk. destruct Hk as [Hfs1 (d1 & Ht1 & Hd1) Hr1].
  simpl in Hr1. rewrite <- Hr1 in Hno.
  destruct (downloadPromise_refused update lastUpdate u (temp_name (rng w)) _
              w1 Hno) as (w2 & logs & -> & Hfs2 & Ht2 & Hlogs).
  unfold commit_if_changed, should_update. simpl.
  split; [done|]. split.
  - rewrite Hfs2. apply map_eq. intros p. rewrite Hfs1 by (by intros []). done.
  - erewrite since_app;
      [|rewrite Ht2, Ht1; change (trace (tick_rng w)) with (trace w);
        rewrite <- ?List.app_assoc; reflexivity].
    apply Forall_app. split.
    { eapply Forall_impl; [exact Hd1|]. by left. }
    apply Forall_app. split; [apply refusal_calls_events|].
    eapply Forall_impl; [exact Hlogs|]. by left.
Qed.

Lemma validateJSON_resolved file w valid w' :
  validateJSON file w = (Resolved valid, w') ->
  exists content,
    fs w !! file = Some content
    /\ valid = JSON_parses content || JSON5_parses content.
Proof.
  unfold validateJSON, then_else.
  destruct (JournalProofs.readFile_run file w) as (r & w1 & -> & _ & _ & Hr).
  destruct r as [content|e]; [|done]. destruct Hr as [Hc _].
  intros [= <- <-]. exists content. split; [done|].
  by destruct (JSON_parses content), (JSON5_parses content).
Qed.

(** A download that passed validation was valid JSON or JSON5. *)
Lemma downloadPromise_valid update togo u tempFile options w h togo' w' :
  isJSON update = true ->
  downloadPromise update togo u tempFile options w
  = (Resolved (Some h, togo'), w') ->
  exists response,
    remote w u (request_headers (with_defaults options)) = NetResponse response
    /\ statusCode response = 200%Z
    /\ JSON_parses (body response) || JSON5_parses (body response) = true.
Proof.
  intros Hjson. unfold downloadPromise, then_else.
  destruct (downloadFile u tempFile options w) as [[[|h' e d]|err] w1] eqn:Ed.
  - done.
  - apply downloadFile_downloaded in Ed
      as (response & Hremote & Hstatus & _ & _ & _ & Hfs).
    rewrite bind_run, Hjson.
    destruct (validateJSON tempFile w1) as [[valid|e'] w2] eqn:Ev; [|done].
    apply validateJSON_resolved in Ev as (content & Hc & ->).
    rewrite Hfs, lookup_insert_eq in Hc. injection Hc as <-.
    destruct (JSON_parses (body response) || JSON5_parses (body response))
      eqn:Hvalid; [|done].
    intros _. by exists response.
  - rewrite bind_run. unfold log at 1, emit at 1. cbv beta iota. done.
Qed.

Lemma stream_is_no_commit e : stream_event e = true -> commit_event e = false.
Proof. by destruct e. Qed.

Lemma request_is_no_commit e : request_event e = true -> commit_event e = false.
Proof. by destruct e. Qed.

(** X18. A file marked as JSON whose download is neither valid JSON nor
    valid JSON5 is never installed: whatever else fails or succeeds,
    [updateFile] makes no call of the commit procedure, changes no file
    other than the temp file, and if it resolves, it resolves with the
    journal entry it was given. *)
Theorem updateFile_never_installs_invalid_json update lastUpdate w u :
  expand (url update) getSecrets false = Returns (Some u) -> u <> "" ->
  isJSON update = true ->
  (forall response,
      remote w u (request_headers
                    (with_defaults
                       (downloadOptions update lastUpdate
                          (existsSync (path update) w))))
      = NetResponse response ->
      JSON_parses (body response) || JSON5_parses (body response) = false) ->
  (forall entry, fst (updateFile update lastUpdate w) = Resolved entry ->
                 entry = lastUpdate)
  /\ Forall (fun e => commit_event e = false)
       (since w (snd (updateFile update lastUpdate w)))
  /\ (forall p, p <> temp_name (rng w) ->
        fs (snd (updateFile update lastUpdate w)) !! p = fs w !! p).
Proof.
  intros Hu Hne Hjson Hbad. rewrite (updateFile_run _ _ _ _ Hu Hne).
  pose proof (keeps_hashPromise (fun q => q = temp_name (rng w))
                (fun e => commit_event e = false)
                update (existsSync (path update) w)
                stream_is_no_commit (tick_rng w)) as Hk1.
  destruct (hashPromise update _ (tick_rng w)) as [[localHash|e] w1] eqn:Eh.
  2:{ destruct (hashPromise_resolves update (existsSync (path update) w)
                  (tick_rng w)) as (? & ? & Heq & _). congruence. }
  simpl in Hk1.
  pose proof (keeps_downloadPromise (fun q => q = temp_name (rng w))
                (fun e => commit_event e = false)
                update lastUpdate u (temp_name (rng w))
                (downloadOptions update lastUpdate (existsSync (path update) w))
                eq_refl stream_is_no_commit request_is_no_commit eq_refl w1)
    as Hk2.
  pose proof (within_trans _ _ _ _ _ Hk1 Hk2) as Hk.
  destruct (downloadPromise update lastUpdate u _ _ w1)
    as [[[downloadHash togo]|e] w2] eqn:Ed; simpl in Hk.
  - destruct downloadHash as [h|].
    + apply (downloadPromise_valid _ _ _ _ _ _ _ _ _ Hjson) in Ed
        as (response & Hremote & _ & Hvalid).
      rewrite (within_remote _ _ _ _ Hk1) in Hremote. simpl in Hremote.
      rewrite (Hbad _ Hremote) in Hvalid. done.
    + apply downloadPromise_resolved in Ed. subst togo.
      unfold commit_if_changed, should_update. simpl.
      split; [by intros entry [= <-]|]. split.
      * by apply within_since in Hk as [_ ?].
      * intros p Hp. by apply (within_fs _ _ _ _ Hk).
  - simpl. split; [done|]. split.
    + by apply within_since in Hk as [_ ?].
    + intros p Hp. by apply (within_fs _ _ _ _ Hk).
Qed.

Lemma hashPromise_calm update w :
  pending w = [] ->
  exists w1,
    hashPromise update (existsSync (path update) w) w
    = (Resolved (digest "sha512" <$> fs w !! path update), w1)
    /\ calmly w w1
    /\ fs w1 = fs w.
Proof.
  intros Hp. unfold hashPromise.
  destruct (fs w !! path update) as [old|] eqn:Hold.
  - rewrite (existsSync_true _ _ _ Hold). unfold catch. rewrite bind_run.
    destruct (hashFile_calm (path update) (Some "sha512") old w Hp Hold)
      as (w1 & -> & Hcalm & Hfs).
    by exists w1.
  - rewrite (existsSync_false _ _ Hold). by exists w.
Qed.

Lemma downloadPromise_calm update togo u tempFile options response w :
  pending w = [] ->
  remote w u (request_headers (with_defaults options)) = NetResponse response ->
  statusCode response = 200%Z ->
  (isJSON update = true ->
   JSON_parses (body response) || JSON5_parses (body response) = true) ->
  exists w',
    downloadPromise update togo u tempFile options w
    = (Resolved
         (Some (digest (if present (opt_hashAlgorithm (with_defaults options))
                        then default "" (opt_hashAlgorithm (with_defaults options))
                        else "sha512") (body response)),
          {| etag := result_etag (header_etag response);
             date := result_date (header_last_modified response);
             previous := previous togo |}), w')
    /\ calmly w w'
    /\ fs w' = <[tempFile := body response]> (fs w).
Proof.
  intros Hp Hremote Hstatus Hvalid. unfold downloadPromise, then_else.
  destruct (downloadFile_calm u tempFile options response w Hp Hremote Hstatus)
    as (w1 & -> & [Hp1 Hr1] & Hfs1).
  rewrite bind_run. destruct (isJSON update).
  - destruct (validateJSON_calm tempFile (body response) w1 Hp1)
      as (w2 & -> & [Hp2 Hr2] & Hfs2).
    { by rewrite Hfs1, lookup_insert_eq. }
    rewrite Hvalid by done. exists w2. split; [done|].
    split; [split; congruence|]. by rewrite Hfs2.
  - by exists w1.
Qed.

(** Installing, from the point where the hash of the installed file is
    settled. *)
Lemma updateFile_installs_after_hash update lastUpdate w u response
    localHash w1 :
  expand (url update) getSecrets false = Returns (Some u) -> u <> "" ->
  hashPromise update (existsSync (path update) w) (tick_rng w)
  = (Resolved localHash, w1) ->
  pending w1 = [] -> fs w1 = fs w -> remote w1 = remote w ->
  remote w u (request_headers
                (with_defaults
                   (downloadOptions update lastUpdate
                      (existsSync (path update) w))))
  = NetResponse response ->
  statusCode response = 200%Z ->
  (isJSON update = true ->
   JSON_parses (body response) || JSON5_parses (body response) = true) ->
  digest "sha512" (body response) <> "" ->
  localHash <> Some (digest "sha512" (body response)) ->
  temp_name (rng w) <> path update ->
  temp_name (rng w) <> path update +:+ ".previous" ->
  fst (updateFile update lastUpdate w)
  = Resolved {| etag := result_etag (header_etag response);
                date := result_date (header_last_modified response);
                previous := match fs w !! path update with
                            | Some _ => Some (path update +:+ ".previous")
                            | None => None
                            end |}
  /\ fs (snd (updateFile update lastUpdate w)) !! path update
     = Some (body response)
  /\ fs (snd (updateFile update lastUpdate w)) !! temp_name (rng w) = None
  /\ fs (snd (updateFile update lastUpdate w)) !! (path update +:+ ".previous")
     = match fs w !! path update with
       | Some old => Some old
       | None => fs w !! (path update +:+ ".previous")
       end
  /\ (forall p, p <> temp_name (rng w) -> p <> path update ->
                p <> path update +:+ ".previous" ->
        fs (snd (updateFile update lastUpdate w)) !! p = fs w !! p).
Proof.
  intros Hu Hne Hrun1 Hp1 Hfs1 Hr1 Hremote Hstatus Hvalid Hdigest Hnew
    Htemp Htemp'.
  pose proof (previous_is_another_path (path update)) as Hprev.
  rewrite (updateFile_run _ _ _ _ Hu Hne), Hrun1.
  destruct (downloadPromise_calm update lastUpdate u (temp_name (rng w))
              (downloadOptions update lastUpdate (existsSync (path update) w))
              response w1 Hp1) as (w2 & -> & [Hp2 Hr2] & Hfs2);
    [by rewrite Hr1|done|done|].
  rewrite download_algorithm.
  unfold commit_if_changed, should_update.
  assert (present (Some (digest "sha512" (body response))) = true) as ->.
  { simpl. by destruct (digest "sha512" (body response)). }
  rewrite bool_decide_eq_false_2 by congruence.
  simpl. rewrite bind_run.
  destruct (applyUpdate_calm (temp_name (rng w)) (path update) (body response)
              w2 Hp2) as (w3 & -> & _ & Hfs3); [|done|done|].
  { by rewrite Hfs2, lookup_insert_eq. }
  simpl. rewrite Hfs3, Hfs2, Hfs1.
  rewrite !lookup_insert_ne by done.
  split; [by destruct (fs w !! path update)|]. split; [|split; [|split]].
  - by rewrite lookup_delete_ne, lookup_insert_eq.
  - by rewrite lookup_delete_eq.
  - rewrite lookup_delete_ne, lookup_insert_ne by done.
    destruct (fs w !! path update); [by rewrite lookup_insert_eq|].
    by rewrite lookup_insert_ne.
  - intros p H1 H2 H3.
    rewrite lookup_delete_ne, lookup_insert_ne by done.
    destruct (fs w !! path update).
    + by rewrite lookup_insert_ne, lookup_delete_ne, lookup_insert_ne.
    + by rewrite lookup_insert_ne.
Qed.

(** X19. With no failure, a 200 response whose body passes validation and
    whose digest differs from the installed file's (or with no file
    installed) is installed: [updateFile] resolves with the response's
    validators and the backup path, which is [path + ".previous"] when a
    file was replaced and none when there was none. Afterwards the target
    holds the body, the backup path holds the replaced content, the temp
    file is gone and every other file is as before. *)
Theorem updateFile_installs_new_content update lastUpdate w u response :
  pending w = [] ->
  expand (url update) getSecrets false = Returns (Some u) -> u <> "" ->
  remote w u (request_headers
                (with_defaults
                   (downloadOptions update lastUpdate
                      (existsSync (path update) w))))
  = NetResponse response ->
  statusCode response = 200%Z ->
  (isJSON update = true ->
   JSON_parses (body response) || JSON5_parses (body response) = true) ->
  digest "sha512" (body response) <> "" ->
  (forall old, fs w !! path update = Some old ->
               digest "sha512" old <> digest "sha512" (body response)) ->
  temp_name (rng w) <> path update ->
  temp_name (rng w) <> path update +:+ ".previous" ->
  fst (updateFile update lastUpdate w)
  = Resolved {| etag := result_etag (header_etag response);
                date := result_date (header_last_modified response);
                previous := match fs w !! path update with
                            | Some _ => Some (path update +:+ ".previous")
                            | None => None
                            end |}
  /\ fs (snd (updateFile update lastUpdate w)) !! path update
     = Some (body response)
  /\ fs (snd (updateFile update lastUpdate w)) !! temp_name (rng w) = None
  /\ fs (snd (updateFile update lastUpdate w)) !! (path update +:+ ".previous")
     = match fs w !! path update with
       | Some old => Some old
       | None => fs w !! (path update +:+ ".previous")
       end
  /\ (forall p, p <> temp_name (rng w) -> p <> path update ->
                p <> path update +:+ ".previous" ->
        fs (snd (updateFile update lastUpdate w)) !! p = fs w !! p).
Proof.
  intros Hp Hu Hne Hremote Hstatus Hvalid Hdigest Hnew Htemp Htemp'.
  destruct (hashPromise_calm update (tick_rng w) Hp)
    as (w1 & Hrun1 & [Hp1 Hr1] & Hfs1).
  change (existsSync (path update) (tick_rng w))
    with (existsSync (path update) w) in Hrun1.
  change (fs (tick_rng w)) with (fs w) in Hrun1, Hfs1.
  change (remote (tick_rng w)) with (remote w) in Hr1.
  apply (updateFile_installs_after_hash update lastUpdate w u response
           _ w1 Hu Hne Hrun1); try done.
  destruct (fs w !! path update) as [old|] eqn:Hold; simpl; [|done].
  intros [= Heq]. by apply (Hnew old).
Qed.

Lemma hashPromise_failing update old o w :
  pending w = [o] -> o <> Succeeds ->
  fs w !! path update = Some old ->
  exists w1,
    hashPromise update (existsSync (path update) w) w = (Resolved None, w1)
    /\ pending w1 = [] /\ fs w1 = fs w /\ remote w1 = remote w.
Proof.
  intros Hp Ho Hold. rewrite (existsSync_true _ _ _ Hold).
  unfold hashPromise, catch. rewrite bind_run.
  unfold hashFile. rewrite bind_run. unfold readStream, next_outcome.
  simpl. rewrite Hp. simpl. rewrite Hold.
  destruct o; [done| |]; rewrite bind_run; unfold log at 1, emit at 1;
    cbv beta iota; eexists; (split; [reflexivity|done]).
Qed.

(** X27. A failure to hash the installed file is not fatal, and it makes
    the comparison of line 214 succeed: when only that hashing fails, a
    valid 200 response is installed even if its content is the very
    content already installed, the backup is overwritten with the replaced
    content, and the entry names the backup. *)
Theorem updateFile_reinstalls_when_hash_fails update lastUpdate w u response
    old o :
  pending w = [o] -> o <> Succeeds ->
  fs w !! path update = Some old ->
  expand (url update) getSecrets false = Returns (Some u) -> u <> "" ->
  remote w u (request_headers
                (with_defaults
                   (downloadOptions update lastUpdate
                      (existsSync (path update) w))))
  = NetResponse response ->
  statusCode response = 200%Z ->
  (isJSON update = true ->
   JSON_parses (body response) || JSON5_parses (body response) = true) ->
  digest "sha512" (body response) <> "" ->
  temp_name (rng w) <> path update ->
  temp_name (rng w) <> path update +:+ ".previous" ->
  fst (updateFile update lastUpdate w)
  = Resolved {| etag := result_etag (header_etag response);
                date := result_date (header_last_modified response);
                previous := Some (path update +:+ ".previous") |}
  /\ fs (snd (updateFile update lastUpdate w)) !! path update
     = Some (body response)
  /\ fs (snd (updateFile update lastUpdate w)) !! (path update +:+ ".previous")
     = Some old
  /\ fs (snd (updateFile update lastUpdate w)) !! temp_name (rng w) = None.
Proof.
  intros Hp Ho Hold Hu Hne Hremote Hstatus Hvalid Hdigest Htemp Htemp'.
  destruct (hashPromise_failing update old o (tick_rng w) Hp Ho Hold)
    as (w1 & Hrun1 & Hp1 & Hfs1 & Hr1).
  change (existsSync (path update) (tick_rng w))
    with (existsSync (path update) w) in Hrun1.
  change (fs (tick_rng w)) with (fs w) in Hfs1.
  change (remote (tick_rng w)) with (remote w) in Hr1.
  destruct (updateFile_installs_after_hash update lastUpdate w u response
              None w1 Hu Hne Hrun1 Hp1 Hfs1 Hr1 Hremote Hstatus Hvalid Hdigest
              ltac:(done) Htemp Htemp') as (Hfst & Hnew & Hgone & Hprev & _).
  rewrite Hold in Hfst, Hprev. done.
Qed.

(** X28. A failed download is not fatal: whatever makes [downloadFile]
    reject (the transport, the status, writing the temp file, hashing it),
    [updateFile] logs a warning and resolves with the journal entry it was
    given, and no file other than the temp file is changed. *)
Theorem updateFile_survives_download_failure update lastUpdate w u e w2 :
  expand (url update) getSecrets false = Returns (Some u) -> u <> "" ->
  downloadFile u (temp_name (rng w))
    (downloadOptions update lastUpdate (existsSync (path update) w))
    (snd (hashPromise update (existsSync (path update) w) (tick_rng w)))
  = (Rejected e, w2) ->
  updateFile update lastUpdate w
  = (Resolved lastUpdate, record (ELog Warn "updateFile: download failed") w2)
  /\ (forall p, p <> temp_name (rng w) -> fs w2 !! p = fs w !! p).
Proof.
  intros Hu Hne Hdown. rewrite (updateFile_run _ _ _ _ Hu Hne).
  pose proof (keeps_hashPromise (fun q => q = temp_name (rng w))
                (fun _ => True) update (existsSync (path update) w)
                ltac:(done) (tick_rng w)) as Hk1.
  destruct (hashPromise_resolves update (existsSync (path update) w)
              (tick_rng w)) as (localHash & w1 & Hrun1 & _).
  rewrite Hrun1 in Hdown, Hk1 |- *. simpl in Hdown, Hk1.
  pose proof (keeps_downloadFile (fun q => q = temp_name (rng w))
                (fun _ => True) u (temp_name (rng w))
                (downloadOptions update lastUpdate (existsSync (path update) w))
                eq_refl ltac:(done) ltac:(done) w1) as Hk2.
  rewrite Hdown in Hk2. simpl in Hk2.
  split.
  - unfold downloadPromise, then_else. rewrite Hdown, bind_run.
    unfold log at 1, emit at 1. cbv beta iota.
    unfold commit_if_changed, should_update. done.
  - intros p Hp. rewrite (within_fs _ _ _ _ Hk2 p Hp).
    by rewrite (within_fs _ _ _ _ Hk1 p Hp).
Qed.

(** One run of [updateFile] in [w] stays within the temp file it names,
    the target and the two backup paths. *)
Lemma updateFile_within (allowed : event -> Prop) update lastUpdate w :
  (forall e, stream_event e = true -> allowed e) ->
  (forall e, request_event e = true -> allowed e) ->
  (forall e, commit_event e = true -> allowed e) ->
  (forall n, allowed (EReadFile (temp_name n))) ->
  within (fun p => p = temp_name (rng w) \/ p = path update
                   \/ p = path update +:+ ".previous"
                   \/ p = fallback_backup (path update +:+ ".previous"))
    allowed w (snd (updateFile update lastUpdate w)).
Proof.
  intros Hs Hr Hc Hv. unfold updateFile.
  destruct (expand _ _ _) as [|u]; [apply within_refl|].
  destruct (present _).
  - eapply within_trans; [apply within_tick_rng|].
    refine (keeps_bind _ _ _ _ _ _ (tick_rng w)).
    + by apply keeps_hashPromise.
    + intros localHash. apply keeps_bind.
      * apply keeps_downloadPromise; auto.
      * intros [downloadHash togo]. apply keeps_commit_if_changed; auto.
  - refine ((_ : keeps _ allowed
                   (log Info "Not updating: no url" ;; resolve lastUpdate)) w).
    keeps_auto.
Qed.

(** X20. Whatever happens, [updateFile] changes no file other than the
    temp file it names, the target, [target + ".previous"] and the
    secondary backup location; it never calls [fs.writeFile]: the journal
    is not written by it. *)
Theorem updateFile_touches_only_its_paths update lastUpdate w :
  (forall p, p <> temp_name (rng w) -> p <> path update ->
             p <> path update +:+ ".previous" ->
             p <> fallback_backup (path update +:+ ".previous") ->
     fs (snd (updateFile update lastUpdate w)) !! p = fs w !! p)
  /\ Forall (fun e => writeFile_event e = false)
       (since w (snd (updateFile update lastUpdate w)))
  /\ remote (snd (updateFile update lastUpdate w)) = remote w.
Proof.
  pose proof (updateFile_within (fun e => writeFile_event e = false)
                update lastUpdate w
                ltac:(by intros []) ltac:(by intros [])
                ltac:(by intros []) ltac:(done)) as Hk.
  split; [|split].
  - intros p H1 H2 H3 H4. apply (within_fs _ _ _ _ Hk).
    by intros [?|[?|[?|?]]].
  - by apply within_since in Hk as [_ ?].
  - apply (within_remote _ _ _ _ Hk).
Qed.


End WithPlatform.

Lemma updateFile_without_url_witness :
  fst (@updateFile Demo.platform Demo.without_secret Demo.earlier Demo.online)
  = Resolved Demo.earlier.
Proof.
  apply (@updateFile_without_url Demo.platform Demo.without_secret Demo.earlier
           Demo.online).
  - vm_compute. discriminate.
  - right. vm_compute. apply Exists_cons_hd. reflexivity.
Defined.

Lemma updateFile_keeps_entry_without_200_witness :
  fst (@updateFile Demo.platform Demo.tracked Demo.earlier Demo.up_to_date)
  = Resolved Demo.earlier
  /\ fs (snd (@updateFile Demo.platform Demo.tracked Demo.earlier
                Demo.up_to_date)) = fs Demo.up_to_date.
Proof.
  destruct (@updateFile_keeps_entry_without_200 Demo.platform Demo.tracked
              Demo.earlier Demo.up_to_date "https://example.org/f.json")
    as (Hfst & Hfs & _).
  - vm_compute. reflexivity.
  - discriminate.
  - vm_compute. discriminate.
  - split; [exact Hfst|exact Hfs].
Defined.

Lemma updateFile_never_installs_invalid_json_witness :
  fs (snd (@updateFile Demo.platform Demo.tracked Demo.earlier
             Demo.captive_portal)) !! "/cfg/f.json"
  = Some "{}".
Proof.
  destruct (@updateFile_never_installs_invalid_json Demo.platform Demo.tracked
              Demo.earlier Demo.captive_portal "https://example.org/f.json")
    as (_ & _ & Hfs).
  - vm_compute. reflexivity.
  - discriminate.
  - reflexivity.
  - intros response [= <-]. vm_compute. reflexivity.
  - rewrite Hfs; [vm_compute; reflexivity|]. vm_compute. discriminate.
Defined.

Lemma updateFile_installs_new_content_witness :
  fst (@updateFile Demo.platform Demo.tracked Demo.earlier Demo.outdated)
  = Resolved {| etag := Some "v2";
                date := Some "Thu, 01 Jan 1970 00:00:00 GMT";
                previous := Some "/cfg/f.json.previous" |}
  /\ fs (snd (@updateFile Demo.platform Demo.tracked Demo.earlier
                Demo.outdated)) !! "/cfg/f.json" = Some "{new}"
  /\ fs (snd (@updateFile Demo.platform Demo.tracked Demo.earlier
                Demo.outdated)) !! "/cfg/f.json.previous" = Some "{old}".
Proof.
  destruct (@updateFile_installs_new_content Demo.platform Demo.tracked
              Demo.earlier Demo.outdated "https://example.org/f.json"
              Demo.new_version)
    as (Hfst & Hnew & _ & Hold & _).
  - reflexivity.
  - vm_compute. reflexivity.
  - discriminate.
  - reflexivity.
  - reflexivity.
  - intros _. vm_compute. reflexivity.
  - vm_compute. discriminate.
  - intros old Hold. vm_compute in Hold. injection Hold as <-.
    vm_compute. discriminate.
  - vm_compute. discriminate.
  - vm_compute. discriminate.
  - split; [|split].
    + rewrite Hfst. vm_compute. reflexivity.
    + exact Hnew.
    + refine (eq_trans Hold _). vm_compute. reflexivity.
Defined.

Lemma updateFile_reinstalls_when_hash_fails_witness :
  fst (@updateFile Demo.platform Demo.tracked Demo.earlier Demo.unreadable)
  = Resolved {| etag := Some "abc";
                date := Some "Thu, 01 Jan 1970 00:00:00 GMT";
                previous := Some "/cfg/f.json.previous" |}.
Proof.
  destruct (@updateFile_reinstalls_when_hash_fails Demo.platform Demo.tracked
              Demo.earlier Demo.unreadable "https://example.org/f.json"
              Demo.quoted_response "{}" Fails)
    as (Hfst & _).
  - reflexivity.
  - discriminate.
  - vm_compute. reflexivity.
  - vm_compute. reflexivity.
  - discriminate.
  - reflexivity.
  - reflexivity.
  - intros _. vm_compute. reflexivity.
  - vm_compute. discriminate.
  - vm_compute. discriminate.
  - vm_compute. discriminate.
  - rewrite Hfst. vm_compute. reflexivity.
Defined.

Lemma updateFile_survives_download_failure_witness :
  fst (@updateFile Demo.platform Demo.tracked Demo.earlier Demo.full_disk)
  = Resolved Demo.earlier.
Proof.
  destruct (@updateFile_survives_download_failure Demo.platform Demo.tracked
              Demo.earlier Demo.full_disk "https://example.org/f.json"
              (DownloadWriteFailed "https://example.org/f.json"
                 "/tmp/morphic-update.0.0")
              (snd (@downloadFile Demo.platform "https://example.org/f.json"
                      "/tmp/morphic-update.0.0" None
                      (tick_rng Demo.full_disk))))
    as (Hrun & _).
  - vm_compute. reflexivity.
  - discriminate.
  - vm_compute. reflexivity.
  - rewrite Hrun. reflexivity.
Defined.


End UpdateFileMore.

(** ** The journal and a whole run *)

Module JournalMore.
Import Fs EnvProofs CommitProofs DownloadProofs UpdateFileProofs JournalProofs.
Import configUpdater Notions Calm DownloadMore CommitMore UpdateFileMore.

Section Quiet.

Lemma quiet_resolve {A} (a : A) : quiet (resolve a).
Proof. by intros w. Qed.

Lemma quiet_reject {A} e : quiet (@reject A e).
Proof. by intros w. Qed.

Lemma quiet_emit e : quiet (emit e).
Proof. by intros w. Qed.

Lemma quiet_log l message : quiet (log l message).
Proof. by intros w. Qed.

Lemma quiet_bind {A B} (p : promise A) (k : A -> promise B) :
  quiet p -> (forall a, quiet (k a)) -> quiet (p ≫= k).
Proof.
  intros Hp Hk w Hw. rewrite bind_run. specialize (Hp w Hw).
  destruct (p w) as [[a|e] w1]; simpl in *; [by apply Hk|done].
Qed.

Lemma quiet_then_else {A B} (p : promise A) (k : A -> promise B)
    (h : error -> promise B) :
  quiet p -> (forall a, quiet (k a)) -> (forall e, quiet (h e)) ->
  quiet (then_else p k h).
Proof.
  intros Hp Hk Hh w Hw. unfold then_else. specialize (Hp w Hw).
  destruct (p w) as [[a|e] w1]; simpl in *; [by apply Hk|by apply Hh].
Qed.

Lemma quiet_catch {A} (p : promise A) (h : error -> promise A) :
  quiet p -> (forall e, quiet (h e)) -> quiet (catch p h).
Proof.
  intros Hp Hh w Hw. unfold catch. specialize (Hp w Hw).
  destruct (p w) as [[a|e] w1]; simpl in *; [done|by apply Hh].
Qed.

Ltac quiet_call :=
  let w := fresh "w" in
  let Hw := fresh "Hw" in
  intros w Hw; rewrite next_outcome_calm by exact Hw; simpl;
  repeat case_match; simpl; done.

Lemma quiet_rename source destination : quiet (rename source destination).
Proof. unfold rename. quiet_call. Qed.

Lemma quiet_copyFile source destination : quiet (copyFile source destination).
Proof. unfold copyFile. quiet_call. Qed.

Lemma quiet_unlinkSync path : quiet (unlinkSync path).
Proof. unfold unlinkSync. quiet_call. Qed.

Lemma quiet_ensure_directory destDir : quiet (ensure_directory destDir).
Proof. unfold ensure_directory. quiet_call. Qed.

Lemma quiet_readFile path : quiet (readFile path).
Proof. unfold readFile. quiet_call. Qed.

Lemma quiet_writeFile path content : quiet (writeFile path content).
Proof. unfold writeFile. quiet_call. Qed.

Lemma quiet_writeStream path content : quiet (writeStream path content).
Proof. unfold writeStream. quiet_call. Qed.

Lemma quiet_readStream path : quiet (readStream path).
Proof. unfold readStream. quiet_call. Qed.

End Quiet.

Ltac quiet_step :=
  first
    [ apply quiet_resolve
    | apply quiet_reject
    | apply quiet_log
    | apply quiet_emit
    | apply quiet_rename
    | apply quiet_copyFile
    | apply quiet_unlinkSync
    | apply quiet_ensure_directory
    | apply quiet_readFile
    | apply quiet_writeFile
    | apply quiet_writeStream
    | apply quiet_readStream
    | apply quiet_bind; [|intros ?]
    | apply quiet_then_else; [|intros ?|intros ?]
    | apply quiet_catch; [|intros ?] ].

Ltac quiet_auto := repeat quiet_step.

Section WithPlatform.
Context `{Platform}.

Lemma quiet_moveFile_copy source destination :
  quiet (moveFile_copy source destination).
Proof. unfold moveFile_copy. quiet_auto. Qed.

Lemma quiet_moveFile source destination copy :
  quiet (moveFile source destination copy).
Proof.
  unfold moveFile. destruct copy; [apply quiet_moveFile_copy|].
  quiet_auto; try apply quiet_moveFile_copy.
Qed.

Lemma quiet_applyUpdate source destination :
  quiet (applyUpdate source destination).
Proof.
  intros w. unfold applyUpdate.
  refine (quiet_bind _ _ _ _ w).
  - unfold backupPromise. destruct (existsSync destination w);
      quiet_auto; try apply quiet_moveFile.
  - intros backupPath. quiet_auto; try apply quiet_moveFile.
Qed.

Lemma quiet_hashFile file algorithm : quiet (hashFile file algorithm).
Proof. unfold hashFile. quiet_auto. Qed.

Lemma quiet_validateJSON file : quiet (validateJSON file).
Proof. unfold validateJSON. quiet_auto. Qed.

Lemma quiet_downloadFile u localPath options :
  quiet (downloadFile u localPath options).
Proof.
  intros w Hw. rewrite downloadFile_run. cbv zeta.
  destruct (remote w u _) as [message|response]; [done|].
  refine ((_ : quiet (on_response u localPath (with_defaults options) response))
            _ _); [|done].
  unfold on_response. quiet_auto.
  destruct (_ =? 200)%Z; [|destruct (_ =? 304)%Z]; quiet_auto;
    try apply quiet_hashFile.
Qed.

Lemma quiet_hashPromise update existing : quiet (hashPromise update existing).
Proof.
  unfold hashPromise. destruct existing; [|apply quiet_resolve].
  apply quiet_catch.
  - apply quiet_bind; [apply quiet_hashFile|intros ?; apply quiet_resolve].
  - intros e. quiet_auto.
Qed.

Lemma quiet_downloadPromise update togo u tempFile options :
  quiet (downloadPromise update togo u tempFile options).
Proof.
  unfold downloadPromise. apply quiet_then_else.
  - apply quiet_downloadFile.
  - intros [|hash etag date]; [apply quiet_resolve|].
    apply quiet_bind.
    + destruct (isJSON update); [apply quiet_validateJSON|apply quiet_resolve].
    + intros [|]; apply quiet_resolve.
  - intros e. quiet_auto.
Qed.

Lemma quiet_commit_if_changed update tempFile localHash downloadHash togo :
  quiet (commit_if_changed update tempFile localHash downloadHash togo).
Proof.
  unfold commit_if_changed.
  destruct (should_update _ _); [|apply quiet_resolve].
  apply quiet_bind; [apply quiet_applyUpdate|intros ?; apply quiet_resolve].
Qed.

Lemma quiet_updateFile update lastUpdate : quiet (updateFile update lastUpdate).
Proof.
  intros w Hw. unfold updateFile.
  destruct (Expander.expand _ _ _) as [|u]; [done|].
  destruct (present _); [|done].
  refine (quiet_bind _ _ _ _ (tick_rng w) Hw).
  - apply quiet_hashPromise.
  - intros localHash. apply quiet_bind.
    + apply quiet_downloadPromise.
    + intros [downloadHash togo]. apply quiet_commit_if_changed.
Qed.


Lemma quiet_try_entries fileList failed : quiet (try_entries fileList failed).
Proof.
  revert failed. induction fileList as [|file rest IH]; intros failed; simpl.
  - apply quiet_resolve.
  - apply quiet_bind; [|done]. intros w Hw. unfold try_entry.
    pose proof (quiet_updateFile file no_update w Hw) as Hq.
    destruct (updateFile file no_update w) as [[newLastUpdate|e] w1]; [done|].
    by destruct e.
Qed.



Lemma saveLastUpdates_calm lastUpdates path w :
  pending w = [] ->
  exists w',
    saveLastUpdates lastUpdates path w = (Resolved tt, w')
    /\ calmly w w'
    /\ fs w' = <[journal_path path := saved_text (files lastUpdates)]> (fs w).
Proof.
  intros Hp. unfold saveLastUpdates, then_else. fold (journal_path path).
  fold (saved_text (files lastUpdates)).
  destruct (writeFile_calm (journal_path path) (saved_text (files lastUpdates))
              w Hp) as (w' & -> & Hcalm & Hfs).
  by exists w'.
Qed.

(** X22. [saveLastUpdates] resolves exactly when the write completes, and
    then the journal file holds the header line followed by the
    stringified journal stamped with the current time; a failed write
    rejects with an error naming the path. No other file is changed, with
    no failure the promise resolves, and the [lastCheck] of the journal
    passed in plays no part. *)
Theorem saveLastUpdates_writes_journal lastUpdates path w :
  (fst (saveLastUpdates lastUpdates path w) = Resolved tt ->
   fs (snd (saveLastUpdates lastUpdates path w))
   = <[journal_path path := saved_text (files lastUpdates)]> (fs w))
  /\ (forall e, fst (saveLastUpdates lastUpdates path w) = Rejected e ->
        e = SaveFailed (journal_path path))
  /\ (forall p, p <> journal_path path ->
        fs (snd (saveLastUpdates lastUpdates path w)) !! p = fs w !! p)
  /\ (pending w = [] -> fst (saveLastUpdates lastUpdates path w) = Resolved tt)
  /\ (forall stamp,
        saveLastUpdates {| lastCheck := stamp; files := files lastUpdates |}
          path w
        = saveLastUpdates lastUpdates path w).
Proof.
  split; [|split; [|split; [|split]]].
  - unfold saveLastUpdates, then_else. fold (journal_path path).
    fold (saved_text (files lastUpdates)). unfold writeFile.
    destruct (next_outcome _) as [o w1] eqn:E.
    apply next_outcome_same in E as (F & _). simpl in F.
    destruct o; simpl; [by rewrite F|done..].
  - unfold saveLastUpdates, then_else. fold (journal_path path).
    intros e. destruct (writeFile _ _ w) as [[[]|e'] w1]; simpl; [done|].
    by intros [= <-].
  - intros p Hp.
    pose proof (keeps_saveLastUpdates (fun q => q = journal_path path)
                  (fun _ => True) lastUpdates path eq_refl
                  ltac:(done) ltac:(done) w) as Hk.
    by apply (within_fs _ _ _ _ Hk).
  - intros Hp.
    by destruct (saveLastUpdates_calm lastUpdates path w Hp) as (w' & -> & _).
  - done.
Qed.

Lemma loadLastUpdates_calm path content w :
  pending w = [] -> fs w !! journal_path path = Some content ->
  exists w',
    loadLastUpdates path w
    = (Resolved (match JSON5_parse content with
                 | ParsedObject journal => LoadedObject journal
                 | ParsedPrimitive v => LoadedPrimitive v
                 | _ => LoadedObject empty_journal
                 end), w')
    /\ calmly w w'
    /\ fs w' = fs w
    /\ trace w' = trace w
         ++ EReadFile (journal_path path)
         :: match JSON5_parse content with
            | ParseThrows => [ELog Info "Error parsing last updates file "]
            | _ => []
            end.
Proof.
  intros Hp Hc. unfold loadLastUpdates, then_else. fold (journal_path path).
  unfold readFile. rewrite next_outcome_calm by done. simpl. rewrite Hc.
  destruct (JSON5_parse content).
  - rewrite bind_run. unfold log at 1, emit at 1. cbv beta iota.
    eexists. split; [reflexivity|]. simpl.
    split; [done|]. split; [done|]. by rewrite <- List.app_assoc.
  - eexists. split; [reflexivity|]. by simpl.
  - eexists. split; [reflexivity|]. by simpl.
  - eexists. split; [reflexivity|]. by simpl.
Qed.

(** X23. With the journal file in place and no failure, [loadLastUpdates]
    resolves with what [JSON5.parse] makes of its content, read once: any
    truthy result as it is, and the empty journal [{files: {}}] both when
    the parse throws, which is logged, and when it yields a falsy value,
    which is not. It changes no file. *)
Theorem loadLastUpdates_reads_journal path content w :
  pending w = [] ->
  fs w !! journal_path path = Some content ->
  fst (loadLastUpdates path w)
  = Resolved (match JSON5_parse content with
              | ParsedObject journal => LoadedObject journal
              | ParsedPrimitive v => LoadedPrimitive v
              | _ => LoadedObject empty_journal
              end)
  /\ fs (snd (loadLastUpdates path w)) = fs w
  /\ since w (snd (loadLastUpdates path w))
     = EReadFile (journal_path path)
       :: match JSON5_parse content with
          | ParseThrows => [ELog Info "Error parsing last updates file "]
          | _ => []
          end.
Proof.
  intros Hp Hc.
  destruct (loadLastUpdates_calm path content w Hp Hc)
    as (w' & -> & _ & Hfs & Ht).
  split; [done|]. split; [done|]. by apply since_app.
Qed.

(** X24. What is saved can be loaded: with no failure, saving a journal and
    then loading from the same path resolves with whatever [JSON5.parse]
    reads from the saved text (the header line is a comment to it), and the
    journal file holds that text. *)
Theorem load_after_save lastUpdates path journal w :
  pending w = [] ->
  JSON5_parse (saved_text (files lastUpdates)) = ParsedObject journal ->
  fst ((saveLastUpdates lastUpdates path ;; loadLastUpdates path) w)
  = Resolved (LoadedObject journal)
  /\ fs (snd ((saveLastUpdates lastUpdates path ;; loadLastUpdates path) w))
     = <[journal_path path := saved_text (files lastUpdates)]> (fs w).
Proof.
  intros Hp Hparse. rewrite bind_run.
  destruct (saveLastUpdates_calm lastUpdates path w Hp)
    as (w1 & -> & [Hp1 _] & Hfs1).
  destruct (loadLastUpdates_calm path (saved_text (files lastUpdates)) w1 Hp1)
    as (w2 & -> & _ & Hfs2 & _).
  { by rewrite Hfs1, lookup_insert_eq. }
  rewrite Hparse. simpl. split; [done|]. by rewrite Hfs2.
Qed.

Lemma keeps_updateFile_paths (touch : string -> Prop) (allowed : event -> Prop)
    update lastUpdate :
  (forall n, touch (temp_name n)) ->
  touch (path update) ->
  touch (path update +:+ ".previous") ->
  touch (fallback_backup (path update +:+ ".previous")) ->
  (forall e, stream_event e = true -> allowed e) ->
  (forall e, request_event e = true -> allowed e) ->
  (forall e, commit_event e = true -> allowed e) ->
  (forall n, allowed (EReadFile (temp_name n))) ->
  keeps touch allowed (updateFile update lastUpdate).
Proof.
  intros Ht Hp Hb Hf Hs Hr Hc Hv w.
  eapply within_mono; [| |by apply updateFile_within]; [|done].
  intros p [->|[->|[->| ->]]]; auto.
Qed.

Lemma keeps_logged (touch : string -> Prop) (allowed : event -> Prop) w :
  (forall e, stream_event e = true -> allowed e) ->
  within touch allowed w (record (ELog Warn "updateFile error") w).
Proof.
  intros Hs. constructor; simpl; [done| |done].
  eexists. split; [reflexivity|]. repeat constructor. by apply Hs.
Qed.

Lemma keeps_update_entries_paths (touch : string -> Prop)
    (allowed : event -> Prop) loaded fileList journal :
  (forall n, touch (temp_name n)) ->
  (forall f, f ∈ fileList ->
     touch (path f) /\ touch (path f +:+ ".previous")
     /\ touch (fallback_backup (path f +:+ ".previous"))) ->
  (forall e, stream_event e = true -> allowed e) ->
  (forall e, request_event e = true -> allowed e) ->
  (forall e, commit_event e = true -> allowed e) ->
  (forall n, allowed (EReadFile (temp_name n))) ->
  keeps touch allowed (update_entries loaded fileList journal).
Proof.
  intros Ht Hfiles Hs Hr Hc Hv. revert journal.
  induction fileList as [|file rest IH]; intros journal; simpl.
  - apply keeps_resolve.
  - apply keeps_bind.
    + intros w. rewrite update_entry_run.
      destruct (Hfiles file) as (? & ? & ?); [by left|].
      pose proof (keeps_updateFile_paths touch allowed file
                    (default no_update (loaded !! path file))
                    Ht ltac:(done) ltac:(done) ltac:(done) Hs Hr Hc Hv w) as Hk.
      destruct (updateFile file _ w) as [[newLastUpdate|e] w1]; [done|].
      simpl in Hk.
      destruct e; simpl; try done;
        (eapply within_trans; [exact Hk|by apply keeps_logged]).
    + intros journal'. apply IH. intros f Hf. apply Hfiles. by right.
Qed.

Lemma keeps_try_entries_paths (touch : string -> Prop)
    (allowed : event -> Prop) fileList failed :
  (forall n, touch (temp_name n)) ->
  (forall f, f ∈ fileList ->
     touch (path f) /\ touch (path f +:+ ".previous")
     /\ touch (fallback_backup (path f +:+ ".previous"))) ->
  (forall e, stream_event e = true -> allowed e) ->
  (forall e, request_event e = true -> allowed e) ->
  (forall e, commit_event e = true -> allowed e) ->
  (forall n, allowed (EReadFile (temp_name n))) ->
  keeps touch allowed (try_entries fileList failed).
Proof.
  intros Ht Hfiles Hs Hr Hc Hv. revert failed.
  induction fileList as [|file rest IH]; intros failed; simpl.
  - apply keeps_resolve.
  - apply keeps_bind.
    + intros w. unfold try_entry.
      destruct (Hfiles file) as (? & ? & ?); [by left|].
      pose proof (keeps_updateFile_paths touch allowed file no_update
                    Ht ltac:(done) ltac:(done) ltac:(done) Hs Hr Hc Hv w) as Hk.
      destruct (updateFile file no_update w) as [[newLastUpdate|e] w1];
        [done|].
      simpl in Hk.
      destruct e; simpl; try done;
        (eapply within_trans; [exact Hk|by apply keeps_logged]).
    + intros failed'. apply IH. intros f Hf. apply Hfiles. by right.
Qed.

Lemma keeps_loadLastUpdates (touch : string -> Prop) (allowed : event -> Prop)
    path :
  (forall e, stream_event e = true -> allowed e) ->
  allowed (EReadFile (journal_path path)) ->
  keeps touch allowed (loadLastUpdates path).
Proof.
  intros Hs Hr. unfold loadLastUpdates. fold (journal_path path).
  apply keeps_then_else.
  - by apply readFile_within.
  - intros content. destruct (JSON5_parse content); keeps_auto.
  - intros e. keeps_auto.
Qed.

Lemma keeps_in_callback {A} (touch : string -> Prop) (allowed : event -> Prop)
    (body : promise A) :
  keeps touch allowed body -> keeps touch allowed (in_callback body).
Proof.
  intros Hk w. unfold in_callback. specialize (Hk w).
  destruct (body w) as [[a|e] w1]; [done|]. by destruct e.
Qed.

Lemma keeps_save_unawaited (touch : string -> Prop) (allowed : event -> Prop)
    lastUpdates :
  touch (lastUpdatesFile autoUpdate) ->
  (forall e, stream_event e = true -> allowed e) ->
  (forall e, writeFile_event e = true -> allowed e) ->
  keeps touch allowed (save_unawaited lastUpdates).
Proof.
  intros Ht Hs Hw w. unfold save_unawaited.
  pose proof (keeps_saveLastUpdates touch allowed lastUpdates None Ht Hs Hw w)
    as Hk.
  by destruct (saveLastUpdates lastUpdates None w) as [r w1].
Qed.

(** X25. A whole run of [updateAll] changes no file other than the
    journal, the temp files the updater names, the tracked files and their
    two backup locations, whatever fails on the way, and it does not
    change what the server answers. *)
Theorem updateAll_touches_only_managed_paths w :
  (forall p, ~ managed p -> fs (snd (updateAll w)) !! p = fs w !! p)
  /\ remote (snd (updateAll w)) = remote w.
Proof.
  assert (Htemp : forall n, managed (temp_name n)).
  { intros n. right. left. by exists n. }
  assert (Hfiles : forall f, f ∈ cfg_files autoUpdate ->
            managed (path f) /\ managed (path f +:+ ".previous")
            /\ managed (fallback_backup (path f +:+ ".previous"))).
  { intros f Hf. repeat split; right; right; exists f; auto. }
  assert (Hk : keeps managed (fun _ => True) updateAll).
  { unfold updateAll.
    apply keeps_bind; [by apply keeps_log|]. intros _.
    apply keeps_bind; [by apply keeps_loadLastUpdates|]. intros lastUpdates.
    apply keeps_in_callback.
    destruct lastUpdates as [lastUpdates|v]; [|apply keeps_reject].
    destruct (files lastUpdates) as [|entries|v].
    - apply keeps_bind; [by apply keeps_update_entries_paths|].
      intros journal. apply keeps_save_unawaited; [by left|done|done].
    - apply keeps_bind; [by apply keeps_update_entries_paths|].
      intros journal. apply keeps_save_unawaited; [by left|done|done].
    - apply keeps_bind; [by apply keeps_try_entries_paths|].
      intros [|]; [apply keeps_reject|].
      apply keeps_save_unawaited; [by left|done|done]. }
  split.
  - intros p Hp. by apply (within_fs _ _ _ _ (Hk w)).
  - apply (within_remote _ _ _ _ (Hk w)).
Qed.


End WithPlatform.

Lemma loadLastUpdates_reads_journal_witness :
  fst (@loadLastUpdates Demo.platform None Demo.saved_journal)
  = Resolved (LoadedObject Demo.without_entries).
Proof.
  destruct (@loadLastUpdates_reads_journal Demo.platform None
              (Demo.header
               +:+ Demo.stringify {| lastCheck := Some Demo.now;
                                     files := FilesMap ∅ |})
              Demo.saved_journal) as (Hfst & _).
  - reflexivity.
  - vm_compute. reflexivity.
  - rewrite Hfst. vm_compute. reflexivity.
Defined.

Lemma load_after_save_witness :
  fst ((@saveLastUpdates Demo.platform empty_journal None ;;
        @loadLastUpdates Demo.platform None) Demo.online)
  = Resolved (LoadedObject Demo.without_entries).
Proof.
  apply (@load_after_save Demo.platform empty_journal None Demo.without_entries
           Demo.online).
  - reflexivity.
  - vm_compute. reflexivity.
Defined.


End JournalMore.
